(** * Convolution and warping kernels of afw: a shallow embedding

    The development follows these files of the repository:
    - [src/math/ConvolveImage.cc]: [basicConvolve] (general, delta function
      and separable versions), [copyRegion], [copyBorder], [convolve],
      [convolveLinear], [convolveOneKernelRow];
    - [src/math/detail/ConvolveWithInterpolation.cc]:
      [convolveWithInterpolation], [convolveRegionWithInterpolation];
    - [src/math/warpExposure.cc]: [warpExposure], [BilinearFunction1];
    - [src/image/Image.cc]: the views, constructors, [assign] and the
      operators of [ImageBase] and [Image], on shared pixel buffers;
    - [src/image/DecoratedImage.cc]: copying, [swap] and assignment;
    - [include/lsst/afw/table/Set.h]: [SetT];
    - [src/cameraGeom/DetectorMosaic.cc]: [setCenter], [getSize];
    - [tests/Quadrature.cc]: the integrands [Parab1D] and [Parab2D].

    Pixel and kernel values are exact rationals ([Qc]): the rounding of
    [float] and [double] is not part of the model.  C++ [int] is [Z]; the
    [unsigned int] arithmetic of [copyBorder] wraps modulo 2^32. *)

From Stdlib Require Import ZArith List Bool Lia QArith Qround Qcanon.
From Stdlib Require String.
Import ListNotations.

Local Open Scope Z_scope.

(** ** Loops *)

(** [for (i = a; n iterations; ++i) s = body i s]. *)
Fixpoint for_loop {S : Type} (n : nat) (i : Z) (body : Z -> S -> S) (s : S) : S :=
  match n with
  | O => s
  | Datatypes.S n' => for_loop n' (i + 1) body (body i s)
  end.

(** [for (i = a; i < b; ++i)]; also [for (i = a; i != b; ++i)] when [a <= b].
    A loop on [!=] whose bound lies below its start is undefined in the
    source; here it runs no iteration. *)
Definition for_range {S : Type} (a b : Z) (body : Z -> S -> S) (s : S) : S :=
  for_loop (Z.to_nat (b - a)) a body s.

(** ** Images *)

Definition Pixel := Qc.

Definition ofZ (z : Z) : Qc := Q2Qc (inject_Z z).

Definition Qc_eqb (a b : Qc) : bool := if Qc_eq_dec a b then true else false.

(** [Image<PixelT>]: dimensions, origin and the pixel at each index.  Reads
    and writes outside [0, width) x [0, height) are undefined in the
    source; here they address cells that no in-range access observes. *)
Record Image := mkImage {
  getWidth : Z;
  getHeight : Z;
  getXY0 : Z * Z;
  pix : Z -> Z -> Pixel
}.

Definition getDimensions (im : Image) : Z * Z := (getWidth im, getHeight im).

(** Read-modify-write of the pixel an iterator points at: column [x] of row [y]. *)
Definition updPix (im : Image) (x y : Z) (f : Pixel -> Pixel) : Image :=
  mkImage (getWidth im) (getHeight im) (getXY0 im)
    (fun x' y' => if (x' =? x) && (y' =? y) then f (pix im x' y') else pix im x' y').

Definition setPix (im : Image) (x y : Z) (v : Pixel) : Image :=
  updPix im x y (fun _ => v).

(** [afwImage::BBox] and [afwGeom::Box2I]: lower left corner and extent. *)
Record BBox := mkBBox {
  getMinX : Z;
  getMinY : Z;
  bboxWidth : Z;
  bboxHeight : Z
}.

Definition inBBox (b : BBox) (x y : Z) : bool :=
  (getMinX b <=? x) && (x <? getMinX b + bboxWidth b) &&
  (getMinY b <=? y) && (y <? getMinY b + bboxHeight b).

(** Constant of ImageUtils.h, which is not part of the sources at hand: the
    position of the centre of pixel 0. *)
Class ImageUtils := { PixelZeroPos : Qc }.

Definition indexToPosition {utils : ImageUtils} (ind : Z) : Qc := (ofZ ind + PixelZeroPos)%Qc.

(** ** Kernels *)

(** [Image<Kernel::PixelT>] of the kernel's dimensions. *)
Definition KernelImage := Z -> Z -> Qc.

Definition SpatialFunction := Qc -> Qc -> Qc.

(** The fixed kernels a [LinearCombinationKernel] combines. *)
Inductive BasisKernel :=
| BasisFixed (image : KernelImage)
| BasisDelta (px py : Z)
| BasisSeparable (kernelColFunction kernelRowFunction : Z -> Qc).

(** What the [dynamic_cast]s of [basicConvolve] tell apart.  The weights of
    the general and the separable kernel are functions of the position
    [(x, y)] at which [computeImage] or [computeVectors] is asked. *)
Inductive KernelShape :=
| ShapeGeneral (image : Qc -> Qc -> KernelImage)
| ShapeDeltaFunction (pixel : Z * Z)
| ShapeSeparable (kernelColFunction kernelRowFunction : Qc -> Qc -> Z -> Qc)
| ShapeLinearCombination (terms : list (BasisKernel * SpatialFunction)).

Module Kernel.
Record t := mk {
  getWidth : Z;
  getHeight : Z;
  getCtrX : Z;
  getCtrY : Z;
  isSpatiallyVarying : bool;
  shape : KernelShape
}.
Definition getDimensions (k : t) : Z * Z := (getWidth k, getHeight k).
End Kernel.

Definition sum_range (a b : Z) (f : Z -> Qc) : Qc :=
  for_range a b (fun i acc => (acc + f i)%Qc) 0%Qc.

Definition sum_list (v : list Qc) : Qc := fold_left Qcplus v 0%Qc.

Definition deltaFunctionImage (pixel : Z * Z) : KernelImage :=
  fun i j => if (i =? fst pixel) && (j =? snd pixel) then 1%Qc else 0%Qc.

Definition basisImage (b : BasisKernel) : KernelImage :=
  match b with
  | BasisFixed image => image
  | BasisDelta px py => deltaFunctionImage (px, py)
  | BasisSeparable c r => fun i j => (c i * r j)%Qc
  end.

(** Modelled from the spec: the weight image of a kernel at a position (the
    Kernel classes are not under src).  A delta function kernel has a single
    unit weight; a separable kernel is the outer product of its column and
    row weights; a linear combination is the sum over its basis kernels of
    coefficient(position) times the basis image. *)
Definition rawImage (k : Kernel.t) (x y : Qc) : KernelImage :=
  match Kernel.shape k with
  | ShapeGeneral image => image x y
  | ShapeDeltaFunction pixel => deltaFunctionImage pixel
  | ShapeSeparable c r => fun i j => (c x y i * r x y j)%Qc
  | ShapeLinearCombination terms =>
      fun i j => fold_left (fun acc t => (acc + snd t x y * basisImage (fst t) i j)%Qc) terms 0%Qc
  end.

Definition imageSum (w h : Z) (image : KernelImage) : Qc :=
  sum_range 0 h (fun j => sum_range 0 w (fun i => image i j)).

(** Modelled from the spec: [Kernel::computeImage(image, doNormalize, x, y)]
    (not under src) fills the image with the weights at [(x, y)], divided by
    their sum when [doNormalize], and returns that sum.  A sum of zero is not
    guarded; [Qc] division by zero yields zero where the source would yield
    NaN or infinity. *)
Definition computeImage (k : Kernel.t) (doNormalize : bool) (x y : Qc) : KernelImage * Qc :=
  let raw := rawImage k x y in
  let kSum := imageSum (Kernel.getWidth k) (Kernel.getHeight k) raw in
  ((if doNormalize then fun i j => (raw i j / kSum)%Qc else raw), kSum).

Definition indices (n : Z) : list Z := map Z.of_nat (seq 0 (Z.to_nat n)).

(** Modelled from the spec: [SeparableKernel::computeVectors(colList, rowList,
    doNormalize, x, y)] (not under src) fills the two weight vectors, each
    divided by its own sum when [doNormalize] so that their outer product is
    the normalized weight image, and returns the sum of the outer product. *)
Definition computeVectors (k : Kernel.t) (kernelColFunction kernelRowFunction : Qc -> Qc -> Z -> Qc)
    (doNormalize : bool) (x y : Qc) : list Qc * list Qc * Qc :=
  let colList := map (kernelColFunction x y) (indices (Kernel.getWidth k)) in
  let rowList := map (kernelRowFunction x y) (indices (Kernel.getHeight k)) in
  let colSum := sum_list colList in
  let rowSum := sum_list rowList in
  if doNormalize
  then (map (fun v => (v / colSum)%Qc) colList, map (fun v => (v / rowSum)%Qc) rowList, (colSum * rowSum)%Qc)
  else (colList, rowList, (colSum * rowSum)%Qc).

(** ** Point convolution primitive *)

(** Modelled from the spec: [convolveAtAPoint] for a dense kernel image
    (ConvolveImage.h is not under src): the sum over the footprint of
    input[i, j] * weight[i, j], the locator standing at the footprint's
    origin [(x0, y0)] of the input image. *)
Definition convolveAtAPoint (inImage : Image) (x0 y0 : Z) (kernelImage : KernelImage)
    (kWidth kHeight : Z) : Pixel :=
  sum_range 0 kHeight (fun j =>
    sum_range 0 kWidth (fun i => (pix inImage (x0 + i) (y0 + j) * kernelImage i j)%Qc)).

(** Sum of weight[i] * f(start + i) over a weight vector. *)
Fixpoint weighted_sum (weights : list Qc) (start : Z) (f : Z -> Qc) : Qc :=
  match weights with
  | [] => 0%Qc
  | w :: rest => (w * f start + weighted_sum rest (start + 1) f)%Qc
  end.

(** Modelled from the spec: [convolveAtAPoint] for a pair of weight vectors
    (ConvolveImage.h is not under src): the double pass
    sum_j weight_y[j] * (sum_i weight_x[i] * input[i, j]). *)
Definition convolveAtAPointSeparable (inImage : Image) (x0 y0 : Z)
    (kernelXList kernelYList : list Qc) : Pixel :=
  weighted_sum kernelYList 0 (fun j =>
    weighted_sum kernelXList 0 (fun i => pix inImage (x0 + i) (y0 + j))).

(** [convolveOneKernelRow]: adds to the output pixel at [(outX, outY)] the
    contribution of row [kernelY] of the kernel, whose first weight meets the
    input pixel [(inX, inY)]; weights equal to zero are skipped. *)
Definition convolveOneKernelRow (outImage : Image) (outX outY : Z) (inImage : Image) (inX inY : Z)
    (kernelImage : KernelImage) (kernelY : Z) (kWidth : Z) : Image :=
  let locOutPixel := pix outImage outX outY in
  let locOutPixel' :=
    for_range 0 kWidth (fun x loc =>
      let kVal := kernelImage x kernelY in
      if Qc_eqb kVal 0%Qc then loc else (loc + pix inImage (inX + x) inY * kVal)%Qc) locOutPixel in
  setPix outImage outX outY locOutPixel'.

(** ** Exceptions and the output image as state *)

(** The exceptions of pex_exceptions the code throws, and the failure of an
    [assert], which ends the call as an exception does. *)
Inductive Exception :=
| InvalidParameterException
| LengthErrorException
| AssertionFailure.

(** A call either returns with the output image as it left it, or throws
    with the output image as it stood at the [throw]. *)
Inductive Result (A : Type) :=
| Ok (a : A) (out : Image)
| Throw (e : Exception) (out : Image).
Arguments Ok {A} a out.
Arguments Throw {A} e out.

Definition M (A : Type) := Image -> Result A.

Definition ret {A} (a : A) : M A := fun out => Ok a out.

Definition bind {A B} (m : M A) (f : A -> M B) : M B :=
  fun out => match m out with
             | Ok a out' => f a out'
             | Throw e out' => Throw e out'
             end.

Definition throw {A} (e : Exception) : M A := fun out => Throw e out.

(** [if (cond(out)) throw e;] *)
Definition throw_if (cond : Image -> bool) (e : Exception) : M unit :=
  fun out => if cond out then Throw e out else Ok tt out.

Definition modify (f : Image -> Image) : M unit := fun out => Ok tt (f out).

Notation "m1 ;; m2" := (bind m1 (fun _ => m2)) (at level 61, right associativity).
Notation "x <- m1 ;; m2" := (bind m1 (fun x => m2))
  (at level 61, m1 at next level, right associativity).

Definition outputOf {A} (r : Result A) : Image :=
  match r with Ok _ out => out | Throw _ out => out end.

(** Comparison of dimension pairs with [!=]. *)
Definition dims_ne (a b : Z * Z) : bool :=
  negb ((fst a =? fst b) && (snd a =? snd b)).

(** Modelled from the spec: comparison of dimension pairs with [<] (the
    dimension type is declared in headers that are not under src): the first
    is smaller than the second in either axis. *)
Definition dims_lt (a b : Z * Z) : bool :=
  (fst a <? fst b) || (snd a <? snd b).

(** ** [basicConvolve] *)

(** [basicConvolve] for a [DeltaFunctionKernel]; [pixel] is
    [kernel.getPixel()]. *)
Definition basicConvolve_DeltaFunctionKernel (inImage : Image) (kernel : Kernel.t) (pixel : Z * Z)
    (doNormalize : bool) : M unit :=
  throw_if (fun _ => Kernel.isSpatiallyVarying kernel) AssertionFailure ;;
  throw_if (fun convolvedImage => dims_ne (getDimensions convolvedImage) (getDimensions inImage))
    InvalidParameterException ;;
  throw_if (fun convolvedImage => dims_lt (getDimensions convolvedImage) (Kernel.getDimensions kernel))
    InvalidParameterException ;;
  let mImageWidth := getWidth inImage in
  let mImageHeight := getHeight inImage in
  let cnvWidth := mImageWidth + 1 - Kernel.getWidth kernel in
  let cnvHeight := mImageHeight + 1 - Kernel.getHeight kernel in
  let cnvStartX := Kernel.getCtrX kernel in
  let cnvStartY := Kernel.getCtrY kernel in
  let inStartX := fst pixel in
  let inStartY := snd pixel in
  modify (for_range 0 cnvHeight (fun i =>
    for_range 0 cnvWidth (fun x convolvedImage =>
      setPix convolvedImage (cnvStartX + x) (i + cnvStartY)
        (pix inImage (inStartX + x) (i + inStartY))))).

(** [basicConvolve] for a [SeparableKernel] with the given column and row
    functions. *)
Definition basicConvolve_SeparableKernel {utils : ImageUtils} (inImage : Image) (kernel : Kernel.t)
    (kernelColFunction kernelRowFunction : Qc -> Qc -> Z -> Qc) (doNormalize : bool) : M unit :=
  throw_if (fun convolvedImage => dims_ne (getDimensions convolvedImage) (getDimensions inImage))
    InvalidParameterException ;;
  throw_if (fun _ => dims_lt (getDimensions inImage) (Kernel.getDimensions kernel))
    InvalidParameterException ;;
  let imWidth := getWidth inImage in
  let imHeight := getHeight inImage in
  let cnvWidth := imWidth + 1 - Kernel.getWidth kernel in
  let cnvHeight := imHeight + 1 - Kernel.getHeight kernel in
  let cnvStartX := Kernel.getCtrX kernel in
  let cnvStartY := Kernel.getCtrY kernel in
  let cnvEndX := cnvStartX + cnvWidth in
  let cnvEndY := cnvStartY + cnvHeight in
  if Kernel.isSpatiallyVarying kernel then
    modify (for_range cnvStartY cnvEndY (fun cnvY =>
      let rowPos := indexToPosition cnvY in
      for_range cnvStartX cnvEndX (fun cnvX convolvedImage =>
        let colPos := indexToPosition cnvX in
        let '(kXVec, kYVec, kSum) :=
          computeVectors kernel kernelColFunction kernelRowFunction doNormalize colPos rowPos in
        let convolvedImage' :=
          setPix convolvedImage cnvX cnvY
            (convolveAtAPointSeparable inImage (cnvX - cnvStartX) (cnvY - cnvStartY) kXVec kYVec) in
        if doNormalize
        then updPix convolvedImage' cnvX cnvY (fun v => (v / kSum)%Qc)
        else convolvedImage')))
  else
    let '(kXVec, kYVec, _) :=
      computeVectors kernel kernelColFunction kernelRowFunction doNormalize 0%Qc 0%Qc in
    modify (for_range cnvStartY cnvEndY (fun cnvY =>
      for_range cnvStartX cnvEndX (fun cnvX convolvedImage =>
        setPix convolvedImage cnvX cnvY
          (convolveAtAPointSeparable inImage (cnvX - cnvStartX) (cnvY - cnvStartY) kXVec kYVec)))).

(** The general (and slower) form: the body of [basicConvolve] after the
    dispatch on the kernel's dynamic type. *)
Definition basicConvolve_general {utils : ImageUtils} (inImage : Image) (kernel : Kernel.t)
    (doNormalize : bool) : M unit :=
  throw_if (fun convolvedImage => dims_ne (getDimensions convolvedImage) (getDimensions inImage))
    InvalidParameterException ;;
  throw_if (fun _ => dims_lt (getDimensions inImage) (Kernel.getDimensions kernel))
    InvalidParameterException ;;
  let inImageWidth := getWidth inImage in
  let inImageHeight := getHeight inImage in
  let kWidth := Kernel.getWidth kernel in
  let kHeight := Kernel.getHeight kernel in
  let cnvWidth := inImageWidth + 1 - Kernel.getWidth kernel in
  let cnvHeight := inImageHeight + 1 - Kernel.getHeight kernel in
  let cnvStartX := Kernel.getCtrX kernel in
  let cnvStartY := Kernel.getCtrY kernel in
  let cnvEndX := cnvStartX + cnvWidth in
  let cnvEndY := cnvStartY + cnvHeight in
  if Kernel.isSpatiallyVarying kernel then
    modify (for_range cnvStartY cnvEndY (fun cnvY =>
      let rowPos := indexToPosition cnvY in
      for_range cnvStartX cnvEndX (fun cnvX convolvedImage =>
        let colPos := indexToPosition cnvX in
        let '(kernelImage, kSum) := computeImage kernel false colPos rowPos in
        let convolvedImage' :=
          setPix convolvedImage cnvX cnvY
            (convolveAtAPoint inImage (cnvX - cnvStartX) (cnvY - cnvStartY) kernelImage kWidth kHeight) in
        if doNormalize
        then updPix convolvedImage' cnvX cnvY (fun v => (v / kSum)%Qc)
        else convolvedImage')))
  else
    let kernelImage := fst (computeImage kernel doNormalize 0%Qc 0%Qc) in
    modify (for_range 0 cnvHeight (fun inStartY convolvedImage =>
      let cnvY := cnvStartY + inStartY in
      let zeroed :=
        for_range cnvStartX (getWidth convolvedImage) (fun x im => setPix im x cnvY 0%Qc)
          convolvedImage in
      for_range 0 kHeight (fun kernelY =>
        let inY := inStartY + kernelY in
        for_range 0 cnvWidth (fun x im =>
          convolveOneKernelRow im (cnvStartX + x) cnvY inImage x inY kernelImage kernelY kWidth))
        zeroed)).

(** [basicConvolve(convolvedImage, inImage, kernel, doNormalize)] for a
    reference to the base class [Kernel]. *)
Definition basicConvolve {utils : ImageUtils} (inImage : Image) (kernel : Kernel.t)
    (doNormalize : bool) : M unit :=
  match Kernel.shape kernel with
  | ShapeDeltaFunction pixel =>
      basicConvolve_DeltaFunctionKernel inImage kernel pixel doNormalize
  | ShapeSeparable kernelColFunction kernelRowFunction =>
      basicConvolve_SeparableKernel inImage kernel kernelColFunction kernelRowFunction doNormalize
  | _ => basicConvolve_general inImage kernel doNormalize
  end.

(** ** Border filler *)

(** [ImageBase::_makeSubView] of Image.cc throws [LengthError] unless the box
    fits in the image. *)
Definition fitsIn (region : BBox) (im : Image) : bool :=
  negb ((getMinX region <? 0) || (getMinY region <? 0) ||
        (getMinX region + bboxWidth region >? getWidth im) ||
        (getMinY region + bboxHeight region >? getHeight im)).

(** [copyRegion] for two plain images of the same type: the two patches are
    views of [region] in either image and [outPatch <<= inPatch] copies the
    pixels; [orMask] only matters to the [MaskedImage] overloads. *)
Definition copyRegion (inImage : Image) (region : BBox) (orMask : Z) : M unit :=
  throw_if (fun outImage => negb (fitsIn region outImage)) LengthErrorException ;;
  throw_if (fun _ => negb (fitsIn region inImage)) LengthErrorException ;;
  modify (for_range 0 (bboxHeight region) (fun j =>
    for_range 0 (bboxWidth region) (fun i outImage =>
      setPix outImage (getMinX region + i) (getMinY region + j)
        (pix inImage (getMinX region + i) (getMinY region + j))))).

(** Conversion to [unsigned int] and from it to [int] (32 bits). *)
Definition to_unsigned (z : Z) : Z := z mod 2 ^ 32.
Definition to_int (z : Z) : Z :=
  let u := z mod 2 ^ 32 in if u <? 2 ^ 31 then u else u - 2 ^ 32.

(** The four boxes [copyBorder] copies, in the order it copies them. *)
Definition bottomEdge (inImage : Image) (kernel : Kernel.t) : BBox :=
  let imWidth := to_unsigned (getWidth inImage) in
  let kCtrY := to_unsigned (Kernel.getCtrY kernel) in
  mkBBox 0 0 (to_int imWidth) (to_int kCtrY).

Definition topEdge (inImage : Image) (kernel : Kernel.t) : BBox :=
  let imWidth := to_unsigned (getWidth inImage) in
  let imHeight := to_unsigned (getHeight inImage) in
  let kHeight := to_unsigned (Kernel.getHeight kernel) in
  let kCtrY := to_unsigned (Kernel.getCtrY kernel) in
  let numHeight := to_int (to_unsigned (kHeight - to_unsigned (1 + kCtrY))) in
  mkBBox 0 (to_int (to_unsigned (imHeight - to_unsigned numHeight))) (to_int imWidth) numHeight.

Definition leftEdge (inImage : Image) (kernel : Kernel.t) : BBox :=
  let imHeight := to_unsigned (getHeight inImage) in
  let kHeight := to_unsigned (Kernel.getHeight kernel) in
  let kCtrX := to_unsigned (Kernel.getCtrX kernel) in
  let kCtrY := to_unsigned (Kernel.getCtrY kernel) in
  mkBBox 0 (to_int kCtrY) (to_int kCtrX)
    (to_int (to_unsigned (to_unsigned (imHeight + 1) - kHeight))).

Definition rightEdge (inImage : Image) (kernel : Kernel.t) : BBox :=
  let imWidth := to_unsigned (getWidth inImage) in
  let imHeight := to_unsigned (getHeight inImage) in
  let kWidth := to_unsigned (Kernel.getWidth kernel) in
  let kHeight := to_unsigned (Kernel.getHeight kernel) in
  let kCtrX := to_unsigned (Kernel.getCtrX kernel) in
  let kCtrY := to_unsigned (Kernel.getCtrY kernel) in
  let numWidth := to_int (to_unsigned (kWidth - to_unsigned (1 + kCtrX))) in
  mkBBox (to_int (to_unsigned (imWidth - to_unsigned numWidth))) (to_int kCtrY) numWidth
    (to_int (to_unsigned (to_unsigned (imHeight + 1) - kHeight))).

Definition copyBorder (inImage : Image) (kernel : Kernel.t) (edgeBit : Z) : M unit :=
  let edgeBitMask := if edgeBit <? 0 then 0 else Z.shiftl 1 edgeBit in
  copyRegion inImage (bottomEdge inImage kernel) edgeBitMask ;;
  copyRegion inImage (topEdge inImage kernel) edgeBitMask ;;
  copyRegion inImage (leftEdge inImage kernel) edgeBitMask ;;
  copyRegion inImage (rightEdge inImage kernel) edgeBitMask.

(** ** [convolve] and [convolveLinear] *)

Definition convolve {utils : ImageUtils} (inImage : Image) (kernel : Kernel.t) (doNormalize : bool)
    (edgeBit : Z) : M unit :=
  basicConvolve inImage kernel doNormalize ;;
  copyBorder inImage kernel edgeBit.

(** A basis kernel as a [Kernel]: the basis kernels of a linear combination
    have its dimensions and centre, and none varies spatially. *)
Definition basisKernelOf (kernel : Kernel.t) (b : BasisKernel) : Kernel.t :=
  Kernel.mk (Kernel.getWidth kernel) (Kernel.getHeight kernel)
    (Kernel.getCtrX kernel) (Kernel.getCtrY kernel) false
    (match b with
     | BasisFixed image => ShapeGeneral (fun _ _ => image)
     | BasisDelta px py => ShapeDeltaFunction (px, py)
     | BasisSeparable c r => ShapeSeparable (fun _ _ => c) (fun _ _ => r)
     end).

(** The loop of [convolveLinear] over the basis kernels.  [basisImage] is the
    working image of the call; an exception of the inner [basicConvolve]
    leaves through [convolveLinear] with the output image as it stands. *)
Fixpoint convolveLinear_bases {utils : ImageUtils} (inImage : Image) (kernel : Kernel.t)
    (terms : list (BasisKernel * SpatialFunction)) (basisImage : Image) : M unit :=
  match terms with
  | [] => ret tt
  | (basisKernel, spatialFunction) :: rest =>
      fun convolvedImage =>
        match basicConvolve inImage (basisKernelOf kernel basisKernel) false basisImage with
        | Throw e _ => Throw e convolvedImage
        | Ok _ basisImage' =>
            let cnvWidth := getWidth inImage + 1 - Kernel.getWidth kernel in
            let cnvHeight := getHeight inImage + 1 - Kernel.getHeight kernel in
            let cnvStartX := Kernel.getCtrX kernel in
            let cnvStartY := Kernel.getCtrY kernel in
            let cnvEndX := cnvStartX + cnvWidth in
            let cnvEndY := cnvStartY + cnvHeight in
            (modify (for_range cnvStartY cnvEndY (fun cnvY =>
               let rowPos := indexToPosition cnvY in
               for_range cnvStartX cnvEndX (fun cnvX im =>
                 let colPos := indexToPosition cnvX in
                 let basisCoeff := spatialFunction colPos rowPos in
                 updPix im cnvX cnvY (fun cnvPixel =>
                   (cnvPixel + pix basisImage' cnvX cnvY * basisCoeff)%Qc)))) ;;
             convolveLinear_bases inImage kernel rest basisImage') convolvedImage
        end
  end.

(** A [LinearCombinationKernel] seen through a reference to [Kernel]. *)
Definition linearCombinationKernel (kWidth kHeight kCtrX kCtrY : Z) (spatiallyVarying : bool)
    (terms : list (BasisKernel * SpatialFunction)) : Kernel.t :=
  Kernel.mk kWidth kHeight kCtrX kCtrY spatiallyVarying (ShapeLinearCombination terms).

(** [getKernelList()] paired with [getSpatialFunction(i)]. *)
Definition getKernelTerms (kernel : Kernel.t) : list (BasisKernel * SpatialFunction) :=
  match Kernel.shape kernel with
  | ShapeLinearCombination terms => terms
  | _ => []
  end.

(** [convolveLinear]; its kernel argument is a [LinearCombinationKernel]. *)
Definition convolveLinear {utils : ImageUtils} (inImage : Image) (kernel : Kernel.t) (edgeBit : Z) : M unit :=
  if negb (Kernel.isSpatiallyVarying kernel) then
    convolve inImage kernel false edgeBit
  else
    throw_if (fun convolvedImage => dims_ne (getDimensions convolvedImage) (getDimensions inImage))
      InvalidParameterException ;;
    throw_if (fun _ => dims_lt (getDimensions inImage) (Kernel.getDimensions kernel))
      InvalidParameterException ;;
    let imWidth := getWidth inImage in
    let imHeight := getHeight inImage in
    let cnvWidth := imWidth + 1 - Kernel.getWidth kernel in
    let cnvHeight := imHeight + 1 - Kernel.getHeight kernel in
    let cnvStartX := Kernel.getCtrX kernel in
    let cnvStartY := Kernel.getCtrY kernel in
    let cnvEndX := cnvStartX + cnvWidth in
    let cnvEndY := cnvStartY + cnvHeight in
    let basisImage := mkImage imWidth imHeight (0, 0) (fun _ _ => 0%Qc) in
    modify (for_range cnvStartY cnvEndY (fun cnvY =>
      for_range cnvStartX cnvEndX (fun cnvX im => setPix im cnvX cnvY 0%Qc))) ;;
    convolveLinear_bases inImage kernel (getKernelTerms kernel) basisImage ;;
    copyBorder inImage kernel edgeBit.

(** ** Convolution with an interpolated kernel *)

Record ConvolutionControl := mkConvolutionControl {
  getDoNormalize : bool;
  getMaxInterpolationDistance : Z
}.

Inductive Location := BOTTOM_LEFT | BOTTOM_RIGHT | TOP_LEFT | TOP_RIGHT.

(** The arguments of the [KernelImagesForRegion] constructor. *)
Record KernelImagesForRegion := mkKernelImagesForRegion {
  getKernel : Kernel.t;
  getBBox : BBox;
  regionXY0 : Z * Z;
  regionDoNormalize : bool
}.

(** Modelled from the spec: the pixel index of a corner of a region
    ([KernelImagesForRegion] is not under src).  The region is a rectangle of
    output coordinates; as [convolveRegionWithInterpolation] notes, the top
    and right images are computed one beyond the boundary of the box, so that
    opposite corners are width and height pixels apart. *)
Definition getPixelIndex (region : KernelImagesForRegion) (location : Location) : Z * Z :=
  let b := getBBox region in
  match location with
  | BOTTOM_LEFT => (getMinX b, getMinY b)
  | BOTTOM_RIGHT => (getMinX b + bboxWidth b, getMinY b)
  | TOP_LEFT => (getMinX b, getMinY b + bboxHeight b)
  | TOP_RIGHT => (getMinX b + bboxWidth b, getMinY b + bboxHeight b)
  end.

(** Modelled from the spec: [KernelImagesForRegion::getImage] (not under
    src): the kernel evaluated exactly at a corner of the region.  The
    interpolated path does not normalize, so the weights are the kernel's
    weights as they are, whatever flag the region was built with; the corner
    is located by its output index, as [basicConvolve] locates its pixels. *)
Definition getImage {utils : ImageUtils} (region : KernelImagesForRegion) (location : Location) : KernelImage :=
  let '(indX, indY) := getPixelIndex region location in
  fst (computeImage (getKernel region) false (indexToPosition indX) (indexToPosition indY)).

(** Modelled from the spec: [Kernel::shrinkBBox] (not under src) computes the
    valid, non-border box of an image box, and fails as the basic convolver
    does when the box is smaller than the kernel. *)
Definition shrinkBBox (kernel : Kernel.t) (bbox : BBox) : M BBox :=
  throw_if (fun _ => dims_lt (bboxWidth bbox, bboxHeight bbox) (Kernel.getDimensions kernel))
    InvalidParameterException ;;
  ret (mkBBox (getMinX bbox + Kernel.getCtrX kernel) (getMinY bbox + Kernel.getCtrY kernel)
         (bboxWidth bbox + 1 - Kernel.getWidth kernel)
         (bboxHeight bbox + 1 - Kernel.getHeight kernel)).

(** Modelled from the spec: [Kernel::growBBox] (not under src), the inverse of
    [shrinkBBox]: the box of input pixels under the kernel's footprint. *)
Definition growBBox (kernel : Kernel.t) (bbox : BBox) : BBox :=
  mkBBox (getMinX bbox - Kernel.getCtrX kernel) (getMinY bbox - Kernel.getCtrY kernel)
    (bboxWidth bbox + Kernel.getWidth kernel - 1)
    (bboxHeight bbox + Kernel.getHeight kernel - 1).

(** Modelled from the spec: where the grid cuts an extent of [length] pixels
    into [nDivisions] parts ([KernelImagesForRegion::computeNextRow] is not
    under src).  The spec fixes the number of parts and that they tile the
    extent without gaps or overlaps; the cuts are taken evenly. *)
Definition subregionBoundary (length nDivisions i : Z) : Z := (i * length) / nDivisions.

(** Modelled from the spec: the rows of sub-regions that successive calls of
    [computeNextRow] hand out, bottom row first, each row left to right. *)
Definition computeRows (goodRegion : KernelImagesForRegion) (nx ny : Z)
    : list (list KernelImagesForRegion) :=
  let b := getBBox goodRegion in
  map (fun iy =>
    map (fun ix =>
      let x0 := subregionBoundary (bboxWidth b) nx ix in
      let x1 := subregionBoundary (bboxWidth b) nx (ix + 1) in
      let y0 := subregionBoundary (bboxHeight b) ny iy in
      let y1 := subregionBoundary (bboxHeight b) ny (iy + 1) in
      mkKernelImagesForRegion (getKernel goodRegion)
        (mkBBox (getMinX b + x0) (getMinY b + y0) (x1 - x0) (y1 - y0))
        (regionXY0 goodRegion) (regionDoNormalize goodRegion))
      (indices nx))
    (indices ny).

Record ConvolveWithInterpolationWorkingImages := mkWorkingImages {
  leftImage : KernelImage;
  rightImage : KernelImage;
  leftDeltaImage : KernelImage;
  rightDeltaImage : KernelImage;
  deltaImage : KernelImage;
  kernelImage : KernelImage
}.

(** [scaledPlus(out, c1, im1, c2, im2)]: out = c1 im1 + c2 im2. *)
Definition scaledPlus (c1 : Qc) (im1 : KernelImage) (c2 : Qc) (im2 : KernelImage) : KernelImage :=
  fun i j => (c1 * im1 i j + c2 * im2 i j)%Qc.

(** [lhs += rhs] on kernel images. *)
Definition plusAssign (lhs rhs : KernelImage) : KernelImage :=
  fun i j => (lhs i j + rhs i j)%Qc.

(** The inner [for (int i = 0; ; )] of [convolveRegionWithInterpolation];
    the loop leaves through its [break], [fuel] bounds the iterations. *)
Fixpoint interpolateRow (fuel : nat) (inImage : Image) (kWidth kHeight width : Z)
    (deltaImage : KernelImage) (inX inY outX outY i : Z)
    (st : Image * KernelImage) : Image * KernelImage :=
  match fuel with
  | O => st
  | S fuel' =>
      let '(outImage, kernelImage) := st in
      let outImage' :=
        setPix outImage outX outY (convolveAtAPoint inImage inX inY kernelImage kWidth kHeight) in
      let i' := i + 1 in
      if i' >=? width then (outImage', kernelImage)
      else interpolateRow fuel' inImage kWidth kHeight width deltaImage
             (inX + 1) inY (outX + 1) outY i' (outImage', plusAssign kernelImage deltaImage)
  end.

(** The outer [for (int j = 0; ; )]. *)
Fixpoint interpolateRows (fuel : nat) (inImage : Image) (kWidth kHeight width height : Z)
    (xfrac : Qc) (inX inY outX outY j : Z)
    (st : Image * ConvolveWithInterpolationWorkingImages)
    : Image * ConvolveWithInterpolationWorkingImages :=
  match fuel with
  | O => st
  | S fuel' =>
      let '(outImage, w) := st in
      let deltaImage := scaledPlus xfrac (rightImage w) (- xfrac)%Qc (leftImage w) in
      let '(outImage', kernelImage') :=
        interpolateRow (Z.to_nat (Z.max 1 width)) inImage kWidth kHeight width deltaImage
          inX inY outX outY 0 (outImage, kernelImage w) in
      let j' := j + 1 in
      if j' >=? height
      then (outImage', mkWorkingImages (leftImage w) (rightImage w) (leftDeltaImage w)
                         (rightDeltaImage w) deltaImage kernelImage')
      else
        let leftImage' := plusAssign (leftImage w) (leftDeltaImage w) in
        let rightImage' := plusAssign (rightImage w) (rightDeltaImage w) in
        interpolateRows fuel' inImage kWidth kHeight width height xfrac
          inX (inY + 1) outX (outY + 1) j'
          (outImage', mkWorkingImages leftImage' rightImage' (leftDeltaImage w)
                        (rightDeltaImage w) deltaImage leftImage')
  end.

Definition convolveRegionWithInterpolation {utils : ImageUtils} (inImage : Image)
    (region : KernelImagesForRegion)
    (st : Image * ConvolveWithInterpolationWorkingImages)
    : Image * ConvolveWithInterpolationWorkingImages :=
  let '(outImage, workingImages) := st in
  let kernelPtr := getKernel region in
  let kernelDimensions := Kernel.getDimensions kernelPtr in
  let leftImage0 := getImage region BOTTOM_LEFT in
  let rightImage0 := getImage region BOTTOM_RIGHT in
  let goodBBox := getBBox region in
  let fullBBox := growBBox kernelPtr goodBBox in
  let xfrac := (1 / ofZ (bboxWidth goodBBox))%Qc in
  let yfrac := (1 / ofZ (bboxHeight goodBBox))%Qc in
  let leftDelta := scaledPlus yfrac (getImage region TOP_LEFT) (- yfrac)%Qc leftImage0 in
  let rightDelta := scaledPlus yfrac (getImage region TOP_RIGHT) (- yfrac)%Qc rightImage0 in
  interpolateRows (Z.to_nat (Z.max 1 (bboxHeight goodBBox))) inImage
    (fst kernelDimensions) (snd kernelDimensions) (bboxWidth goodBBox) (bboxHeight goodBBox) xfrac
    (getMinX fullBBox) (getMinY fullBBox) (getMinX goodBBox) (getMinY goodBBox) 0
    (outImage, mkWorkingImages leftImage0 rightImage0 leftDelta rightDelta
                 (deltaImage workingImages) leftImage0).

Definition zeroKernelImage : KernelImage := fun _ _ => 0%Qc.

(** [1 + (length / maxInterpolationDistance)] in C++ [int] arithmetic, whose
    division truncates. *)
Definition numSubregions (length maxInterpolationDistance : Z) : Z :=
  1 + Z.quot length maxInterpolationDistance.

Definition convolveWithInterpolation {utils : ImageUtils} (inImage : Image) (kernel : Kernel.t)
    (convolutionControl : ConvolutionControl) : M unit :=
  throw_if (fun outImage => dims_ne (getDimensions outImage) (getDimensions inImage))
    InvalidParameterException ;;
  fullBBox <- (fun outImage => Ok (mkBBox 0 0 (getWidth outImage) (getHeight outImage)) outImage) ;;
  goodBBox <- shrinkBBox kernel fullBBox ;;
  let goodRegion :=
    mkKernelImagesForRegion kernel goodBBox (getXY0 inImage) (getDoNormalize convolutionControl) in
  let nx := numSubregions (bboxWidth goodBBox) (getMaxInterpolationDistance convolutionControl) in
  let ny := numSubregions (bboxHeight goodBBox) (getMaxInterpolationDistance convolutionControl) in
  let workingImages :=
    mkWorkingImages zeroKernelImage zeroKernelImage zeroKernelImage zeroKernelImage
      zeroKernelImage zeroKernelImage in
  modify (fun outImage =>
    fst (fold_left (fun st regionRow =>
           fold_left (fun st rgn => convolveRegionWithInterpolation inImage rgn st) regionRow st)
         (computeRows goodRegion nx ny) (outImage, workingImages))).

(** ** Warping *)

Module MaskPlaneNames.
Import String.
Definition EDGE : string := "EDGE"%string.
End MaskPlaneNames.

(** A pixel of a [MaskedImage]. *)
Record MaskedPixel := mkMaskedPixel {
  image : Qc;
  mask : Z;
  variance : Qc
}.

Record MaskedImage := mkMaskedImage {
  miWidth : Z;
  miHeight : Z;
  mpix : Z -> Z -> MaskedPixel
}.

Definition updMPix (im : MaskedImage) (x y : Z) (f : MaskedPixel -> MaskedPixel) : MaskedImage :=
  mkMaskedImage (miWidth im) (miHeight im)
    (fun x' y' => if (x' =? x) && (y' =? y) then f (mpix im x' y') else mpix im x' y').

Definition PointD := (Qc * Qc)%type.

(** The coordinate transform an exposure carries: an external collaborator,
    consumed through its three mappings. *)
Record Wcs := mkWcs {
  xyToRaDec : PointD -> PointD;
  raDecToXY : PointD -> PointD;
  pixArea : PointD -> Qc
}.

Record Exposure := mkExposure {
  getMaskedImage : MaskedImage;
  getWcs : Wcs
}.

(** Operations of [Mask] and the point convolution of masked pixels, declared
    in headers that are not under src.  [conformMaskPlanes] renumbers the
    mask bits of the destination and is given per mask value. *)
Class MaskedImageOps := {
  getPlaneBitMask : MaskedImage -> String.string -> Z;
  conformMaskPlanes : MaskedImage -> MaskedImage -> Z -> Z;
  convolveAtAPointMasked : MaskedImage -> Z -> Z -> list Qc -> list Qc -> MaskedPixel
}.

(** Modelled from the spec: [positionToIndex(residual, pos)] of ImageUtils.h
    (not under src) splits a position into an integer part and a fractional
    part in [0, 1). *)
Definition positionToIndex {utils : ImageUtils} (pos : Qc) : Z * Qc :=
  let fInd := (pos - PixelZeroPos)%Qc in
  let ind := Qfloor (this fInd) in
  (ind, (fInd - ofZ ind)%Qc).

(** Modelled from the spec: the edge pixel [SinglePixel(0, 0, edgePixelMask)]
    (the pixel class is not under src) has zero image, zero variance and the
    edge bit as its mask. *)
Definition edgePixelOf (edgePixelMask : Z) : MaskedPixel :=
  mkMaskedPixel 0%Qc edgePixelMask 0%Qc.

(** Position on the source of the destination pixel [(destIndX, destIndY)]. *)
Definition srcPosOf {utils : ImageUtils} (destWcs srcWcs : Wcs) (destIndX destIndY : Z) : PointD :=
  let destPosXY := (indexToPosition destIndX, indexToPosition destIndY) in
  let raDec := xyToRaDec destWcs destPosXY in
  raDecToXY srcWcs raDec.

(** The test of [warpExposure] for a source index too near the edge of the
    source, or off it.  The source computes the index and the four sums as
    C++ [int]s; here they are integers, which is the same as long as they
    are values of [int] ([indexInIntRange] below). *)
Definition offSource (warpingKernel : Kernel.t) (srcWidth srcHeight srcIndX srcIndY : Z) : bool :=
  let xBorder0 := Kernel.getCtrX warpingKernel in
  let yBorder0 := Kernel.getCtrY warpingKernel in
  let xBorder1 := Kernel.getWidth warpingKernel - (1 + xBorder0) in
  let yBorder1 := Kernel.getHeight warpingKernel - (1 + yBorder0) in
  (srcIndX - xBorder0 <? 0) || (srcIndX + xBorder1 >=? srcWidth) ||
  (srcIndY - yBorder0 <? 0) || (srcIndY + yBorder1 >=? srcHeight).

(** [warpExposure] for a separable warping kernel with the given column and
    row functions; returns the remapped masked image and the number of good
    pixels. *)
Definition warpExposure {utils : ImageUtils} {maskOps : MaskedImageOps} (destExposure srcExposure : Exposure)
    (warpingKernel : Kernel.t) (kernelColFunction kernelRowFunction : Qc -> Qc -> Z -> Qc)
    : MaskedImage * Z :=
  let srcMI := getMaskedImage srcExposure in
  let srcWidth := miWidth srcMI in
  let srcHeight := miHeight srcMI in
  let srcWcsPtr := getWcs srcExposure in
  let destMI0 := getMaskedImage destExposure in
  let destWcsPtr := getWcs destExposure in
  let destMI :=
    mkMaskedImage (miWidth destMI0) (miHeight destMI0)
      (fun x y => let p := mpix destMI0 x y in
                  mkMaskedPixel (image p) (conformMaskPlanes destMI0 srcMI (mask p)) (variance p)) in
  let edgePixelMask := getPlaneBitMask srcMI MaskPlaneNames.EDGE in
  let destWidth := miWidth destMI in
  let destHeight := miHeight destMI in
  let edgePixel := edgePixelOf edgePixelMask in
  for_range 0 destHeight (fun destIndY =>
    for_range 0 destWidth (fun destIndX '(destMI, numGoodPixels) =>
      let destPosXY := (indexToPosition destIndX, indexToPosition destIndY) in
      let raDec := xyToRaDec destWcsPtr destPosXY in
      let srcPosXY := raDecToXY srcWcsPtr raDec in
      let '(srcIndX, srcFracInd0) := positionToIndex (fst srcPosXY) in
      let '(srcIndY, srcFracInd1) := positionToIndex (snd srcPosXY) in
      if offSource warpingKernel srcWidth srcHeight srcIndX srcIndY then
        (updMPix destMI destIndX destIndY (fun _ => edgePixel), numGoodPixels)
      else
        let numGoodPixels := numGoodPixels + 1 in
        let '(kernelXList, kernelYList, kSum) :=
          computeVectors warpingKernel kernelColFunction kernelRowFunction false 0%Qc 0%Qc in
        let destMI1 :=
          updMPix destMI destIndX destIndY (fun _ =>
            convolveAtAPointMasked srcMI srcIndX srcIndY kernelXList kernelYList) in
        let multFac := (pixArea destWcsPtr destPosXY / (pixArea srcWcsPtr srcPosXY * kSum))%Qc in
        let destMI2 :=
          updMPix destMI1 destIndX destIndY (fun p =>
            mkMaskedPixel (image p * multFac)%Qc (mask p) (variance p)) in
        let destMI3 :=
          updMPix destMI2 destIndX destIndY (fun p =>
            mkMaskedPixel (image p) (mask p) (variance p * (multFac * multFac))%Qc) in
        (destMI3, numGoodPixels)))
    (destMI, 0).

(** ** Vocabulary of the statements *)

Definition sameFrame (a b : Image) : Prop :=
  getWidth a = getWidth b /\ getHeight a = getHeight b /\ getXY0 a = getXY0 b.

(** The preconditions [basicConvolve] checks: output and input of equal
    dimensions, kernel no larger than the input. *)
Definition convolvable (convolvedImage inImage : Image) (kernel : Kernel.t) : Prop :=
  getWidth convolvedImage = getWidth inImage /\
  getHeight convolvedImage = getHeight inImage /\
  Kernel.getWidth kernel <= getWidth inImage /\
  Kernel.getHeight kernel <= getHeight inImage.

(** The region [ctrX, width-1-(kW-1-ctrX)] x [ctrY, height-1-(kH-1-ctrY)]. *)
Definition inValidRegion (inImage : Image) (kernel : Kernel.t) (x y : Z) : bool :=
  (Kernel.getCtrX kernel <=? x) &&
  (x <=? getWidth inImage - 1 - (Kernel.getWidth kernel - 1 - Kernel.getCtrX kernel)) &&
  (Kernel.getCtrY kernel <=? y) &&
  (y <=? getHeight inImage - 1 - (Kernel.getHeight kernel - 1 - Kernel.getCtrY kernel)).

(** The anchor of a kernel lies within the kernel. *)
Definition anchored (kernel : Kernel.t) : Prop :=
  0 <= Kernel.getCtrX kernel < Kernel.getWidth kernel /\
  0 <= Kernel.getCtrY kernel < Kernel.getHeight kernel.

(** Image dimensions are values of C++ [int]. *)
Definition intDimensions (im : Image) : Prop :=
  0 <= getWidth im < 2 ^ 31 /\ 0 <= getHeight im < 2 ^ 31.

(** The pixels [copyBorder] copies: the union of its four boxes. *)
Definition inBorderStrips (inImage : Image) (kernel : Kernel.t) (x y : Z) : bool :=
  inBBox (bottomEdge inImage kernel) x y || inBBox (topEdge inImage kernel) x y ||
  inBBox (leftEdge inImage kernel) x y || inBBox (rightEdge inImage kernel) x y.

(** How many of the four boxes hold the pixel. *)
Definition stripCount (inImage : Image) (kernel : Kernel.t) (x y : Z) : nat :=
  length (filter (fun b => inBBox b x y)
            [bottomEdge inImage kernel; topEdge inImage kernel;
             leftEdge inImage kernel; rightEdge inImage kernel]).

Definition inImageBounds (im : Image) (x y : Z) : bool :=
  (0 <=? x) && (x <? getWidth im) && (0 <=? y) && (y <? getHeight im).

(** The same weights behind a kernel that takes the general path. *)
Definition asDenseKernel (kernel : Kernel.t) : Kernel.t :=
  Kernel.mk (Kernel.getWidth kernel) (Kernel.getHeight kernel)
    (Kernel.getCtrX kernel) (Kernel.getCtrY kernel) (Kernel.isSpatiallyVarying kernel)
    (ShapeGeneral (rawImage kernel)).

(** Index on the source of the destination pixel [(destIndX, destIndY)]. *)
Definition srcIndexOf {utils : ImageUtils} (destWcs srcWcs : Wcs) (destIndX destIndY : Z) : Z * Z :=
  let srcPosXY := srcPosOf destWcs srcWcs destIndX destIndY in
  (fst (positionToIndex (fst srcPosXY)), fst (positionToIndex (snd srcPosXY))).

(** Fractional part of that position. *)
Definition srcFracOf {utils : ImageUtils} (destWcs srcWcs : Wcs) (destIndX destIndY : Z) : Qc * Qc :=
  let srcPosXY := srcPosOf destWcs srcWcs destIndX destIndY in
  (snd (positionToIndex (fst srcPosXY)), snd (positionToIndex (snd srcPosXY))).

(** The destination pixel maps too near the edge of the source, or off it. *)
Definition isOffSource {utils : ImageUtils} (destExposure srcExposure : Exposure) (warpingKernel : Kernel.t)
    (destIndX destIndY : Z) : bool :=
  let ind := srcIndexOf (getWcs destExposure) (getWcs srcExposure) destIndX destIndY in
  offSource warpingKernel (miWidth (getMaskedImage srcExposure))
    (miHeight (getMaskedImage srcExposure)) (fst ind) (snd ind).

(** The values of a C++ [int]. *)
Definition isInt (z : Z) : bool := (- 2 ^ 31 <=? z) && (z <? 2 ^ 31).

(** The index arithmetic of [warpExposure] at a destination pixel stays
    within [int]: the integer part of the source position is a value of
    [int], and so are the borders of the kernel and the four sums of the
    margin test.  Beyond that range the conversion to [int] and the sums are
    undefined in the source. *)
Definition indexInIntRange {utils : ImageUtils} (destExposure srcExposure : Exposure)
    (warpingKernel : Kernel.t) (destIndX destIndY : Z) : bool :=
  let ind := srcIndexOf (getWcs destExposure) (getWcs srcExposure) destIndX destIndY in
  let xBorder0 := Kernel.getCtrX warpingKernel in
  let yBorder0 := Kernel.getCtrY warpingKernel in
  let xBorder1 := Kernel.getWidth warpingKernel - (1 + xBorder0) in
  let yBorder1 := Kernel.getHeight warpingKernel - (1 + yBorder0) in
  isInt (fst ind) && isInt (snd ind) &&
  isInt xBorder0 && isInt yBorder0 && isInt (1 + xBorder0) && isInt (1 + yBorder0) &&
  isInt xBorder1 && isInt yBorder1 &&
  isInt (fst ind - xBorder0) && isInt (fst ind + xBorder1) &&
  isInt (snd ind - yBorder0) && isInt (snd ind + yBorder1).

(** The destination pixels, row by row. *)
Definition destPixels (destExposure : Exposure) : list (Z * Z) :=
  flat_map (fun y => map (fun x => (x, y)) (indices (miWidth (getMaskedImage destExposure))))
    (indices (miHeight (getMaskedImage destExposure))).

(** The factor [multFac] for a kernel weight sum [kSum]. *)
Definition fluxFactor {utils : ImageUtils} (destExposure srcExposure : Exposure) (kSum : Qc)
    (destIndX destIndY : Z) : Qc :=
  let destPosXY := (indexToPosition destIndX, indexToPosition destIndY) in
  let srcPosXY := srcPosOf (getWcs destExposure) (getWcs srcExposure) destIndX destIndY in
  (pixArea (getWcs destExposure) destPosXY / (pixArea (getWcs srcExposure) srcPosXY * kSum))%Qc.

(** The convolved pixel [warpExposure] computes at a destination pixel that
    is not off the source. *)
Definition convolvedPixel {utils : ImageUtils} {maskOps : MaskedImageOps} (destExposure srcExposure : Exposure)
    (warpingKernel : Kernel.t) (kernelColFunction kernelRowFunction : Qc -> Qc -> Z -> Qc)
    (destIndX destIndY : Z) : MaskedPixel :=
  let ind := srcIndexOf (getWcs destExposure) (getWcs srcExposure) destIndX destIndY in
  let '(kernelXList, kernelYList, _) :=
    computeVectors warpingKernel kernelColFunction kernelRowFunction false 0%Qc 0%Qc in
  convolveAtAPointMasked (getMaskedImage srcExposure) (fst ind) (snd ind) kernelXList kernelYList.

(** The sum of the weights of the kernel as it is handed to [warpExposure]. *)
Definition kernelSumAsPassed (warpingKernel : Kernel.t)
    (kernelColFunction kernelRowFunction : Qc -> Qc -> Z -> Qc) : Qc :=
  snd (computeVectors warpingKernel kernelColFunction kernelRowFunction false 0%Qc 0%Qc).

(** The weights a kernel has for the output pixel [(x, y)]: those at the
    pixel's position if the kernel varies, those [computeImage] gives for its
    default position otherwise. *)
Definition kernelImageAt {utils : ImageUtils} (kernel : Kernel.t) (x y : Z) : KernelImage :=
  if Kernel.isSpatiallyVarying kernel
  then rawImage kernel (indexToPosition x) (indexToPosition y)
  else rawImage kernel 0%Qc 0%Qc.

(** Invariants of the kernel classes: the anchor lies within the kernel; a
    delta function kernel does not vary and its pixel lies within it. *)
Definition wellFormedKernel (kernel : Kernel.t) : Prop :=
  anchored kernel /\
  match Kernel.shape kernel with
  | ShapeDeltaFunction pixel =>
      Kernel.isSpatiallyVarying kernel = false /\
      0 <= fst pixel < Kernel.getWidth kernel /\ 0 <= snd pixel < Kernel.getHeight kernel
  | _ => True
  end.

(** The exact value of the output pixel [(x, y)]: the point convolution with
    the kernel's own weights for that pixel, not normalized. *)
Definition exactPixel {utils : ImageUtils} (inImage : Image) (kernel : Kernel.t) (x y : Z) : Pixel :=
  convolveAtAPoint inImage (x - Kernel.getCtrX kernel) (y - Kernel.getCtrY kernel)
    (kernelImageAt kernel x y) (Kernel.getWidth kernel) (Kernel.getHeight kernel).

(** Invariants of a [LinearCombinationKernel]: its own and those of its basis
    kernels. *)
Definition wellFormedLinearCombination (kernel : Kernel.t) : Prop :=
  anchored kernel /\
  Forall (fun t => wellFormedKernel (basisKernelOf kernel (fst t))) (getKernelTerms kernel).

(** The sum over the basis kernels of coefficient(pixel position) times the
    input convolved with the basis kernel, at the output pixel [(x, y)]. *)
Definition basisSum {utils : ImageUtils} (inImage : Image) (kernel : Kernel.t) (x y : Z) : Pixel :=
  fold_left (fun acc t =>
      (acc + exactPixel inImage (basisKernelOf kernel (fst t)) x y
             * snd t (indexToPosition x) (indexToPosition y))%Qc)
    (getKernelTerms kernel) 0%Qc.

(** Bilinear interpolation of four corner kernel images at the fractions
    [u] (left to right) and [v] (bottom to top). *)
Definition bilinear (bottomLeft bottomRight topLeft topRight : KernelImage) (u v : Qc) : KernelImage :=
  fun a b =>
    ((1 - u) * (1 - v) * bottomLeft a b + u * (1 - v) * bottomRight a b
     + (1 - u) * v * topLeft a b + u * v * topRight a b)%Qc.

(** The valid area of an image as one region of the interpolation grid. *)
Definition wholeValidRegion (inImage : Image) (kernel : Kernel.t) (doNormalize : bool)
    : KernelImagesForRegion :=
  mkKernelImagesForRegion kernel
    (mkBBox (Kernel.getCtrX kernel) (Kernel.getCtrY kernel)
       (getWidth inImage + 1 - Kernel.getWidth kernel)
       (getHeight inImage + 1 - Kernel.getHeight kernel))
    (getXY0 inImage) doNormalize.

(** The kernel image bilinearly interpolated for the output pixel [(x, y)]
    of a region from the kernel images at the region's corners. *)
Definition interpolatedKernelImage {utils : ImageUtils} (region : KernelImagesForRegion) (x y : Z)
    : KernelImage :=
  bilinear (getImage region BOTTOM_LEFT) (getImage region BOTTOM_RIGHT)
    (getImage region TOP_LEFT) (getImage region TOP_RIGHT)
    (ofZ (x - getMinX (getBBox region)) / ofZ (bboxWidth (getBBox region)))%Qc
    (ofZ (y - getMinY (getBBox region)) / ofZ (bboxHeight (getBBox region)))%Qc.

(** The weight image of the kernel varies linearly with position. *)
Definition variesLinearly (kernel : Kernel.t) : Prop :=
  exists A B C : KernelImage,
    forall x y i j, rawImage kernel x y i j = (A i j + B i j * x + C i j * y)%Qc.

(** [F] keeps the frame of an image of width [W] and changes the pixel at
    [(x, y)] from [v] to [T x y v]. *)
Definition Pointwise (W : Z) (F : Image -> Image) (T : Z -> Z -> Pixel -> Pixel) : Prop :=
  forall im, getWidth im = W ->
    getWidth (F im) = W /\ getHeight (F im) = getHeight im /\ getXY0 (F im) = getXY0 im /\
    forall x y, pix (F im) x y = T x y (pix im x y).

(** The same for masked images. *)
Definition MPointwise (F : MaskedImage -> MaskedImage)
    (T : Z -> Z -> MaskedPixel -> MaskedPixel) : Prop :=
  forall im,
    miWidth (F im) = miWidth im /\ miHeight (F im) = miHeight im /\
    forall x y, mpix (F im) x y = T x y (mpix im x y).

(** The border pixels the general path zeroes for a kernel that does not
    vary: in every convolved row, those to the right of the valid region. *)
Definition zeroedByGeneralPath (inImage : Image) (kernel : Kernel.t) (x y : Z) : bool :=
  match Kernel.shape kernel with
  | ShapeDeltaFunction _ | ShapeSeparable _ _ => false
  | _ =>
      negb (Kernel.isSpatiallyVarying kernel) &&
      (Kernel.getCtrY kernel <=? y) &&
      (y <=? getHeight inImage - 1 - (Kernel.getHeight kernel - 1 - Kernel.getCtrY kernel)) &&
      (getWidth inImage - 1 - (Kernel.getWidth kernel - 1 - Kernel.getCtrX kernel) <? x) &&
      (x <? getWidth inImage)
  end.

(** ** Concrete inputs *)

Definition originAtZero : ImageUtils := {| PixelZeroPos := 0%Qc |}.

(** A row of three pixels 1, 2, 3 and an output row that holds 7 everywhere. *)
Definition rampRow : Image := mkImage 3 1 (0, 0) (fun x _ => ofZ (x + 1)).
Definition sevensRow : Image := mkImage 3 1 (0, 0) (fun _ _ => ofZ 7).

(** Kernels of width 2 and height 1 anchored at (0, 0), with weights 1, 1:
    a fixed kernel and a separable one. *)
Definition boxKernel : Kernel.t :=
  Kernel.mk 2 1 0 0 false (ShapeGeneral (fun _ _ _ _ => 1%Qc)).
Definition separableBoxKernel : Kernel.t :=
  Kernel.mk 2 1 0 0 false (ShapeSeparable (fun _ _ _ => 1%Qc) (fun _ _ _ => 1%Qc)).

(** A kernel row with the weights 0, 1. *)
Definition zeroThenOne : KernelImage := fun i _ => if i =? 0 then 0%Qc else 1%Qc.

(** A 5 x 5 image and a 3 x 3 kernel anchored at its centre. *)
Definition fiveByFive : Image := mkImage 5 5 (0, 0) (fun x y => ofZ (x + 10 * y)).
Definition threeByThree : Kernel.t :=
  Kernel.mk 3 3 1 1 false (ShapeGeneral (fun _ _ _ _ => 1%Qc)).

(** An output image one column short of the input [rampRow]. *)
Definition shortRow : Image := mkImage 2 1 (0, 0) (fun _ _ => ofZ 7).

(** A valid area of 10 x 7 pixels of a kernel that does not matter here. *)
Definition tenBySeven : KernelImagesForRegion :=
  mkKernelImagesForRegion boxKernel (mkBBox 0 0 10 7) (0, 0) false.

(** Mask operations for the examples: the EDGE plane is bit 4, the planes of
    source and destination agree, and masked pixels are convolved plane by
    plane, the variance with the squared weights. *)
Definition exampleMaskOps : MaskedImageOps := {|
  getPlaneBitMask := fun _ _ => 16;
  conformMaskPlanes := fun _ _ m => m;
  convolveAtAPointMasked := fun srcMI x0 y0 kernelXList kernelYList =>
    mkMaskedPixel
      (weighted_sum kernelYList 0 (fun j =>
         weighted_sum kernelXList 0 (fun i => image (mpix srcMI (x0 + i) (y0 + j)))))
      0
      (weighted_sum (map (fun w => (w * w)%Qc) kernelYList) 0 (fun j =>
         weighted_sum (map (fun w => (w * w)%Qc) kernelXList) 0 (fun i =>
           variance (mpix srcMI (x0 + i) (y0 + j)))))
|}.

(** A 4 x 4 source whose image plane holds x + 1, and a 4 x 4 destination. *)
Definition rampExposure (wcs : Wcs) : Exposure :=
  mkExposure (mkMaskedImage 4 4 (fun x _ => mkMaskedPixel (ofZ (x + 1)) 0 1%Qc)) wcs.
Definition blankExposure (wcs : Wcs) : Exposure :=
  mkExposure (mkMaskedImage 4 4 (fun _ _ => mkMaskedPixel 0%Qc 0 0%Qc)) wcs.

(** Pixel positions are sky positions; the source grid is shifted by half a
    pixel in x.  Pixels have unit area. *)
Definition identityWcs : Wcs := mkWcs (fun p => p) (fun p => p) (fun _ => 1%Qc).
Definition halfPixelShiftWcs : Wcs :=
  mkWcs (fun p => p) (fun p => ((fst p + 1 / ofZ 2)%Qc, snd p)) (fun _ => 1%Qc).

(** A separable 2 x 2 warping kernel anchored at (1, 1).  Its two parameters
    are the fractional x and y position; the weights along an axis are
    1 - frac and frac / 2, whose sum 1 - frac / 2 depends on the parameter. *)
Definition taperedWeights (frac : Qc) (i : Z) : Qc :=
  if i =? 0 then (1 - frac)%Qc else (frac / ofZ 2)%Qc.
Definition taperedKernel (fracX fracY : Qc) : Kernel.t :=
  Kernel.mk 2 2 1 1 false
    (ShapeSeparable (fun _ _ => taperedWeights fracX) (fun _ _ => taperedWeights fracY)).

(** A spatially varying linear combination of three 2 x 1 basis kernels (a
    fixed, a delta function and a separable one) with quadratic coefficient
    functions. *)
Definition threeBases : Kernel.t :=
  linearCombinationKernel 2 1 0 0 true
    [(BasisFixed (fun _ _ => 1%Qc), fun x y => (x * x + 1)%Qc);
     (BasisDelta 1 0, fun x y => (x * y + ofZ 2)%Qc);
     (BasisSeparable (fun i => ofZ (i + 1)) (fun _ => ofZ 3), fun x y => (y * y - x)%Qc)].

(** A 2 x 1 kernel anchored at (0, 0) whose weights are x + 1 and 2 y + x at
    position (x, y), and a control that asks for one region. *)
Definition linearKernel : Kernel.t :=
  Kernel.mk 2 1 0 0 true
    (ShapeGeneral (fun x y i _ => if i =? 0 then (x + 1)%Qc else (ofZ 2 * y + x)%Qc)).
Definition oneRegionControl : ConvolutionControl := mkConvolutionControl false 100.

(** ** The border of a masked image *)

(** [MaskPixel] of LsstImageTypes.h is [boost::uint16_t]; the conversion of
    an [int] to it. *)
Definition to_MaskPixel (z : Z) : Z := z mod 2 ^ 16.

(** The image plane of a masked image, which gives a masked image its
    dimensions. *)
Definition imagePlane (mi : MaskedImage) : Image :=
  mkImage (miWidth mi) (miHeight mi) (0, 0) (fun x y => image (mpix mi x y)).

Inductive MaskedResult :=
| MaskedOk (out : MaskedImage)
| MaskedThrow (e : Exception) (out : MaskedImage).

(** [copyRegion] for two masked images of the same type, the overload on
    [MaskedImage_tag]: the patches are views of [region], which must fit as
    for plain images; [outPatch <<= inPatch] copies the three planes and
    [*outPatch.getMask() |= orMask] sets the bits of [orMask], an [int], in
    the mask pixels of the patch. *)
Definition copyRegionMasked (inImage : MaskedImage) (region : BBox) (orMask : Z)
    (outImage : MaskedImage) : MaskedResult :=
  if negb (fitsIn region (imagePlane outImage)) then MaskedThrow LengthErrorException outImage
  else if negb (fitsIn region (imagePlane inImage)) then MaskedThrow LengthErrorException outImage
  else
    let copied :=
      for_range 0 (bboxHeight region) (fun j =>
        for_range 0 (bboxWidth region) (fun i out =>
          updMPix out (getMinX region + i) (getMinY region + j)
            (fun _ => mpix inImage (getMinX region + i) (getMinY region + j)))) outImage in
    MaskedOk
      (for_range 0 (bboxHeight region) (fun j =>
         for_range 0 (bboxWidth region) (fun i out =>
           updMPix out (getMinX region + i) (getMinY region + j)
             (fun p => mkMaskedPixel (image p) (to_MaskPixel (Z.lor (mask p) orMask)) (variance p))))
         copied).

(** [copyBorder] for masked images. *)
Definition copyBorderMasked (inImage : MaskedImage) (kernel : Kernel.t) (edgeBit : Z)
    (convolvedImage : MaskedImage) : MaskedResult :=
  let edgeBitMask := if edgeBit <? 0 then 0 else Z.shiftl 1 edgeBit in
  match copyRegionMasked inImage (bottomEdge (imagePlane inImage) kernel) edgeBitMask
          convolvedImage with
  | MaskedThrow e out => MaskedThrow e out
  | MaskedOk out1 =>
      match copyRegionMasked inImage (topEdge (imagePlane inImage) kernel) edgeBitMask out1 with
      | MaskedThrow e out => MaskedThrow e out
      | MaskedOk out2 =>
          match copyRegionMasked inImage (leftEdge (imagePlane inImage) kernel) edgeBitMask out2 with
          | MaskedThrow e out => MaskedThrow e out
          | MaskedOk out3 =>
              copyRegionMasked inImage (rightEdge (imagePlane inImage) kernel) edgeBitMask out3
          end
      end
  end.

(** A masked image as its type has it: every mask pixel is a [MaskPixel]. *)
Definition maskPixelsInRange (mi : MaskedImage) : Prop :=
  forall x y, 0 <= mask (mpix mi x y) < 2 ^ 16.

(** The border pixel [copyBorder] leaves for an input pixel. *)
Definition borderPixelOf (edgeBit : Z) (p : MaskedPixel) : MaskedPixel :=
  mkMaskedPixel (image p) (if edgeBit <? 0 then mask p else Z.setbit (mask p) edgeBit) (variance p).

(** A 5 x 5 masked image whose mask pixels hold 1. *)
Definition fiveByFiveMasked : MaskedImage :=
  mkMaskedImage 5 5 (fun x y => mkMaskedPixel (ofZ (x + 10 * y)) 1 1%Qc).

(** ** The weights of the bilinear warping kernel *)

(** [BilinearWarpingKernel::BilinearFunction1::operator()] of warpExposure.cc;
    [param0] is [_params[0]]. *)
Definition BilinearFunction1 (param0 : Qc) (x : Qc) : Qc + Exception :=
  if Qc_eqb x 0%Qc then inl (1 - param0)%Qc
  else if Qc_eqb x 1%Qc then inl param0
  else inr InvalidParameterException.

(** ** Images as views of pixel buffers *)

(** [ImageBase<PixelT>] and [Image<PixelT>] of Image.cc.  An image is a view
    of a buffer of pixels that it may share with other images: a sub-image
    and the image it was cut from address the same pixels, a deep copy gets a
    buffer of its own.  [Heap] holds the buffers; the handle [_manager] that
    keeps a buffer alive has no part in what the pixels are. *)
Module ImageBase.

Inductive ImageOrigin := PARENT | LOCAL.

(** [Box2I] is declared in headers that are not under src.  Of a box the
    code asks [getMin()], [getDimensions()] and [isEmpty()]; [emptyBox] is
    the box [Box2I()] that a call of [assign] with a single argument passes,
    and it is empty. *)
Class Box2IOps := {
  isEmpty : BBox -> bool;
  emptyBox : BBox;
  isEmpty_emptyBox : isEmpty emptyBox = true
}.

(** A view of [boost::gil]: the buffer it points into, the place in the
    buffer of its pixel (0, 0), and its dimensions. *)
Record View := mkView {
  buffer : nat;
  viewX0 : Z;
  viewY0 : Z;
  viewWidth : Z;
  viewHeight : Z
}.

Record t := mk {
  _origin : Z * Z;
  _gilView : View
}.

Definition getWidth (im : t) : Z := viewWidth (_gilView im).
Definition getHeight (im : t) : Z := viewHeight (_gilView im).
Definition getDimensions (im : t) : Z * Z := (getWidth im, getHeight im).

(** [getBBox()] of Image.h, which is not under src: the box of the image in
    the coordinates of its parent, from [_origin] and the dimensions. *)
Definition getBBox (im : t) : BBox :=
  mkBBox (fst (_origin im)) (snd (_origin im)) (getWidth im) (getHeight im).

Definition INT_MAX : Z := 2 ^ 31 - 1.

Section PixelT.
Variable PixelT : Type.

(** The buffers allocated so far, the number of pixels each was allocated
    for, and the pixels they hold, by column and row. *)
Record Heap := mkHeap {
  nextBuffer : nat;
  allocated : nat -> Z;
  cells : nat -> Z -> Z -> PixelT
}.

(** A call returns, or throws, with the buffers as they stand. *)
Inductive Outcome (A : Type) :=
| Returns (a : A) (heap : Heap)
| Throws (e : Exception) (heap : Heap).
Arguments Returns {A} a heap.
Arguments Throws {A} e heap.

(** [view(x, y)[0]], read and written. *)
Definition readPixel (heap : Heap) (view : View) (x y : Z) : PixelT :=
  cells heap (buffer view) (viewX0 view + x) (viewY0 view + y).

Definition writePixel (heap : Heap) (view : View) (x y : Z) (v : PixelT) : Heap :=
  mkHeap (nextBuffer heap) (allocated heap)
    (fun b cx cy =>
       if (b =? buffer view)%nat && (cx =? viewX0 view + x) && (cy =? viewY0 view + y)
       then v else cells heap b cx cy).

(** [_allocateView(dimensions, manager)].  The product of the dimensions is
    an [int]; a new buffer holds whatever it holds. *)
Definition _allocateView (dimensions : Z * Z) (heap : Heap) : Outcome View :=
  if (fst dimensions <? 0) || (snd dimensions <? 0) then Throws LengthErrorException heap
  else if negb (fst dimensions =? 0) && (snd dimensions >? Z.quot INT_MAX (fst dimensions))
  then Throws LengthErrorException heap
  else
    Returns (mkView (nextBuffer heap) 0 0 (fst dimensions) (snd dimensions))
      (mkHeap (S (nextBuffer heap))
         (fun b => if (b =? nextBuffer heap)%nat
                   then to_int (fst dimensions * snd dimensions) else allocated heap b)
         (cells heap)).

(** [_makeSubView(dimensions, offset, view)].  The source adds offset and
    dimensions as C++ [int]s; here the sums are sums of integers, which is
    the same as long as they are values of [int] ([boxInRange] below). *)
Definition _makeSubView (dimensions offset : Z * Z) (view : View) (heap : Heap) : Outcome View :=
  if (fst offset <? 0) || (snd offset <? 0) ||
     (fst offset + fst dimensions >? viewWidth view) ||
     (snd offset + snd dimensions >? viewHeight view)
  then Throws LengthErrorException heap
  else
    Returns (mkView (buffer view) (viewX0 view + fst offset) (viewY0 view + snd offset)
               (fst dimensions) (snd dimensions)) heap.

(** [ImageBase(Extent2I const& dimensions)] and [ImageBase(Box2I const& bbox)]. *)
Definition fromDimensions (dimensions : Z * Z) (heap : Heap) : Outcome t :=
  match _allocateView dimensions heap with
  | Throws e heap' => Throws e heap'
  | Returns view heap' => Returns (mk (0, 0) view) heap'
  end.

Definition fromBBox (bbox : BBox) (heap : Heap) : Outcome t :=
  match _allocateView (bboxWidth bbox, bboxHeight bbox) heap with
  | Throws e heap' => Throws e heap'
  | Returns view heap' => Returns (mk (getMinX bbox, getMinY bbox) view) heap'
  end.

(** [copy_pixels(src, dst)] of boost::gil, which is not under src: pixel
    (x, y) of the destination receives pixel (x, y) of the source, row after
    row.  The order matters only to views that overlap. *)
Definition copy_pixels (src dst : View) (heap : Heap) : Heap :=
  for_range 0 (viewHeight dst) (fun y =>
    for_range 0 (viewWidth dst) (fun x h => writePixel h dst x y (readPixel h src x y))) heap.

(** [assign(rhs, bbox, origin)]. *)
Definition assign {ops : Box2IOps} (this rhs : t) (bbox : BBox) (origin : ImageOrigin)
    (heap : Heap) : Outcome unit :=
  let lhsDim := if isEmpty bbox then getDimensions this else (bboxWidth bbox, bboxHeight bbox) in
  if dims_ne lhsDim (getDimensions rhs) then Throws LengthErrorException heap
  else if isEmpty bbox then Returns tt (copy_pixels (_gilView rhs) (_gilView this) heap)
  else
    let lhsOff :=
      match origin with
      | PARENT => (getMinX bbox - fst (_origin this), getMinY bbox - snd (_origin this))
      | LOCAL => (getMinX bbox, getMinY bbox)
      end in
    match _makeSubView lhsDim lhsOff (_gilView this) heap with
    | Throws e heap' => Throws e heap'
    | Returns lhsGilView heap' => Returns tt (copy_pixels (_gilView rhs) lhsGilView heap')
    end.

(** [operator<<=(rhs)] is [assign(rhs)]. *)
Definition shiftAssign {ops : Box2IOps} (this rhs : t) (heap : Heap) : Outcome unit :=
  assign this rhs emptyBox PARENT heap.

(** The block [if (deep) { ImageBase tmp(getBBox()); tmp.assign(this image);
    swap(tmp); }] that closes the copying constructors: the image under
    construction becomes [tmp]. *)
Definition deepen {ops : Box2IOps} (this : t) (heap : Heap) : Outcome t :=
  match fromBBox (getBBox this) heap with
  | Throws e heap' => Throws e heap'
  | Returns tmp heap' =>
      match assign tmp this emptyBox PARENT heap' with
      | Throws e heap'' => Throws e heap''
      | Returns _ heap'' => Returns tmp heap''
      end
  end.

(** [ImageBase(ImageBase const& rhs, bool deep)]. *)
Definition copy {ops : Box2IOps} (rhs : t) (deep : bool) (heap : Heap) : Outcome t :=
  if deep then deepen rhs heap else Returns rhs heap.

(** [ImageBase(ImageBase const& rhs, Box2I const& bbox, ImageOrigin origin,
    bool deep)]. *)
Definition subImage {ops : Box2IOps} (rhs : t) (bbox : BBox) (origin : ImageOrigin) (deep : bool)
    (heap : Heap) : Outcome t :=
  let origin' :=
    match origin with
    | PARENT => (getMinX bbox, getMinY bbox)
    | LOCAL => (fst (_origin rhs) + getMinX bbox, snd (_origin rhs) + getMinY bbox)
    end in
  match _makeSubView (bboxWidth bbox, bboxHeight bbox)
          (fst origin' - fst (_origin rhs), snd origin' - snd (_origin rhs))
          (_gilView rhs) heap with
  | Throws e heap' => Throws e heap'
  | Returns view heap' =>
      if deep then deepen (mk origin' view) heap' else Returns (mk origin' view) heap'
  end.

(** [operator()(x, y, check)]. *)
Definition at_checked (this : t) (x y : Z) (check : bool) (heap : Heap) : Outcome PixelT :=
  if check && ((x <? 0) || (x >=? getWidth this) || (y <? 0) || (y >=? getHeight this))
  then Throws LengthErrorException heap
  else Returns (readPixel heap (_gilView this) x y) heap.

(** [operator=(PixelT rhs)]: [fill_pixels]. *)
Definition fill (this : t) (rhs : PixelT) (heap : Heap) : Heap :=
  for_range 0 (getHeight this) (fun y =>
    for_range 0 (getWidth this) (fun x h => writePixel h (_gilView this) x y rhs)) heap.

(** [Image(dimensions, initialValue)]. *)
Definition withInitialValue (dimensions : Z * Z) (initialValue : PixelT) (heap : Heap) : Outcome t :=
  match fromDimensions dimensions heap with
  | Throws e heap' => Throws e heap'
  | Returns this heap' => Returns this (fill this initialValue heap')
  end.

(** [transform_pixels(src1, src2, dst, f)]: pixel by pixel,
    dst = f(src1, src2). *)
Definition transform_pixels2 (src1 src2 dst : View) (f : PixelT -> PixelT -> PixelT)
    (heap : Heap) : Heap :=
  for_range 0 (viewHeight dst) (fun y =>
    for_range 0 (viewWidth dst) (fun x h =>
      writePixel h dst x y (f (readPixel h src1 x y) (readPixel h src2 x y)))) heap.

(** The operators [+=], [-=], [*=] and [/=] with an image on the right;
    [op] is the operator of [PixelT] with the conversion of its result to
    [PixelT]. *)
Definition compoundAssign (op : PixelT -> PixelT -> PixelT) (this rhs : t) (heap : Heap)
    : Outcome unit :=
  if dims_ne (getDimensions this) (getDimensions rhs) then Throws LengthErrorException heap
  else Returns tt (transform_pixels2 (_gilView this) (_gilView rhs) (_gilView this) op heap).

End PixelT.

Arguments Returns {PixelT A} a heap.
Arguments Throws {PixelT A} e heap.
Arguments nextBuffer {PixelT} h.
Arguments allocated {PixelT} h b.
Arguments cells {PixelT} h b x y.
Arguments readPixel {PixelT} heap view x y.
Arguments writePixel {PixelT} heap view x y v.
Arguments _allocateView {PixelT} dimensions heap.
Arguments _makeSubView {PixelT} dimensions offset view heap.
Arguments fromDimensions {PixelT} dimensions heap.
Arguments fromBBox {PixelT} bbox heap.
Arguments copy_pixels {PixelT} src dst heap.
Arguments assign {PixelT ops} this rhs bbox origin heap.
Arguments shiftAssign {PixelT ops} this rhs heap.
Arguments deepen {PixelT ops} this heap.
Arguments copy {PixelT ops} rhs deep heap.
Arguments subImage {PixelT ops} rhs bbox origin deep heap.
Arguments at_checked {PixelT} this x y check heap.
Arguments fill {PixelT} this rhs heap.
Arguments withInitialValue {PixelT} dimensions initialValue heap.
Arguments transform_pixels2 {PixelT} src1 src2 dst f heap.
Arguments compoundAssign {PixelT} op this rhs heap.

(** The cell [(cx, cy)] of buffer [b] is a pixel of the view. *)
Definition inView (view : View) (b : nat) (cx cy : Z) : bool :=
  (b =? buffer view)%nat &&
  (viewX0 view <=? cx) && (cx <? viewX0 view + viewWidth view) &&
  (viewY0 view <=? cy) && (cy <? viewY0 view + viewHeight view).

(** The box of pixels of [this], in its own pixel indices, that
    [assign(rhs, bbox, origin)] addresses: the whole image for an empty box. *)
Definition assignBox {ops : Box2IOps} (this : t) (bbox : BBox) (origin : ImageOrigin) : BBox :=
  if isEmpty bbox then mkBBox 0 0 (getWidth this) (getHeight this)
  else
    match origin with
    | PARENT =>
        mkBBox (getMinX bbox - fst (_origin this)) (getMinY bbox - snd (_origin this))
          (bboxWidth bbox) (bboxHeight bbox)
    | LOCAL => bbox
    end.

(** Where a sub-image lies in the image it was cut from, in the pixel
    indices of that image. *)
Definition placeIn (parent sub : t) : BBox :=
  mkBBox (fst (_origin sub) - fst (_origin parent)) (snd (_origin sub) - snd (_origin parent))
    (getWidth sub) (getHeight sub).

(** The box that cuts from an image what [inner] cuts from the sub-image cut
    by [outer], both boxes read with the same [origin]. *)
Definition composeBoxes (origin : ImageOrigin) (outer inner : BBox) : BBox :=
  match origin with
  | PARENT => inner
  | LOCAL =>
      mkBBox (getMinX outer + getMinX inner) (getMinY outer + getMinY inner)
        (bboxWidth inner) (bboxHeight inner)
  end.

(** The corner [offset] of a box, and its far corner [offset + dimensions],
    are values of C++ [int]: the sums of [_makeSubView] do not overflow. *)
Definition boxInRange (offset dimensions : Z * Z) : bool :=
  isInt (fst offset) && isInt (snd offset) &&
  isInt (fst offset + fst dimensions) && isInt (snd offset + snd dimensions).

(** The arithmetic on [int] of the sub-image constructor stays within
    [int]: the origin of the sub-image, its offset in [rhs], and the sums of
    [_makeSubView]. *)
Definition subImageInRange (rhs : t) (bbox : BBox) (origin : ImageOrigin) : bool :=
  let origin' :=
    match origin with
    | PARENT => (getMinX bbox, getMinY bbox)
    | LOCAL => (fst (_origin rhs) + getMinX bbox, snd (_origin rhs) + getMinY bbox)
    end in
  isInt (fst origin') && isInt (snd origin') &&
  boxInRange (fst origin' - fst (_origin rhs), snd origin' - snd (_origin rhs))
    (bboxWidth bbox, bboxHeight bbox).

(** The same for [assign(rhs, bbox, origin)], which computes an offset and
    calls [_makeSubView] for a box that is not empty. *)
Definition assignInRange {ops : Box2IOps} (this : t) (bbox : BBox) (origin : ImageOrigin) : bool :=
  let box := assignBox this bbox origin in
  isEmpty bbox ||
  boxInRange (getMinX box, getMinY box) (bboxWidth box, bboxHeight box).

(** [std::uint16_t] pixels: the sum and the difference of two pixels are
    computed as [int]s and converted back to [std::uint16_t]. *)
Definition uint16_plus (l r : Z) : Z := (l + r) mod 2 ^ 16.
Definition uint16_minus (l r : Z) : Z := (l - r) mod 2 ^ 16.

End ImageBase.

(** ** [copyRegion] on views *)

(** The image a view shows in a heap of exact pixels. *)
Definition imageOf (heap : ImageBase.Heap Pixel) (im : ImageBase.t) : Image :=
  mkImage (ImageBase.getWidth im) (ImageBase.getHeight im) (ImageBase._origin im)
    (fun x y => ImageBase.readPixel heap (ImageBase._gilView im) x y).

(** [copyRegion] for two plain images of the same type, statement by
    statement on the images of Image.cc: the two patches are sub-images that
    are not deep and [outPatch <<= inPatch] assigns one to the other.
    [origin] tells how the constructor reads [region]. *)
Definition copyRegionOnViews {ops : ImageBase.Box2IOps} (origin : ImageBase.ImageOrigin)
    (outImage inImage : ImageBase.t) (region : BBox) (heap : ImageBase.Heap Pixel)
    : ImageBase.Outcome Pixel unit :=
  match ImageBase.subImage outImage region origin false heap with
  | ImageBase.Throws e heap' => ImageBase.Throws e heap'
  | ImageBase.Returns outPatch heap1 =>
      match ImageBase.subImage inImage region origin false heap1 with
      | ImageBase.Throws e heap' => ImageBase.Throws e heap'
      | ImageBase.Returns inPatch heap2 => ImageBase.shiftAssign outPatch inPatch heap2
      end
  end.

(** ** Concrete images on buffers *)

(** Boxes without a pixel are the empty boxes. *)
Definition boxesWithoutPixels : ImageBase.Box2IOps := {|
  ImageBase.isEmpty := fun b => (bboxWidth b <=? 0) || (bboxHeight b <=? 0);
  ImageBase.emptyBox := mkBBox 0 0 0 0;
  ImageBase.isEmpty_emptyBox := eq_refl
|}.

(** Two buffers of [std::uint16_t] pixels: buffer 0 holds x + 10 y at
    (x, y), buffer 1 holds 65535 everywhere.  On them a 5 x 4 image at the
    origin (100, 200), a 2 x 2 window on it and a 2 x 2 image. *)
Definition twoBuffers : ImageBase.Heap Z :=
  ImageBase.mkHeap Z 2 (fun b => if (b =? 0)%nat then 20 else 4)
    (fun b x y => if (b =? 0)%nat then x + 10 * y else 65535).
Definition fiveByFour : ImageBase.t := ImageBase.mk (100, 200) (ImageBase.mkView 0 0 0 5 4).
Definition windowAtOneOne : ImageBase.t := ImageBase.mk (101, 201) (ImageBase.mkView 0 1 1 2 2).
Definition twoByTwo : ImageBase.t := ImageBase.mk (0, 0) (ImageBase.mkView 1 0 0 2 2).

(** Two buffers of exact pixels with the same content, and images at the
    origin (0, 0) on them: 5 x 4 on buffer 0, 5 x 4 on buffer 1. *)
Definition exactBuffers : ImageBase.Heap Pixel :=
  ImageBase.mkHeap Pixel 2 (fun _ => 20)
    (fun b x y => if (b =? 0)%nat then ofZ 7 else ofZ (x + 10 * y)).
Definition outOnBufferZero : ImageBase.t := ImageBase.mk (0, 0) (ImageBase.mkView 0 0 0 5 4).
Definition inOnBufferOne : ImageBase.t := ImageBase.mk (0, 0) (ImageBase.mkView 1 0 0 5 4).

(** ** Sets of records ordered by a key *)

(** [SetT<RecordT, TableT, KeyT, CompareT>] of table/Set.h, for integer keys
    that [CompareT] orders by [<].  Records live behind shared pointers and
    belong to a table; of a record the set looks at its table and at the
    value of its key field. *)
Module SetT.

Inductive Exception :=
| NotFoundException
| LogicErrorException
| InvalidParameterException.

Record RecordT := mkRecord {
  getTable : nat;
  getKey : Z
}.

(** The record that a pointer points to. *)
Definition Records := nat -> RecordT.

(** [std::map<KeyT, PTR(RecordT), CompareT>]: the entries in the order of
    their keys, no key twice. *)
Definition Internal := list (Z * nat).

Fixpoint keys_increase (m : Internal) : bool :=
  match m with
  | [] => true
  | (k, _) :: m' =>
      match m' with
      | [] => true
      | (k', _) :: _ => (k <? k') && keys_increase m'
      end
  end.

(** The first key of the map, if it has one, lies above [k0]. *)
Definition keys_above (k0 : Z) (m : Internal) : Prop :=
  match m with
  | [] => True
  | (k1, _) :: _ => k0 < k1
  end.

(** [find(k)]: the pointer of the entry with key [k], if there is one. *)
Fixpoint map_find (k : Z) (m : Internal) : option nat :=
  match m with
  | [] => None
  | (k', p') :: m' => if k =? k' then Some p' else map_find k m'
  end.

(** [insert(make_pair(k, p))]: the map afterwards, the pointer of the entry
    with key [k] afterwards, and whether the pair was inserted.  An entry
    that has the key already stays as it is. *)
Fixpoint map_insert (k : Z) (p : nat) (m : Internal) : Internal * nat * bool :=
  match m with
  | [] => ([(k, p)], p, true)
  | (k', p') :: m' =>
      if k <? k' then ((k, p) :: m, p, true)
      else if k =? k' then (m, p', false)
      else
        let '(m'', q, inserted) := map_insert k p m' in
        ((k', p') :: m'', q, inserted)
  end.

(** [erase(k)]: the map afterwards and the number of entries erased. *)
Fixpoint map_erase (k : Z) (m : Internal) : Internal * Z :=
  match m with
  | [] => ([], 0)
  | (k', p') :: m' =>
      if k =? k' then (m', 1)
      else
        let '(m'', n) := map_erase k m' in
        ((k', p') :: m'', n)
  end.

Record t := mk {
  _table : nat;
  _internal : Internal
}.

(** A call returns, or throws, with the set as it stands. *)
Inductive Outcome (A : Type) :=
| Returns (a : A) (s : t)
| Throws (e : Exception) (s : t).
Arguments Returns {A} a s.
Arguments Throws {A} e s.

Definition size (s : t) : Z := Z.of_nat (length (_internal s)).

(** [operator[](k)]; the reference it returns is given as the pointer. *)
Definition at_key (s : t) (k : Z) : Outcome nat :=
  match map_find k (_internal s) with
  | None => Throws NotFoundException s
  | Some p => Returns p s
  end.

(** [get(k)]: the pointer, or the null pointer [None]. *)
Definition get (s : t) (k : Z) : option nat := map_find k (_internal s).

(** [insert(PTR(RecordT) const & p)]; the iterator it returns is given as
    the pointer of the entry it points at. *)
Definition insert (records : Records) (p : nat) (s : t) : Outcome nat :=
  if negb (getTable (records p) =? _table s)%nat then Throws LogicErrorException s
  else
    let k := getKey (records p) in
    let '(m, q, inserted) := map_insert k p (_internal s) in
    if negb inserted then Throws InvalidParameterException (mk (_table s) m)
    else Returns q (mk (_table s) m).

(** [insert(iterator pos, PTR(RecordT) const & p)].  The position is a hint
    to [std::map] where to start looking and has no part in the result. *)
Definition insert_at (records : Records) (p : nat) (s : t) : Outcome nat :=
  if negb (getTable (records p) =? _table s)%nat then Throws LogicErrorException s
  else
    let k := getKey (records p) in
    let '(m, q, _) := map_insert k p (_internal s) in
    if negb (q =? p)%nat then Throws InvalidParameterException (mk (_table s) m)
    else Returns q (mk (_table s) m).

(** [insert(pos, first, last, deep)] with [deep] false, on the pointers that
    the range yields. *)
Fixpoint insert_range (records : Records) (range : list nat) (s : t) : Outcome unit :=
  match range with
  | [] => Returns tt s
  | p :: range' =>
      match insert_at records p s with
      | Throws e s' => Throws e s'
      | Returns _ s' => insert_range records range' s'
      end
  end.

(** [erase(key_type const & k)]. *)
Definition erase (k : Z) (s : t) : Z * t :=
  let '(m, n) := map_erase k (_internal s) in (n, mk (_table s) m).

End SetT.

(** Records 0 to 3 of table 7, with keys 10, 20, 20 and 30, and a record of
    table 8; a set of table 7 that holds records 0 and 3. *)
Definition someRecords : SetT.Records :=
  fun p =>
    match p with
    | 0%nat => SetT.mkRecord 7 10
    | 1%nat => SetT.mkRecord 7 20
    | 2%nat => SetT.mkRecord 7 20
    | 3%nat => SetT.mkRecord 7 30
    | _ => SetT.mkRecord 8 40
    end.
Definition tenAndThirty : SetT.t := SetT.mk 7 [(10, 0%nat); (30, 3%nat)].

(** ** Images with metadata *)

(** [DecoratedImage<PixelT>] of DecoratedImage.cc: the image that [_image]
    points to, the property set that [getMetadata()] points to, given by
    its address, and the gain. *)
Module DecoratedImage.

Record t := mk {
  _image : ImageBase.t;
  _metadata : nat;
  _gain : Qc
}.

Section PixelT.
Variable PixelT : Type.
Context {ops : ImageBase.Box2IOps}.

(** [DecoratedImage(const DecoratedImage& src, const bool deep)]. *)
Definition copy (src : t) (deep : bool) (heap : ImageBase.Heap PixelT) : ImageBase.Outcome PixelT t :=
  match ImageBase.copy (_image src) deep heap with
  | ImageBase.Throws e heap' => ImageBase.Throws e heap'
  | ImageBase.Returns image heap' => ImageBase.Returns (mk image (_metadata src) (_gain src)) heap'
  end.

(** [swap(rhs)]: this image and [rhs] afterwards. *)
Definition swap (this rhs : t) : t * t :=
  (mk (_image rhs) (_metadata this) (_gain rhs),
   mk (_image this) (_metadata rhs) (_gain this)).

(** [operator=(src)]: [DecoratedImage tmp(src); swap(tmp);].  The header
    that gives [deep] its value in [tmp(src)] is not under src. *)
Definition assignFrom (deep : bool) (this src : t) (heap : ImageBase.Heap PixelT)
    : ImageBase.Outcome PixelT t :=
  match copy src deep heap with
  | ImageBase.Throws e heap' => ImageBase.Throws e heap'
  | ImageBase.Returns tmp heap' => ImageBase.Returns (fst (swap this tmp)) heap'
  end.

End PixelT.

Arguments copy {PixelT ops} src deep heap.
Arguments assignFrom {PixelT ops} deep this src heap.

End DecoratedImage.

(** ** The integrands of the quadrature test *)

(** [Parab1D] and [Parab2D] of tests/Quadrature.cc over exact numbers.  The
    integrator sets [_y] of a [Parab2D] before it calls it. *)
Module Parab1D.
Record t := mk { _K : Qc; _kx : Qc }.

Definition getAnalyticArea (p : t) (x1 x2 : Qc) : Qc :=
  (_K p * (x2 - x1) - _kx p * (x2 * x2 * x2 - x1 * x1 * x1) / ofZ 3)%Qc.

Definition call (p : t) (x : Qc) : Qc := (_K p - _kx p * x * x)%Qc.
End Parab1D.

Module Parab2D.
Record t := mk { _K : Qc; _kx : Qc; _ky : Qc }.

Definition getAnalyticVolume (p : t) (x1 x2 y1 y2 : Qc) : Qc :=
  let xw := (x2 - x1)%Qc in
  let yw := (y2 - y1)%Qc in
  (_K p * xw * yw - _kx p * (x2 * x2 * x2 - x1 * x1 * x1) * yw / ofZ 3
   - _ky p * (y2 * y2 * y2 - y1 * y1 * y1) * xw / ofZ 3)%Qc.

Definition call (p : t) (_y : Qc) (x : Qc) : Qc := (_K p - _kx p * x * x - _ky p * _y * _y)%Qc.
End Parab2D.

(** Simpson's rule on an interval, which is exact for polynomials up to the
    third degree. *)
Definition simpson (f : Qc -> Qc) (a b : Qc) : Qc :=
  ((b - a) / ofZ 6 * (f a + ofZ 4 * f ((a + b) / ofZ 2) + f b))%Qc.

(** ** Mosaics of detectors *)

(** [a < b] on exact numbers. *)
Definition Qc_ltb (a b : Qc) : bool :=
  match (a ?= b)%Qc with
  | Lt => true
  | _ => false
  end.

(** What DetectorMosaic.cc asks of a [Detector] when it computes sizes: its
    id, its center and its size in mm, and the yaw of its orientation. *)
Module Detector.
Record t := mk {
  getId : Z;
  getCenter : Qc * Qc;
  getSize : Qc * Qc;
  getYaw : Qc
}.

Definition setCenter (center : Qc * Qc) (det : t) : t :=
  mk (getId det) center (getSize det) (getYaw det).
End Detector.

(** [DetectorMosaic] of cameraGeom/DetectorMosaic.cc: a detector with a
    center of its own that holds detectors. *)
Module DetectorMosaic.

Inductive Exception :=
| RangeErrorException
| InvalidParameterException
| OutOfRangeException.

Record t := mk {
  getCenter : Qc * Qc;
  _detectors : list Detector.t
}.

Definition plus (a b : Qc * Qc) : Qc * Qc := (fst a + fst b, snd a + snd b)%Qc.
Definition minus (a b : Qc * Qc) : Qc * Qc := (fst a - fst b, snd a - snd b)%Qc.
Definition half (a : Qc * Qc) : Qc * Qc := (fst a / ofZ 2, snd a / ofZ 2)%Qc.

(** The corners of a detector. *)
Definition llc (det : Detector.t) : Qc * Qc := minus (Detector.getCenter det) (half (Detector.getSize det)).
Definition urc (det : Detector.t) : Qc * Qc := plus (Detector.getCenter det) (half (Detector.getSize det)).

(** [setCenter(center)]: the mosaic takes the center, and the center of
    every detector in it is moved by [center].  The detectors are plain
    detectors, whose [setCenter] stores the center it is given. *)
Definition setCenter (center : Qc * Qc) (this : t) : t :=
  mk center
     (map (fun det => Detector.setCenter (plus (Detector.getCenter det) center) det)
        (_detectors this)).

(** One detector of the loop of [getSize] on the corners [(LLC, URC)];
    [first] says that the iterator is at [begin()]. *)
Definition getSize_step (first : bool) (det : Detector.t) (corners : (Qc * Qc) * (Qc * Qc))
    : (Qc * Qc) * (Qc * Qc) :=
  if first then (llc det, urc det)
  else
    let '(LLC, URC) := corners in
    ((if Qc_ltb (fst (llc det)) (fst LLC) then fst (llc det) else fst LLC,
      if Qc_ltb (snd (llc det)) (snd LLC) then snd (llc det) else snd LLC),
     (if Qc_ltb (fst URC) (fst (urc det)) then fst (urc det) else fst URC,
      if Qc_ltb (snd URC) (snd (urc det)) then snd (urc det) else snd URC)).

Fixpoint getSize_loop (first : bool) (detectors : list Detector.t)
    (corners : (Qc * Qc) * (Qc * Qc)) : Exception + (Qc * Qc) * (Qc * Qc) :=
  match detectors with
  | [] => inr corners
  | det :: rest =>
      if negb (Qc_eqb (Detector.getYaw det) 0%Qc) then inl RangeErrorException
      else getSize_loop false rest (getSize_step first det corners)
  end.

(** [getSize()].  [defaultPoint] is the point that [Point2D LLC, URC;]
    declares, from a header that is not under src. *)
Definition getSize (defaultPoint : Qc * Qc) (this : t) : Exception + Qc * Qc :=
  match getSize_loop true (_detectors this) (defaultPoint, defaultPoint) with
  | inl e => inl e
  | inr (LLC, URC) => inr (minus URC LLC)
  end.

(** The box with the corners [corners] holds the box [box]: its lower left
    corner lies below and to the left, its upper right corner above and to
    the right. *)
Definition holds (corners box : (Qc * Qc) * (Qc * Qc)) : Prop :=
  (fst (fst corners) <= fst (fst box))%Qc /\ (snd (fst corners) <= snd (fst box))%Qc /\
  (fst (snd box) <= fst (snd corners))%Qc /\ (snd (snd box) <= snd (snd corners))%Qc.

(** A box and a detector moved by [center]. *)
Definition moved (center : Qc * Qc) (corners : (Qc * Qc) * (Qc * Qc)) : (Qc * Qc) * (Qc * Qc) :=
  (plus (fst corners) center, plus (snd corners) center).

Definition movedDetector (center : Qc * Qc) (det : Detector.t) : Detector.t :=
  Detector.setCenter (plus (Detector.getCenter det) center) det.

End DetectorMosaic.

(** * Properties *)

(** ** Loops *)

Lemma for_loop_snoc {S : Type} (n : nat) (a : Z) (body : Z -> S -> S) (s : S) :
  for_loop (Datatypes.S n) a body s = body (a + Z.of_nat n) (for_loop n a body s).
Proof.
  revert a s. induction n as [|n IH]; intros a s.
  - simpl. now rewrite Z.add_0_r.
  - change (for_loop (Datatypes.S (Datatypes.S n)) a body s)
      with (for_loop (Datatypes.S n) (a + 1) body (body a s)).
    rewrite IH. simpl for_loop.
    replace (a + 1 + Z.of_nat n) with (a + Z.of_nat (Datatypes.S n)) by lia.
    reflexivity.
Qed.

Lemma for_loop_ext {S : Type} (n : nat) (a : Z) (f g : Z -> S -> S) (s : S) :
  (forall i v, a <= i < a + Z.of_nat n -> f i v = g i v) ->
  for_loop n a f s = for_loop n a g s.
Proof.
  revert a s. induction n as [|n IH]; intros a s E; [reflexivity|].
  simpl. rewrite E by lia. apply IH. intros i v Hi. apply E. lia.
Qed.

(** A loop none of whose iterations changes the value. *)
Lemma for_loop_miss {S : Type} (n : nat) (a : Z) (body : Z -> S -> S) (s : S) :
  (forall i v, a <= i < a + Z.of_nat n -> body i v = v) ->
  for_loop n a body s = s.
Proof.
  revert a s. induction n as [|n IH]; intros a s E; [reflexivity|].
  simpl. rewrite E by lia. apply IH. intros i v Hi. apply E. lia.
Qed.

(** A loop only one of whose iterations changes the value. *)
Lemma for_loop_hit {S : Type} (n : nat) (a k : Z) (body : Z -> S -> S) (s : S) :
  a <= k < a + Z.of_nat n ->
  (forall i v, a <= i < a + Z.of_nat n -> i <> k -> body i v = v) ->
  for_loop n a body s = body k s.
Proof.
  revert a s. induction n as [|n IH]; intros a s Hk E; [lia|].
  simpl. destruct (Z.eq_dec a k) as [->|Hne].
  - apply for_loop_miss. intros i v Hi. apply E; lia.
  - rewrite E by lia. apply IH; [lia|]. intros i v Hi Hik. apply E; lia.
Qed.

Lemma for_range_ext {S : Type} (a b : Z) (f g : Z -> S -> S) (s : S) :
  (forall i v, a <= i < b -> f i v = g i v) ->
  for_range a b f s = for_range a b g s.
Proof. intros E. apply for_loop_ext. intros i v Hi. apply E. lia. Qed.

Lemma for_range_miss {S : Type} (a b : Z) (body : Z -> S -> S) (s : S) :
  (forall i v, a <= i < b -> body i v = v) ->
  for_range a b body s = s.
Proof. intros E. apply for_loop_miss. intros i v Hi. apply E. lia. Qed.

Lemma for_range_hit {S : Type} (a b k : Z) (body : Z -> S -> S) (s : S) :
  a <= k < b ->
  (forall i v, a <= i < b -> i <> k -> body i v = v) ->
  for_range a b body s = body k s.
Proof. intros Hk E. apply for_loop_hit; [lia|]. intros i v Hi. apply E. lia. Qed.

Lemma for_range_empty {S : Type} (a b : Z) (body : Z -> S -> S) (s : S) :
  b <= a -> for_range a b body s = s.
Proof.
  intros H. unfold for_range. replace (Z.to_nat (b - a)) with O by lia. reflexivity.
Qed.

Lemma for_range_snoc {S : Type} (a b : Z) (body : Z -> S -> S) (s : S) :
  a <= b -> for_range a (b + 1) body s = body b (for_range a b body s).
Proof.
  intros H. unfold for_range.
  replace (Z.to_nat (b + 1 - a)) with (Datatypes.S (Z.to_nat (b - a))) by lia.
  rewrite for_loop_snoc. f_equal. lia.
Qed.

(** ** Images under loops of pixel updates *)

Lemma Pointwise_updPix W x0 y0 f :
  Pointwise W (fun im => updPix im x0 y0 f)
    (fun x y v => if (x =? x0) && (y =? y0) then f v else v).
Proof. intros im HW. simpl. auto. Qed.

Lemma Pointwise_setPix W x0 y0 c :
  Pointwise W (fun im => setPix im x0 y0 c)
    (fun x y v => if (x =? x0) && (y =? y0) then c else v).
Proof. intros im HW. simpl. auto. Qed.

Lemma Pointwise_compose W F G TF TG :
  Pointwise W F TF -> Pointwise W G TG ->
  Pointwise W (fun im => G (F im)) (fun x y v => TG x y (TF x y v)).
Proof.
  intros HF HG im HW. destruct (HF im HW) as (w1 & h1 & o1 & p1).
  destruct (HG (F im) w1) as (w2 & h2 & o2 & p2).
  split; [congruence|]. split; [congruence|]. split; [congruence|].
  intros x y. now rewrite p2, p1.
Qed.

Lemma Pointwise_for_loop W n a (body : Z -> Image -> Image) T :
  (forall i, a <= i < a + Z.of_nat n -> Pointwise W (body i) (T i)) ->
  Pointwise W (for_loop n a body) (fun x y v => for_loop n a (fun i => T i x y) v).
Proof.
  revert a. induction n as [|n IH]; intros a HB im HW.
  - simpl. auto.
  - simpl. destruct (HB a ltac:(lia) im HW) as (w1 & h1 & o1 & p1).
    destruct (IH (a + 1) ltac:(intros i Hi; apply HB; lia) (body a im) w1) as (w2 & h2 & o2 & p2).
    split; [congruence|]. split; [congruence|]. split; [congruence|].
  intros x y. now rewrite p2, p1.
Qed.

Lemma Pointwise_for_range W a b (body : Z -> Image -> Image) T :
  (forall i, a <= i < b -> Pointwise W (body i) (T i)) ->
  Pointwise W (for_range a b body) (fun x y v => for_range a b (fun i => T i x y) v).
Proof. intros HB. apply Pointwise_for_loop. intros i Hi. apply HB. lia. Qed.

Lemma Pointwise_ext W F T T' :
  Pointwise W F T -> (forall x y v, T x y v = T' x y v) -> Pointwise W F T'.
Proof.
  intros HF E im HW. destruct (HF im HW) as (w1 & h1 & o1 & p1).
  split; [auto|]. split; [auto|]. split; [auto|]. intros x y. rewrite p1. apply E.
Qed.

Lemma Pointwise_if W (b : bool) F G TF TG :
  Pointwise W F TF -> Pointwise W G TG ->
  Pointwise W (fun im => if b then F im else G im) (fun x y v => if b then TF x y v else TG x y v).
Proof. destruct b; auto. Qed.

(** ** Sums *)

Lemma acc_loop (n : nat) (a : Z) (f : Z -> Qc) (s : Qc) :
  for_loop n a (fun i acc => (acc + f i)%Qc) s
  = (s + for_loop n a (fun i acc => (acc + f i)%Qc) 0%Qc)%Qc.
Proof.
  revert a s. induction n as [|n IH]; intros a s; simpl.
  - ring.
  - rewrite IH. rewrite (IH (a + 1) (0 + f a)%Qc). ring.
Qed.

Lemma sum_range_ext a b f g :
  (forall i, a <= i < b -> f i = g i) -> sum_range a b f = sum_range a b g.
Proof.
  intros E. unfold sum_range. apply for_range_ext. intros i v Hi. now rewrite E.
Qed.

Lemma sum_range_empty a b f : b <= a -> sum_range a b f = 0%Qc.
Proof. intros H. unfold sum_range. now apply for_range_empty. Qed.

Lemma sum_range_snoc a b f :
  a <= b -> sum_range a (b + 1) f = (sum_range a b f + f b)%Qc.
Proof. intros H. unfold sum_range. now rewrite for_range_snoc. Qed.

(** Induction over the upper bound of a range. *)
Lemma range_ind (a : Z) (P : Z -> Prop) :
  (forall b, b <= a -> P b) ->
  (forall b, a <= b -> P b -> P (b + 1)) ->
  forall b, P b.
Proof.
  intros H0 HS b. destruct (Z_le_gt_dec b a) as [Hle|Hgt]; [now apply H0|].
  replace b with (a + Z.of_nat (Z.to_nat (b - a))) by lia.
  induction (Z.to_nat (b - a)) as [|n IH].
  - apply H0. lia.
  - replace (a + Z.of_nat (S n)) with (a + Z.of_nat n + 1) by lia.
    apply HS; [lia|exact IH].
Qed.

Lemma sum_range_plus a b f g :
  sum_range a b (fun i => (f i + g i)%Qc) = (sum_range a b f + sum_range a b g)%Qc.
Proof.
  pattern b. apply (range_ind a); clear b.
  - intros b Hb. rewrite !sum_range_empty by lia. ring.
  - intros b Hb IH. rewrite !sum_range_snoc by lia. rewrite IH. ring.
Qed.

Lemma sum_range_scale a b c f :
  sum_range a b (fun i => (c * f i)%Qc) = (c * sum_range a b f)%Qc.
Proof.
  pattern b. apply (range_ind a); clear b.
  - intros b Hb. rewrite !sum_range_empty by lia. ring.
  - intros b Hb IH. rewrite !sum_range_snoc by lia. rewrite IH. ring.
Qed.

Lemma sum_range_zero a b f :
  (forall i, a <= i < b -> f i = 0%Qc) -> sum_range a b f = 0%Qc.
Proof.
  intros E. rewrite (sum_range_ext a b f (fun _ => 0%Qc) E). clear E.
  pattern b. apply (range_ind a); clear b.
  - intros b Hb. now apply sum_range_empty.
  - intros b Hb IH. rewrite sum_range_snoc by lia. rewrite IH. ring.
Qed.

(** A sum with a single non-zero term. *)
Lemma sum_range_single a b k f :
  a <= k < b -> (forall i, a <= i < b -> i <> k -> f i = 0%Qc) -> sum_range a b f = f k.
Proof.
  intros Hk E. unfold sum_range.
  rewrite (for_range_ext a b _ (fun i acc => if i =? k then (acc + f k)%Qc else acc)).
  - rewrite (for_range_hit a b k); [rewrite Z.eqb_refl; ring|lia|].
    intros i v Hi Hne. destruct (Z.eqb_spec i k); [contradiction|reflexivity].
  - intros i v Hi. destruct (Z.eqb_spec i k) as [->|Hne]; [reflexivity|].
    rewrite E by assumption. ring.
Qed.

Lemma Qc_eqb_true a b : Qc_eqb a b = true -> a = b.
Proof. unfold Qc_eqb. destruct (Qc_eq_dec a b); [auto|discriminate]. Qed.

(** Skipping the weights equal to zero does not change the sum that
    [convolveOneKernelRow] accumulates. *)
Lemma skip_zero_loop a b (inRow kernelRow : Z -> Qc) (loc : Qc) :
  for_range a b (fun x loc =>
    let kVal := kernelRow x in
    if Qc_eqb kVal 0%Qc then loc else (loc + inRow x * kVal)%Qc) loc
  = (loc + sum_range a b (fun x => (inRow x * kernelRow x)%Qc))%Qc.
Proof.
  unfold sum_range, for_range. rewrite <- acc_loop.
  apply for_loop_ext. intros i v Hi. cbv zeta.
  destruct (Qc_eqb (kernelRow i) 0%Qc) eqn:E; [|reflexivity].
  apply Qc_eqb_true in E. rewrite E. ring.
Qed.

Lemma sum_list_acc (v : list Qc) (s : Qc) :
  fold_left Qcplus v s = (s + sum_list v)%Qc.
Proof.
  unfold sum_list. revert s. induction v as [|q v IH]; intros s; simpl.
  - ring.
  - rewrite IH, (IH (0 + q)%Qc). ring.
Qed.

Lemma indices_snoc n : 0 <= n -> indices (n + 1) = indices n ++ [n].
Proof.
  intros H. unfold indices.
  replace (Z.to_nat (n + 1)) with (S (Z.to_nat n)) by lia.
  rewrite seq_S, map_app. simpl. now rewrite Z2Nat.id.
Qed.

Lemma indices_empty n : n <= 0 -> indices n = [].
Proof. intros H. unfold indices. now replace (Z.to_nat n) with O by lia. Qed.

Lemma length_indices n : 0 <= n -> Z.of_nat (length (indices n)) = n.
Proof. intros H. unfold indices. rewrite length_map, length_seq. lia. Qed.

Lemma sum_list_app u v : sum_list (u ++ v) = (sum_list u + sum_list v)%Qc.
Proof. unfold sum_list at 1. rewrite fold_left_app, sum_list_acc. fold (sum_list u). ring. Qed.

Lemma sum_list_indices n f : sum_list (map f (indices n)) = sum_range 0 n f.
Proof.
  pattern n. apply (range_ind 0); clear n.
  - intros n Hn. rewrite indices_empty, sum_range_empty by lia. reflexivity.
  - intros n Hn IH. rewrite indices_snoc, map_app, sum_list_app, sum_range_snoc by lia.
    rewrite IH. unfold sum_list. simpl. ring.
Qed.

Lemma weighted_sum_app u v start f :
  weighted_sum (u ++ v) start f
  = (weighted_sum u start f + weighted_sum v (start + Z.of_nat (length u)) f)%Qc.
Proof.
  revert start. induction u as [|q u IH]; intros start; simpl.
  - rewrite Z.add_0_r. ring.
  - rewrite IH.
    replace (start + 1 + Z.of_nat (length u))
      with (start + Z.pos (Pos.of_succ_nat (length u))) by lia.
    ring.
Qed.

Lemma weighted_sum_indices n w f :
  weighted_sum (map w (indices n)) 0 f = sum_range 0 n (fun i => (w i * f i)%Qc).
Proof.
  pattern n. apply (range_ind 0); clear n.
  - intros n Hn. rewrite indices_empty, sum_range_empty by lia. reflexivity.
  - intros n Hn IH. rewrite indices_snoc, map_app, weighted_sum_app, sum_range_snoc by lia.
    rewrite IH, length_map. rewrite length_indices by lia. simpl. ring.
Qed.

(** ** Loops that write a rectangle of pixels *)

Ltac bool_cases :=
  repeat match goal with
  | |- context [Z.eqb ?a ?b] => destruct (Z.eqb_spec a b)
  | |- context [Z.leb ?a ?b] => destruct (Z.leb_spec a b)
  | |- context [Z.ltb ?a ?b] => destruct (Z.ltb_spec a b)
  | |- context [Z.geb ?a ?b] => rewrite (Z.geb_leb a b)
  | |- context [Z.gtb ?a ?b] => rewrite (Z.gtb_ltb a b)
  end; simpl andb; simpl orb; simpl negb; cbv iota.

(** Two nested loops whose body at [(i, j)] rewrites the one pixel
    [(cx + i, cy + j)]. *)
Lemma scalar_rect_loop {V : Type} ya yb xa xb cx cy (g : Z -> Z -> V -> V) x y (v : V) :
  for_range ya yb (fun j v =>
    for_range xa xb (fun i v =>
      if (x =? cx + i) && (y =? cy + j) then g i j v else v) v) v
  = if (cx + xa <=? x) && (x <? cx + xb) && (cy + ya <=? y) && (y <? cy + yb)
    then g (x - cx) (y - cy) v else v.
Proof.
  destruct ((cy + ya <=? y) && (y <? cy + yb)) eqn:Ey.
  - apply andb_prop in Ey as [Ey1 Ey2]. apply Z.leb_le in Ey1. apply Z.ltb_lt in Ey2.
    rewrite (for_range_hit ya yb (y - cy)); [|lia|].
    + destruct ((cx + xa <=? x) && (x <? cx + xb)) eqn:Ex.
      * apply andb_prop in Ex as [Ex1 Ex2]. apply Z.leb_le in Ex1. apply Z.ltb_lt in Ex2.
        rewrite (for_range_hit xa xb (x - cx)); [|lia|].
        -- bool_cases; try lia. reflexivity.
        -- intros i w Hi Hne. bool_cases; try lia; reflexivity.
      * rewrite for_range_miss.
        -- bool_cases; try lia; try reflexivity; simpl in Ex; discriminate.
        -- intros i w Hi. revert Ex. bool_cases; try lia; try reflexivity; discriminate.
    + intros j w Hj Hne. apply for_range_miss. intros i u Hi.
      bool_cases; try lia; reflexivity.
  - rewrite for_range_miss.
    + revert Ey. bool_cases; try lia; try reflexivity; discriminate.
    + intros j w Hj. apply for_range_miss. intros i u Hi.
      revert Ey. bool_cases; try lia; try reflexivity; discriminate.
Qed.

Lemma rect_loop W ya yb xa xb cx cy (body : Z -> Z -> Image -> Image) (g : Z -> Z -> Pixel -> Pixel) :
  (forall j i, Pointwise W (body j i)
                 (fun x y v => if (x =? cx + i) && (y =? cy + j) then g i j v else v)) ->
  Pointwise W (for_range ya yb (fun j => for_range xa xb (fun i => body j i)))
    (fun x y v =>
       if (cx + xa <=? x) && (x <? cx + xb) && (cy + ya <=? y) && (y <? cy + yb)
       then g (x - cx) (y - cy) v else v).
Proof.
  intros HB.
  eapply Pointwise_ext.
  - apply Pointwise_for_range. intros j _. apply Pointwise_for_range. intros i _. apply HB.
  - intros x y v. cbv beta. apply scalar_rect_loop.
Qed.

(** ** The paths of [basicConvolve], pixel by pixel *)

Lemma dims_ne_false a b : fst a = fst b -> snd a = snd b -> dims_ne a b = false.
Proof. intros H1 H2. unfold dims_ne. rewrite H1, H2, !Z.eqb_refl. reflexivity. Qed.

Lemma dims_lt_false a b : fst b <= fst a -> snd b <= snd a -> dims_lt a b = false.
Proof. intros H1 H2. unfold dims_lt. bool_cases; try lia; reflexivity. Qed.

Ltac pass_checks :=
  unfold bind, throw_if, modify, ret;
  repeat (rewrite dims_ne_false by (simpl; lia));
  repeat (rewrite dims_lt_false by (simpl; lia)).

Lemma basicConvolve_DeltaFunctionKernel_pixels inImage kernel pixel doNormalize out :
  Kernel.isSpatiallyVarying kernel = false ->
  convolvable out inImage kernel ->
  exists out',
    basicConvolve_DeltaFunctionKernel inImage kernel pixel doNormalize out = Ok tt out' /\
    sameFrame out' out /\
    forall x y,
      pix out' x y =
      if inValidRegion inImage kernel x y
      then pix inImage (fst pixel + (x - Kernel.getCtrX kernel)) (snd pixel + (y - Kernel.getCtrY kernel))
      else pix out x y.
Proof.
  intros Hsv (HW & HH & HkW & HkH).
  unfold basicConvolve_DeltaFunctionKernel. rewrite Hsv. pass_checks.
  eexists. split; [reflexivity|].
  pose proof (rect_loop (getWidth out) 0 (getHeight inImage + 1 - Kernel.getHeight kernel)
                0 (getWidth inImage + 1 - Kernel.getWidth kernel)
                (Kernel.getCtrX kernel) (Kernel.getCtrY kernel)
                (fun i x convolvedImage =>
                   setPix convolvedImage (Kernel.getCtrX kernel + x) (i + Kernel.getCtrY kernel)
                     (pix inImage (fst pixel + x) (i + snd pixel)))
                (fun x i _ => pix inImage (fst pixel + x) (i + snd pixel))) as HP.
  destruct (HP ltac:(intros j i; eapply Pointwise_ext; [apply Pointwise_setPix|];
                     intros x y v; cbv beta; rewrite (Z.add_comm j); reflexivity)
              out eq_refl) as (w & h & o & p).
  split; [repeat split; assumption|].
  intros x y. rewrite p. unfold inValidRegion.
  bool_cases; try lia; try reflexivity. f_equal; lia.
Qed.

Lemma Pointwise_set_then_upd W x0 y0 c (b : bool) f :
  Pointwise W
    (fun im => let im' := setPix im x0 y0 c in if b then updPix im' x0 y0 f else im')
    (fun x y v => if (x =? x0) && (y =? y0) then (if b then f c else c) else v).
Proof.
  intros im HW. destruct b; simpl; (split; [auto|]); (split; [auto|]); (split; [auto|]);
    intros x y; destruct ((x =? x0) && (y =? y0)); reflexivity.
Qed.

(** Read, compute, write back at one pixel. *)
Lemma Pointwise_rmw W x0 y0 (F : Pixel -> Pixel) :
  Pointwise W (fun im => setPix im x0 y0 (F (pix im x0 y0)))
    (fun x y v => if (x =? x0) && (y =? y0) then F v else v).
Proof.
  intros im HW. simpl. split; [auto|]. split; [auto|]. split; [auto|].
  intros x y. destruct (Z.eqb_spec x x0) as [->|]; destruct (Z.eqb_spec y y0) as [->|]; reflexivity.
Qed.

Lemma Pointwise_width W (F : Z -> Image -> Image) T :
  Pointwise W (F W) T -> Pointwise W (fun im => F (getWidth im) im) T.
Proof. intros HF im HW. rewrite HW. now apply HF. Qed.

Lemma inValidRegion_iff inImage kernel x y :
  inValidRegion inImage kernel x y =
  (0 + Kernel.getCtrX kernel <=? x) &&
  (x <? 0 + (Kernel.getCtrX kernel + (getWidth inImage + 1 - Kernel.getWidth kernel))) &&
  (0 + Kernel.getCtrY kernel <=? y) &&
  (y <? 0 + (Kernel.getCtrY kernel + (getHeight inImage + 1 - Kernel.getHeight kernel))).
Proof. unfold inValidRegion. bool_cases; try lia; reflexivity. Qed.

Lemma basicConvolve_SeparableKernel_pixels {utils : ImageUtils} inImage kernel c r doNormalize out :
  convolvable out inImage kernel ->
  exists out',
    basicConvolve_SeparableKernel inImage kernel c r doNormalize out = Ok tt out' /\
    sameFrame out' out /\
    forall x y,
      pix out' x y =
      if inValidRegion inImage kernel x y
      then
        if Kernel.isSpatiallyVarying kernel then
          let '(kXVec, kYVec, kSum) :=
            computeVectors kernel c r doNormalize (indexToPosition x) (indexToPosition y) in
          let v := convolveAtAPointSeparable inImage (x - Kernel.getCtrX kernel)
                     (y - Kernel.getCtrY kernel) kXVec kYVec in
          if doNormalize then (v / kSum)%Qc else v
        else
          let '(kXVec, kYVec, _) := computeVectors kernel c r doNormalize 0%Qc 0%Qc in
          convolveAtAPointSeparable inImage (x - Kernel.getCtrX kernel)
            (y - Kernel.getCtrY kernel) kXVec kYVec
      else pix out x y.
Proof.
  intros (HW & HH & HkW & HkH).
  unfold basicConvolve_SeparableKernel. pass_checks.
  destruct (Kernel.isSpatiallyVarying kernel).
  - eexists. split; [reflexivity|].
    match goal with
    | |- sameFrame (for_range ?ya ?yb (fun cnvY => for_range ?xa ?xb (@?B cnvY)) out) out /\ _ =>
        pose proof (rect_loop (getWidth out) ya yb xa xb 0 0 B
          (fun x y _ =>
             let '(kXVec, kYVec, kSum) :=
               computeVectors kernel c r doNormalize (indexToPosition x) (indexToPosition y) in
             let v := convolveAtAPointSeparable inImage (x - Kernel.getCtrX kernel)
                        (y - Kernel.getCtrY kernel) kXVec kYVec in
             if doNormalize then (v / kSum)%Qc else v)) as HP
    end.
    destruct (HP ltac:(intros j i; cbv beta;
                       destruct (computeVectors kernel c r doNormalize (indexToPosition i)
                                   (indexToPosition j)) as [[xs ys] ks];
                       eapply Pointwise_ext; [apply Pointwise_set_then_upd|];
                       intros x y v; cbv beta; reflexivity)
                out eq_refl) as (w & h & o & p).
    split; [repeat split; assumption|].
    intros x y. rewrite p, inValidRegion_iff.
    destruct (_ && _); [|reflexivity]. rewrite !Z.sub_0_r. reflexivity.
  - destruct (computeVectors kernel c r doNormalize 0%Qc 0%Qc) as [[xs ys] ks].
    eexists. split; [reflexivity|].
    match goal with
    | |- sameFrame (for_range ?ya ?yb (fun cnvY => for_range ?xa ?xb (@?B cnvY)) out) out /\ _ =>
        pose proof (rect_loop (getWidth out) ya yb xa xb 0 0 B
          (fun x y _ =>
             convolveAtAPointSeparable inImage (x - Kernel.getCtrX kernel)
               (y - Kernel.getCtrY kernel) xs ys)) as HP
    end.
    destruct (HP ltac:(intros j i; cbv beta;
                       eapply Pointwise_ext; [apply Pointwise_setPix|];
                       intros x y v; cbv beta; reflexivity)
                out eq_refl) as (w & h & o & p).
    split; [repeat split; assumption|].
    intros x y. rewrite p, inValidRegion_iff.
    destruct (_ && _); [|reflexivity]. rewrite !Z.sub_0_r. reflexivity.
Qed.

Lemma basicConvolve_general_varying_pixels {utils : ImageUtils} inImage kernel doNormalize out :
  Kernel.isSpatiallyVarying kernel = true ->
  convolvable out inImage kernel ->
  exists out',
    basicConvolve_general inImage kernel doNormalize out = Ok tt out' /\
    sameFrame out' out /\
    forall x y,
      pix out' x y =
      if inValidRegion inImage kernel x y
      then
        let '(kernelImage, kSum) :=
          computeImage kernel false (indexToPosition x) (indexToPosition y) in
        let v := convolveAtAPoint inImage (x - Kernel.getCtrX kernel) (y - Kernel.getCtrY kernel)
                   kernelImage (Kernel.getWidth kernel) (Kernel.getHeight kernel) in
        if doNormalize then (v / kSum)%Qc else v
      else pix out x y.
Proof.
  intros Hsv (HW & HH & HkW & HkH).
  unfold basicConvolve_general. pass_checks. rewrite Hsv.
  eexists. split; [reflexivity|].
  match goal with
  | |- sameFrame (for_range ?ya ?yb (fun cnvY => for_range ?xa ?xb (@?B cnvY)) out) out /\ _ =>
      pose proof (rect_loop (getWidth out) ya yb xa xb 0 0 B
        (fun x y _ =>
           let '(kernelImage, kSum) :=
             computeImage kernel false (indexToPosition x) (indexToPosition y) in
           let v := convolveAtAPoint inImage (x - Kernel.getCtrX kernel) (y - Kernel.getCtrY kernel)
                      kernelImage (Kernel.getWidth kernel) (Kernel.getHeight kernel) in
           if doNormalize then (v / kSum)%Qc else v)) as HP
  end.
  destruct (HP ltac:(intros j i; cbv beta;
                     destruct (computeImage kernel false (indexToPosition i) (indexToPosition j))
                       as [ki ks];
                     eapply Pointwise_ext; [apply Pointwise_set_then_upd|];
                     intros x y v; cbv beta; reflexivity)
              out eq_refl) as (w & h & o & p).
  split; [repeat split; assumption|].
  intros x y. rewrite p, inValidRegion_iff.
  destruct (_ && _); [|reflexivity]. rewrite !Z.sub_0_r. reflexivity.
Qed.

(** One output row of the general path for a kernel that does not vary:
    the row is zeroed from the first valid column to the end of the row,
    then every kernel row adds its share to the valid columns. *)
Lemma general_row_scalar (W cnvStartX cnvWidth cnvY kWidth kHeight inStartY : Z)
    (inImage : Image) (kI : KernelImage) (x y : Z) (v : Qc) :
  0 <= cnvWidth -> cnvStartX + cnvWidth <= W ->
  for_range 0 kHeight (fun kernelY v =>
    for_range 0 cnvWidth (fun xx v =>
      if (x =? cnvStartX + xx) && (y =? cnvY)
      then for_range 0 kWidth (fun kx loc =>
             let kVal := kI kx kernelY in
             if Qc_eqb kVal 0%Qc then loc
             else (loc + pix inImage (xx + kx) (inStartY + kernelY) * kVal)%Qc) v
      else v) v)
    (for_range cnvStartX W (fun xx v => if (x =? xx) && (y =? cnvY) then 0%Qc else v) v)
  = if y =? cnvY then
      if (cnvStartX <=? x) && (x <? cnvStartX + cnvWidth)
      then convolveAtAPoint inImage (x - cnvStartX) inStartY kI kWidth kHeight
      else if (cnvStartX <=? x) && (x <? W) then 0%Qc else v
    else v.
Proof.
  intros Hw HW.
  destruct (Z.eqb_spec y cnvY) as [->|Hy].
  - destruct ((cnvStartX <=? x) && (x <? cnvStartX + cnvWidth)) eqn:Ex.
    + apply andb_prop in Ex as [Ex1 Ex2]. apply Z.leb_le in Ex1. apply Z.ltb_lt in Ex2.
      rewrite (for_range_hit cnvStartX W x); [|lia|].
      2:{ intros i w Hi Hne. bool_cases; try lia; reflexivity. }
      rewrite !Z.eqb_refl. simpl andb. cbv iota.
      rewrite (for_range_ext 0 kHeight _
                 (fun kernelY acc =>
                    (acc + sum_range 0 kWidth (fun kx =>
                       pix inImage (x - cnvStartX + kx) (inStartY + kernelY) * kI kx kernelY))%Qc)).
      * unfold convolveAtAPoint, sum_range at 2. unfold for_range. reflexivity.
      * intros ky acc Hky.
        rewrite (for_range_hit 0 cnvWidth (x - cnvStartX)); [|lia|].
        2:{ intros i w Hi Hne. bool_cases; try lia; reflexivity. }
        replace (cnvStartX + (x - cnvStartX)) with x by lia.
        rewrite !Z.eqb_refl. simpl andb. cbv iota.
        apply (skip_zero_loop 0 kWidth
                 (fun kx => pix inImage (x - cnvStartX + kx) (inStartY + ky))
                 (fun kx => kI kx ky)).
    + rewrite for_range_miss.
      2:{ intros ky w Hky. apply for_range_miss. intros i u Hi.
          revert Ex. bool_cases; try lia; try reflexivity; discriminate. }
      destruct ((cnvStartX <=? x) && (x <? W)) eqn:Ez.
      * apply andb_prop in Ez as [Ez1 Ez2]. apply Z.leb_le in Ez1. apply Z.ltb_lt in Ez2.
        rewrite (for_range_hit cnvStartX W x); [|lia|].
        -- rewrite Z.eqb_refl. reflexivity.
        -- intros i w Hi Hne. bool_cases; try lia; reflexivity.
      * apply for_range_miss. intros i w Hi.
        revert Ez. bool_cases; try lia; try reflexivity; discriminate.
  - rewrite for_range_miss.
    2:{ intros ky w Hky. apply for_range_miss. intros i u Hi.
        bool_cases; try lia; reflexivity. }
    apply for_range_miss. intros i w Hi. bool_cases; try lia; reflexivity.
Qed.

Lemma Pointwise_general_row W cnvStartX cnvWidth cnvY kWidth kHeight inStartY inImage kI :
  Pointwise W
    (fun convolvedImage =>
       let zeroed :=
         for_range cnvStartX (getWidth convolvedImage) (fun x im => setPix im x cnvY 0%Qc)
           convolvedImage in
       for_range 0 kHeight (fun kernelY =>
         let inY := inStartY + kernelY in
         for_range 0 cnvWidth (fun x im =>
           convolveOneKernelRow im (cnvStartX + x) cnvY inImage x inY kI kernelY kWidth))
         zeroed)
    (fun x y v =>
       for_range 0 kHeight (fun kernelY v =>
         for_range 0 cnvWidth (fun xx v =>
           if (x =? cnvStartX + xx) && (y =? cnvY)
           then for_range 0 kWidth (fun kx loc =>
                  let kVal := kI kx kernelY in
                  if Qc_eqb kVal 0%Qc then loc
                  else (loc + pix inImage (xx + kx) (inStartY + kernelY) * kVal)%Qc) v
           else v) v)
         (for_range cnvStartX W (fun xx v => if (x =? xx) && (y =? cnvY) then 0%Qc else v) v)).
Proof.
  eapply Pointwise_ext.
  - apply (Pointwise_compose W
             (fun im => for_range cnvStartX (getWidth im) (fun x im => setPix im x cnvY 0%Qc) im)
             (for_range 0 kHeight (fun kernelY =>
                for_range 0 cnvWidth (fun x im =>
                  convolveOneKernelRow im (cnvStartX + x) cnvY inImage x (inStartY + kernelY)
                    kI kernelY kWidth)))
             (fun x y v =>
                for_range cnvStartX W (fun xx v => if (x =? xx) && (y =? cnvY) then 0%Qc else v) v)
             (fun x y v =>
                for_range 0 kHeight (fun kernelY v =>
                  for_range 0 cnvWidth (fun xx v =>
                    if (x =? cnvStartX + xx) && (y =? cnvY)
                    then for_range 0 kWidth (fun kx loc =>
                           let kVal := kI kx kernelY in
                           if Qc_eqb kVal 0%Qc then loc
                           else (loc + pix inImage (xx + kx) (inStartY + kernelY) * kVal)%Qc) v
                    else v) v) v)).
    + apply (Pointwise_width W (fun w => for_range cnvStartX w (fun x im => setPix im x cnvY 0%Qc))).
      apply (Pointwise_for_range W cnvStartX W (fun x im => setPix im x cnvY 0%Qc)
               (fun xx x y v => if (x =? xx) && (y =? cnvY) then 0%Qc else v)).
      intros i _. apply Pointwise_setPix.
    + apply (Pointwise_for_range W 0 kHeight
               (fun kernelY =>
                  for_range 0 cnvWidth (fun x im =>
                    convolveOneKernelRow im (cnvStartX + x) cnvY inImage x (inStartY + kernelY)
                      kI kernelY kWidth))
               (fun kernelY x y v =>
                  for_range 0 cnvWidth (fun xx v =>
                    if (x =? cnvStartX + xx) && (y =? cnvY)
                    then for_range 0 kWidth (fun kx loc =>
                           let kVal := kI kx kernelY in
                           if Qc_eqb kVal 0%Qc then loc
                           else (loc + pix inImage (xx + kx) (inStartY + kernelY) * kVal)%Qc) v
                    else v) v)).
      intros ky _.
      apply (Pointwise_for_range W 0 cnvWidth
               (fun x im =>
                  convolveOneKernelRow im (cnvStartX + x) cnvY inImage x (inStartY + ky)
                    kI ky kWidth)
               (fun xx x y v =>
                  if (x =? cnvStartX + xx) && (y =? cnvY)
                  then for_range 0 kWidth (fun kx loc =>
                         let kVal := kI kx ky in
                         if Qc_eqb kVal 0%Qc then loc
                         else (loc + pix inImage (xx + kx) (inStartY + ky) * kVal)%Qc) v
                  else v)).
      intros xx _. unfold convolveOneKernelRow. cbv zeta.
      apply (Pointwise_rmw W (cnvStartX + xx) cnvY
               (fun v => for_range 0 kWidth (fun kx loc =>
                           if Qc_eqb (kI kx ky) 0%Qc then loc
                           else (loc + pix inImage (xx + kx) (inStartY + ky) * kI kx ky)%Qc) v)).
  - intros x y v. reflexivity.
Qed.

Lemma basicConvolve_general_invariant_pixels {utils : ImageUtils} inImage kernel doNormalize out :
  Kernel.isSpatiallyVarying kernel = false ->
  convolvable out inImage kernel ->
  Kernel.getCtrX kernel < Kernel.getWidth kernel ->
  exists out',
    basicConvolve_general inImage kernel doNormalize out = Ok tt out' /\
    sameFrame out' out /\
    forall x y,
      pix out' x y =
      if (Kernel.getCtrY kernel <=? y) &&
         (y <=? getHeight inImage - 1 - (Kernel.getHeight kernel - 1 - Kernel.getCtrY kernel))
      then
        if (Kernel.getCtrX kernel <=? x) &&
           (x <=? getWidth inImage - 1 - (Kernel.getWidth kernel - 1 - Kernel.getCtrX kernel))
        then convolveAtAPoint inImage (x - Kernel.getCtrX kernel) (y - Kernel.getCtrY kernel)
               (fst (computeImage kernel doNormalize 0%Qc 0%Qc))
               (Kernel.getWidth kernel) (Kernel.getHeight kernel)
        else if (Kernel.getCtrX kernel <=? x) && (x <? getWidth inImage) then 0%Qc
             else pix out x y
      else pix out x y.
Proof.
  intros Hsv (HW & HH & HkW & HkH) Hctr.
  unfold basicConvolve_general. pass_checks. rewrite Hsv.
  eexists. split; [reflexivity|].
  set (kI := fst (computeImage kernel doNormalize 0%Qc 0%Qc)).
  set (cnvWidth := getWidth inImage + 1 - Kernel.getWidth kernel).
  set (cnvHeight := getHeight inImage + 1 - Kernel.getHeight kernel).
  match goal with
  | |- sameFrame (for_range 0 cnvHeight ?B out) out /\ _ =>
      pose proof (Pointwise_for_range (getWidth out) 0 cnvHeight B
        (fun j x y v =>
           if y =? Kernel.getCtrY kernel + j then
             if (Kernel.getCtrX kernel <=? x) && (x <? Kernel.getCtrX kernel + cnvWidth)
             then convolveAtAPoint inImage (x - Kernel.getCtrX kernel) j kI
                    (Kernel.getWidth kernel) (Kernel.getHeight kernel)
             else if (Kernel.getCtrX kernel <=? x) && (x <? getWidth out) then 0%Qc else v
           else v)) as HP
  end.
  destruct (HP ltac:(intros j _; eapply Pointwise_ext; [apply Pointwise_general_row|];
                     intros x y v; apply general_row_scalar; subst cnvWidth; lia)
              out eq_refl) as (w & h & o & p).
  split; [repeat split; assumption|].
  intros x y. rewrite p. clear p HP. cbv beta.
  destruct ((Kernel.getCtrY kernel <=? y) &&
            (y <=? getHeight inImage - 1 - (Kernel.getHeight kernel - 1 - Kernel.getCtrY kernel))) eqn:Ey.
  - apply andb_prop in Ey as [Ey1 Ey2]. apply Z.leb_le in Ey1, Ey2.
    rewrite (for_range_hit 0 cnvHeight (y - Kernel.getCtrY kernel)); [|subst cnvHeight; lia|].
    2:{ intros j v Hj Hne. destruct (Z.eqb_spec y (Kernel.getCtrY kernel + j)); [lia|reflexivity]. }
    replace (Kernel.getCtrY kernel + (y - Kernel.getCtrY kernel)) with y by lia.
    rewrite Z.eqb_refl, HW. subst cnvWidth.
    bool_cases; try lia; reflexivity.
  - apply for_range_miss. intros j v Hj.
    destruct (Z.eqb_spec y (Kernel.getCtrY kernel + j)); [|reflexivity].
    subst cnvHeight. revert Ey. bool_cases; try lia; discriminate.
Qed.

(** ** The border filler, pixel by pixel *)

Lemma to_unsigned_small z : 0 <= z < 2 ^ 32 -> to_unsigned z = z.
Proof. intros H. unfold to_unsigned. now apply Z.mod_small. Qed.

Lemma to_int_small z : 0 <= z < 2 ^ 31 -> to_int z = z.
Proof.
  intros H. unfold to_int. rewrite Z.mod_small by lia.
  destruct (Z.ltb_spec z (2 ^ 31)); [reflexivity|lia].
Qed.

Ltac edge_side := (unfold anchored, intDimensions in *; lia).

Lemma bottomEdge_plain inImage kernel :
  intDimensions inImage -> anchored kernel ->
  Kernel.getWidth kernel <= getWidth inImage -> Kernel.getHeight kernel <= getHeight inImage ->
  bottomEdge inImage kernel = mkBBox 0 0 (getWidth inImage) (Kernel.getCtrY kernel).
Proof.
  intros Hint Hanchor HkW HkH. unfold bottomEdge.
  rewrite !to_unsigned_small by edge_side.
  rewrite !to_int_small by edge_side. reflexivity.
Qed.

Lemma topEdge_plain inImage kernel :
  intDimensions inImage -> anchored kernel ->
  Kernel.getWidth kernel <= getWidth inImage -> Kernel.getHeight kernel <= getHeight inImage ->
  topEdge inImage kernel =
  mkBBox 0 (getHeight inImage - (Kernel.getHeight kernel - 1 - Kernel.getCtrY kernel))
    (getWidth inImage) (Kernel.getHeight kernel - 1 - Kernel.getCtrY kernel).
Proof.
  intros Hint Hanchor HkW HkH. unfold topEdge.
  set (W := getWidth inImage) in *. set (H := getHeight inImage) in *.
  set (kH := Kernel.getHeight kernel) in *. set (cY := Kernel.getCtrY kernel) in *.
  rewrite (to_unsigned_small W), (to_unsigned_small H), (to_unsigned_small kH),
    (to_unsigned_small cY) by edge_side.
  rewrite (to_unsigned_small (1 + cY)) by edge_side.
  rewrite (to_unsigned_small (kH - (1 + cY))) by edge_side.
  rewrite (to_int_small (kH - (1 + cY))) by edge_side.
  rewrite (to_unsigned_small (kH - (1 + cY))) by edge_side.
  rewrite (to_unsigned_small (H - (kH - (1 + cY)))) by edge_side.
  rewrite !to_int_small by edge_side.
  f_equal; lia.
Qed.

Lemma leftEdge_plain inImage kernel :
  intDimensions inImage -> anchored kernel ->
  Kernel.getWidth kernel <= getWidth inImage -> Kernel.getHeight kernel <= getHeight inImage ->
  leftEdge inImage kernel =
  mkBBox 0 (Kernel.getCtrY kernel) (Kernel.getCtrX kernel)
    (getHeight inImage + 1 - Kernel.getHeight kernel).
Proof.
  intros Hint Hanchor HkW HkH. unfold leftEdge.
  set (W := getWidth inImage) in *. set (H := getHeight inImage) in *.
  set (kH := Kernel.getHeight kernel) in *. set (cY := Kernel.getCtrY kernel) in *.
  set (kW := Kernel.getWidth kernel) in *. set (cX := Kernel.getCtrX kernel) in *.
  rewrite (to_unsigned_small H), (to_unsigned_small kH), (to_unsigned_small cX),
    (to_unsigned_small cY) by edge_side.
  rewrite (to_unsigned_small (H + 1)) by edge_side.
  rewrite (to_unsigned_small (H + 1 - kH)) by edge_side.
  rewrite !to_int_small by edge_side.
  reflexivity.
Qed.

Lemma rightEdge_plain inImage kernel :
  intDimensions inImage -> anchored kernel ->
  Kernel.getWidth kernel <= getWidth inImage -> Kernel.getHeight kernel <= getHeight inImage ->
  rightEdge inImage kernel =
  mkBBox (getWidth inImage - (Kernel.getWidth kernel - 1 - Kernel.getCtrX kernel))
    (Kernel.getCtrY kernel) (Kernel.getWidth kernel - 1 - Kernel.getCtrX kernel)
    (getHeight inImage + 1 - Kernel.getHeight kernel).
Proof.
  intros Hint Hanchor HkW HkH. unfold rightEdge.
  set (W := getWidth inImage) in *. set (H := getHeight inImage) in *.
  set (kH := Kernel.getHeight kernel) in *. set (cY := Kernel.getCtrY kernel) in *.
  set (kW := Kernel.getWidth kernel) in *. set (cX := Kernel.getCtrX kernel) in *.
  rewrite (to_unsigned_small W), (to_unsigned_small H), (to_unsigned_small kW),
    (to_unsigned_small kH), (to_unsigned_small cX), (to_unsigned_small cY) by edge_side.
  rewrite (to_unsigned_small (1 + cX)) by edge_side.
  rewrite (to_unsigned_small (H + 1)) by edge_side.
  rewrite (to_unsigned_small (H + 1 - kH)) by edge_side.
  rewrite (to_unsigned_small (kW - (1 + cX))) by edge_side.
  rewrite (to_int_small (kW - (1 + cX))) by edge_side.
  rewrite (to_unsigned_small (kW - (1 + cX))) by edge_side.
  rewrite (to_unsigned_small (W - (kW - (1 + cX)))) by edge_side.
  rewrite !to_int_small by edge_side.
  f_equal; lia.
Qed.

Lemma copyRegion_pixels inImage region orMask out :
  fitsIn region out = true -> fitsIn region inImage = true ->
  exists out',
    copyRegion inImage region orMask out = Ok tt out' /\
    sameFrame out' out /\
    forall x y, pix out' x y = if inBBox region x y then pix inImage x y else pix out x y.
Proof.
  intros Hout Hin. unfold copyRegion, bind, throw_if, modify. rewrite Hout, Hin. simpl negb. cbv iota.
  eexists. split; [reflexivity|].
  pose proof (rect_loop (getWidth out) 0 (bboxHeight region) 0 (bboxWidth region)
                (getMinX region) (getMinY region)
                (fun j i outImage =>
                   setPix outImage (getMinX region + i) (getMinY region + j)
                     (pix inImage (getMinX region + i) (getMinY region + j)))
                (fun i j _ => pix inImage (getMinX region + i) (getMinY region + j))) as HP.
  destruct (HP ltac:(intros j i; apply Pointwise_setPix) out eq_refl) as (w & h & o & p).
  split; [repeat split; assumption|].
  intros x y. rewrite p. unfold inBBox. rewrite !Z.add_0_r.
  destruct (_ && _); [|reflexivity]. f_equal; lia.
Qed.

Lemma fitsIn_sameFrame region a b : sameFrame a b -> fitsIn region a = fitsIn region b.
Proof. intros (w & h & _). unfold fitsIn. now rewrite w, h. Qed.

Lemma sameFrame_trans a b c : sameFrame a b -> sameFrame b c -> sameFrame a c.
Proof. intros (? & ? & ?) (? & ? & ?). repeat split; congruence. Qed.

Lemma copyBorder_pixels inImage kernel edgeBit out :
  convolvable out inImage kernel -> anchored kernel -> intDimensions inImage ->
  exists out',
    copyBorder inImage kernel edgeBit out = Ok tt out' /\
    sameFrame out' out /\
    forall x y,
      pix out' x y = if inBorderStrips inImage kernel x y then pix inImage x y else pix out x y.
Proof.
  intros (HW & HH & HkW & HkH) Hanc Hint.
  pose proof (bottomEdge_plain inImage kernel Hint Hanc HkW HkH) as Eb.
  pose proof (topEdge_plain inImage kernel Hint Hanc HkW HkH) as Et.
  pose proof (leftEdge_plain inImage kernel Hint Hanc HkW HkH) as El.
  pose proof (rightEdge_plain inImage kernel Hint Hanc HkW HkH) as Er.
  destruct Hint as [Hw Hh], Hanc as [Hx Hy].
  assert (Fb : fitsIn (bottomEdge inImage kernel) inImage = true)
    by (rewrite Eb; unfold fitsIn; simpl; bool_cases; try lia; reflexivity).
  assert (Ft : fitsIn (topEdge inImage kernel) inImage = true)
    by (rewrite Et; unfold fitsIn; simpl; bool_cases; try lia; reflexivity).
  assert (Fl : fitsIn (leftEdge inImage kernel) inImage = true)
    by (rewrite El; unfold fitsIn; simpl; bool_cases; try lia; reflexivity).
  assert (Fr : fitsIn (rightEdge inImage kernel) inImage = true)
    by (rewrite Er; unfold fitsIn; simpl; bool_cases; try lia; reflexivity).
  assert (Fo : forall im region, getWidth im = getWidth inImage -> getHeight im = getHeight inImage ->
                 fitsIn region inImage = true -> fitsIn region im = true).
  { intros im region w h F. unfold fitsIn in *. now rewrite w, h. }
  unfold copyBorder.
  set (m := if edgeBit <? 0 then 0 else Z.shiftl 1 edgeBit).
  destruct (copyRegion_pixels inImage (bottomEdge inImage kernel) m out
              (Fo out _ HW HH Fb) Fb) as (o1 & E1 & (w1 & h1 & x1) & p1).
  destruct (copyRegion_pixels inImage (topEdge inImage kernel) m o1
              (Fo o1 _ ltac:(congruence) ltac:(congruence) Ft) Ft) as (o2 & E2 & (w2 & h2 & x2) & p2).
  destruct (copyRegion_pixels inImage (leftEdge inImage kernel) m o2
              (Fo o2 _ ltac:(congruence) ltac:(congruence) Fl) Fl) as (o3 & E3 & (w3 & h3 & x3) & p3).
  destruct (copyRegion_pixels inImage (rightEdge inImage kernel) m o3
              (Fo o3 _ ltac:(congruence) ltac:(congruence) Fr) Fr) as (o4 & E4 & (w4 & h4 & x4) & p4).
  exists o4. split.
  - unfold bind. rewrite E1, E2, E3. exact E4.
  - split; [repeat split; congruence|].
    intros x y. rewrite p4, p3, p2, p1. unfold inBorderStrips.
    destruct (inBBox (bottomEdge inImage kernel) x y), (inBBox (topEdge inImage kernel) x y),
      (inBBox (leftEdge inImage kernel) x y), (inBBox (rightEdge inImage kernel) x y); reflexivity.
Qed.

Ltac bool_to_prop :=
  repeat (rewrite ?andb_true_iff, ?orb_true_iff, ?negb_true_iff, ?andb_false_iff, ?orb_false_iff,
            ?Z.leb_le, ?Z.ltb_lt, ?Z.leb_gt, ?Z.ltb_ge, ?Z.eqb_eq, ?Z.eqb_neq in *).

(** Inside the image the four boxes cover the complement of the valid
    region, and no pixel lies in two of them. *)
Lemma strips_cover_border inImage kernel x y :
  anchored kernel -> intDimensions inImage ->
  Kernel.getWidth kernel <= getWidth inImage -> Kernel.getHeight kernel <= getHeight inImage ->
  inBorderStrips inImage kernel x y = inImageBounds inImage x y && negb (inValidRegion inImage kernel x y).
Proof.
  intros Hanc Hint HkW HkH. unfold inBorderStrips.
  rewrite (bottomEdge_plain inImage kernel Hint Hanc HkW HkH),
    (topEdge_plain inImage kernel Hint Hanc HkW HkH),
    (leftEdge_plain inImage kernel Hint Hanc HkW HkH),
    (rightEdge_plain inImage kernel Hint Hanc HkW HkH).
  destruct Hint as [Hw Hh], Hanc as [Hx Hy].
  unfold inBBox, inImageBounds, inValidRegion. simpl.
  apply eq_true_iff_eq. bool_to_prop. lia.
Qed.

Lemma strips_disjoint inImage kernel x y :
  anchored kernel -> intDimensions inImage ->
  Kernel.getWidth kernel <= getWidth inImage -> Kernel.getHeight kernel <= getHeight inImage ->
  stripCount inImage kernel x y = if inBorderStrips inImage kernel x y then 1%nat else 0%nat.
Proof.
  intros Hanc Hint HkW HkH. unfold inBorderStrips, stripCount.
  rewrite (bottomEdge_plain inImage kernel Hint Hanc HkW HkH),
    (topEdge_plain inImage kernel Hint Hanc HkW HkH),
    (leftEdge_plain inImage kernel Hint Hanc HkW HkH),
    (rightEdge_plain inImage kernel Hint Hanc HkW HkH).
  destruct Hint as [Hw Hh], Hanc as [Hx Hy]. simpl filter.
  match goal with
  | |- _ = (if ?b1 || ?b2 || ?b3 || ?b4 then _ else _) =>
      destruct b1 eqn:E1; destruct b2 eqn:E2; destruct b3 eqn:E3; destruct b4 eqn:E4
  end;
    try reflexivity; exfalso; unfold inBBox in *; simpl in *; bool_to_prop; lia.
Qed.

(** ** Claims about [basicConvolve] and the border *)

(** C1 (the code departs from the claim).  The claim: [basicConvolve] writes
    exactly the valid region and every pixel outside it keeps its value.  On
    the path for kernels that do not vary, each convolved row is zeroed from
    the first valid column to the end of the row: with the row 1, 2, 3, the
    kernel (1, 1) anchored at 0 and an output row of sevens, pixel (2, 0) lies
    outside the valid region [0, 1] x [0, 0] and yet ends up 0. *)
Theorem C1_general_path_zeroes_right_border :
  basicConvolve (utils := originAtZero) rampRow boxKernel false sevensRow
    = Ok tt (outputOf (basicConvolve (utils := originAtZero) rampRow boxKernel false sevensRow)) /\
  convolvable sevensRow rampRow boxKernel /\
  inValidRegion rampRow boxKernel 2 0 = false /\
  pix sevensRow 2 0 = ofZ 7 /\
  pix (outputOf (basicConvolve (utils := originAtZero) rampRow boxKernel false sevensRow)) 2 0 = 0%Qc /\
  pix (outputOf (basicConvolve (utils := originAtZero) rampRow boxKernel false sevensRow)) 0 0 = ofZ 3 /\
  pix (outputOf (basicConvolve (utils := originAtZero) rampRow boxKernel false sevensRow)) 1 0 = ofZ 5.
Proof.
  split; [reflexivity|]. split; [unfold convolvable; simpl; lia|].
  split; [reflexivity|]. split; [reflexivity|].
  repeat split; vm_compute; apply Qc_is_canon; reflexivity.
Qed.

(** C2 (the code departs from the claim).  The claim: for a kernel that does
    not vary, the separable fast path and the general path on the same
    weights give the same output image.  On the inputs of C1 the separable
    path leaves pixel (2, 0) at 7 while the general path zeroes it; on the
    valid pixels the two agree. *)
Theorem C2_separable_and_general_paths_differ :
  let fast := outputOf (basicConvolve (utils := originAtZero) rampRow separableBoxKernel false sevensRow) in
  let general :=
    outputOf (basicConvolve (utils := originAtZero) rampRow (asDenseKernel separableBoxKernel) false sevensRow) in
  pix fast 2 0 = ofZ 7 /\ pix general 2 0 = 0%Qc /\ pix fast 2 0 <> pix general 2 0 /\
  pix fast 0 0 = pix general 0 0 /\ pix fast 1 0 = pix general 1 0.
Proof.
  cbv zeta.
  assert (E1 : pix (outputOf (basicConvolve (utils := originAtZero) rampRow separableBoxKernel
                                false sevensRow)) 2 0
               = ofZ 7) by (vm_compute; apply Qc_is_canon; reflexivity).
  assert (E2 : pix (outputOf (basicConvolve (utils := originAtZero) rampRow
                                (asDenseKernel separableBoxKernel) false sevensRow)) 2 0
               = 0%Qc) by (vm_compute; apply Qc_is_canon; reflexivity).
  split; [exact E1|]. split; [exact E2|]. split.
  - rewrite E1, E2. intros E. discriminate E.
  - split; vm_compute; apply Qc_is_canon; reflexivity.
Qed.

(** C9, counterexample.  The claim has each of the four strips span the full
    orthogonal extent of the image, so that corner pixels are written twice.
    For a 5 x 5 image and a 3 x 3 kernel anchored at (1, 1) the left and
    right strips start at row 1 and are 3 rows high, and the corner pixel
    (0, 0) lies in the bottom strip only. *)
Lemma C9_side_strips_do_not_span_the_height :
  ~ (bboxHeight (leftEdge fiveByFive threeByThree) = getHeight fiveByFive /\
     bboxHeight (rightEdge fiveByFive threeByThree) = getHeight fiveByFive /\
     stripCount fiveByFive threeByThree 0 0 = 2%nat).
Proof. vm_compute. intros (E & _). discriminate E. Qed.

(** C9, amended.  [copyBorder] copies source pixels into four boxes: a bottom
    strip of height ctrY and a top strip of height kH-1-ctrY, both as wide as
    the image; a left strip of width ctrX and a right strip of width
    kW-1-ctrX, both covering only the rows between the bottom and the top
    strip.  No pixel lies in two boxes, so every border pixel is written
    once; the union of the boxes is the part of the image outside the valid
    region, which receives the input pixels, and no other pixel changes. *)
Theorem C9_copyBorder_strips inImage kernel edgeBit out :
  convolvable out inImage kernel -> anchored kernel -> intDimensions inImage ->
  bottomEdge inImage kernel = mkBBox 0 0 (getWidth inImage) (Kernel.getCtrY kernel) /\
  topEdge inImage kernel =
    mkBBox 0 (getHeight inImage - (Kernel.getHeight kernel - 1 - Kernel.getCtrY kernel))
      (getWidth inImage) (Kernel.getHeight kernel - 1 - Kernel.getCtrY kernel) /\
  leftEdge inImage kernel =
    mkBBox 0 (Kernel.getCtrY kernel) (Kernel.getCtrX kernel)
      (getHeight inImage + 1 - Kernel.getHeight kernel) /\
  rightEdge inImage kernel =
    mkBBox (getWidth inImage - (Kernel.getWidth kernel - 1 - Kernel.getCtrX kernel))
      (Kernel.getCtrY kernel) (Kernel.getWidth kernel - 1 - Kernel.getCtrX kernel)
      (getHeight inImage + 1 - Kernel.getHeight kernel) /\
  (forall x y,
     stripCount inImage kernel x y =
     if inImageBounds inImage x y && negb (inValidRegion inImage kernel x y) then 1%nat else 0%nat) /\
  exists out',
    copyBorder inImage kernel edgeBit out = Ok tt out' /\
    forall x y,
      pix out' x y =
      if inImageBounds inImage x y && negb (inValidRegion inImage kernel x y)
      then pix inImage x y else pix out x y.
Proof.
  intros Hc Hanc Hint. pose proof Hc as (HW & HH & HkW & HkH).
  split; [now apply bottomEdge_plain|]. split; [now apply topEdge_plain|].
  split; [now apply leftEdge_plain|]. split; [now apply rightEdge_plain|].
  split.
  - intros x y. rewrite strips_disjoint by assumption.
    now rewrite strips_cover_border by assumption.
  - destruct (copyBorder_pixels inImage kernel edgeBit out Hc Hanc Hint) as (out' & E & _ & p).
    exists out'. split; [exact E|]. intros x y. rewrite p.
    now rewrite strips_cover_border by assumption.
Qed.

Lemma C9_copyBorder_strips_witness :
  stripCount fiveByFive threeByThree 0 0 = 1%nat /\
  stripCount fiveByFive threeByThree 2 2 = 0%nat.
Proof.
  destruct (C9_copyBorder_strips fiveByFive threeByThree (-1) fiveByFive) as (_ & _ & _ & _ & Hcount & _).
  - unfold convolvable. simpl. lia.
  - unfold anchored. simpl. lia.
  - unfold intDimensions. simpl. lia.
  - split; rewrite Hcount; reflexivity.
Defined.

(** ** Exceptions *)

Lemma basicConvolve_general_ok {utils : ImageUtils} inImage kernel doNormalize out :
  convolvable out inImage kernel ->
  exists out', basicConvolve_general inImage kernel doNormalize out = Ok tt out' /\ sameFrame out' out.
Proof.
  intros Hc. destruct (Kernel.isSpatiallyVarying kernel) eqn:Hsv.
  - destruct (basicConvolve_general_varying_pixels inImage kernel doNormalize out Hsv Hc)
      as (out' & E & F & _). eauto.
  - destruct Hc as (HW & HH & HkW & HkH).
    unfold basicConvolve_general. pass_checks. rewrite Hsv.
    eexists. split; [reflexivity|].
    match goal with
    | |- sameFrame (for_range ?a ?b ?B out) out =>
        pose proof (Pointwise_for_range (getWidth out) a b B) as HP
    end.
    edestruct HP as (w & h & o & _); [|reflexivity|repeat split; eassumption].
    intros j _. apply Pointwise_general_row.
Qed.

Lemma basicConvolve_ok {utils : ImageUtils} inImage kernel doNormalize out :
  convolvable out inImage kernel ->
  (forall pixel, Kernel.shape kernel = ShapeDeltaFunction pixel ->
                 Kernel.isSpatiallyVarying kernel = false) ->
  exists out', basicConvolve inImage kernel doNormalize out = Ok tt out' /\ sameFrame out' out.
Proof.
  intros Hc Hd. unfold basicConvolve. destruct (Kernel.shape kernel) eqn:Es.
  - now apply basicConvolve_general_ok.
  - destruct (basicConvolve_DeltaFunctionKernel_pixels inImage kernel pixel doNormalize out
                (Hd pixel eq_refl) Hc) as (out' & E & F & _). eauto.
  - destruct (basicConvolve_SeparableKernel_pixels inImage kernel kernelColFunction
                kernelRowFunction doNormalize out Hc) as (out' & E & F & _). eauto.
  - now apply basicConvolve_general_ok.
Qed.

(** Every [throw] of [basicConvolve] comes before its first write. *)
Lemma basicConvolve_throw {utils : ImageUtils} inImage kernel doNormalize out e out' :
  basicConvolve inImage kernel doNormalize out = Throw e out' -> out' = out.
Proof.
  unfold basicConvolve, basicConvolve_general, basicConvolve_DeltaFunctionKernel,
    basicConvolve_SeparableKernel, bind, throw_if, modify.
  destruct (Kernel.shape kernel);
    repeat match goal with
    | |- context [if ?c then _ else _] => destruct c
    | |- context [match ?c with pair _ _ => _ end] => destruct c
    end; intros E; inversion E; reflexivity.
Qed.

Lemma copyRegion_throw inImage region orMask out e out' :
  copyRegion inImage region orMask out = Throw e out' -> e = LengthErrorException.
Proof.
  unfold copyRegion, bind, throw_if, modify.
  repeat match goal with
  | |- context [if ?c then _ else _] => destruct c
  end; intros E; inversion E; reflexivity.
Qed.

Lemma bind_throw {A B} (m : M A) (f : A -> M B) out e out' :
  bind m f out = Throw e out' ->
  m out = Throw e out' \/ exists a mid, m out = Ok a mid /\ f a mid = Throw e out'.
Proof.
  unfold bind. destruct (m out) as [a mid|e1 o1]; intros E.
  - right. eauto.
  - left. inversion E. reflexivity.
Qed.

Lemma copyBorder_throw inImage kernel edgeBit out e out' :
  copyBorder inImage kernel edgeBit out = Throw e out' -> e = LengthErrorException.
Proof.
  unfold copyBorder. intros E.
  do 3 (apply bind_throw in E; destruct E as [E|(? & ? & _ & E)];
        [exact (copyRegion_throw _ _ _ _ _ _ E)|cbv beta in E]).
  exact (copyRegion_throw _ _ _ _ _ _ E).
Qed.

(** The loop over the basis kernels runs to its end once the checks of
    [convolveLinear] have passed. *)
Lemma convolveLinear_bases_ok {utils : ImageUtils} inImage kernel terms basisImage out :
  convolvable basisImage inImage kernel ->
  exists out', convolveLinear_bases inImage kernel terms basisImage out = Ok tt out'.
Proof.
  revert basisImage out. induction terms as [|[b f] rest IH]; intros basisImage out Hc.
  - eexists. reflexivity.
  - simpl.
    destruct (basicConvolve_ok inImage (basisKernelOf kernel b) false basisImage)
      as (bi' & E & (w & h & o)).
    + exact Hc.
    + intros pixel _. reflexivity.
    + rewrite E. unfold bind, modify.
      apply IH. destruct Hc as (HW & HH & HkW & HkH). repeat split; try congruence; assumption.
Qed.

Lemma dims_lt_false_inv a b : dims_lt a b = false -> fst b <= fst a /\ snd b <= snd a.
Proof. unfold dims_lt. intros E. bool_to_prop. lia. Qed.

(** C10.  Whenever [basicConvolve], [convolveLinear] or
    [convolveWithInterpolation] throws its precondition exception (output and
    input of unequal dimensions, input smaller than the kernel), the output
    image is the one the call received: every such check comes before the
    first write. *)
Theorem C10_precondition_failure_leaves_output {utils : ImageUtils}
    inImage kernel doNormalize edgeBit convolutionControl out out' :
  basicConvolve inImage kernel doNormalize out = Throw InvalidParameterException out' \/
  convolveLinear inImage kernel edgeBit out = Throw InvalidParameterException out' \/
  convolveWithInterpolation inImage kernel convolutionControl out
    = Throw InvalidParameterException out' ->
  out' = out.
Proof.
  intros [E|[E|E]].
  - exact (basicConvolve_throw _ _ _ _ _ _ E).
  - unfold convolveLinear in E.
    destruct (Kernel.isSpatiallyVarying kernel);
      [change (negb true) with false in E|change (negb false) with true in E]; cbv iota in E.
    + unfold bind, throw_if, modify in E.
      destruct (dims_ne (getDimensions out) (getDimensions inImage)) eqn:Ene;
        [inversion E; reflexivity|].
      destruct (dims_lt (getDimensions inImage) (Kernel.getDimensions kernel)) eqn:Elt;
        [inversion E; reflexivity|].
      apply dims_lt_false_inv in Elt. simpl in Elt.
      match type of E with
      | context [convolveLinear_bases inImage kernel ?terms ?bi ?o] =>
          destruct (convolveLinear_bases_ok inImage kernel terms bi o) as (o' & Eb)
      end.
      * unfold convolvable. simpl. lia.
      * rewrite Eb in E. apply copyBorder_throw in E. discriminate E.
    + unfold convolve in E. apply bind_throw in E. destruct E as [E|(a & mid & _ & E)].
      * exact (basicConvolve_throw _ _ _ _ _ _ E).
      * apply copyBorder_throw in E. discriminate E.
  - unfold convolveWithInterpolation, shrinkBBox, bind, throw_if, modify, ret in E.
    repeat match type of E with
    | context [if ?c then _ else _] => destruct c
    end; inversion E; reflexivity.
Qed.

Lemma C10_precondition_failure_leaves_output_witness :
  basicConvolve (utils := originAtZero) rampRow boxKernel false shortRow
    = Throw InvalidParameterException
        (outputOf (basicConvolve (utils := originAtZero) rampRow boxKernel false shortRow)) /\
  outputOf (basicConvolve (utils := originAtZero) rampRow boxKernel false shortRow) = shortRow.
Proof.
  split; [reflexivity|].
  apply (C10_precondition_failure_leaves_output (utils := originAtZero) rampRow boxKernel false 0
           (mkConvolutionControl false 10) shortRow).
  left. reflexivity.
Defined.

(** ** The interpolation grid *)

Lemma subregion_extent length d i :
  0 <= length -> 0 < d -> 0 <= i ->
  subregionBoundary length (1 + length / d) (i + 1) - subregionBoundary length (1 + length / d) i <= d.
Proof.
  intros Hl Hd Hi. unfold subregionBoundary.
  set (n := 1 + length / d).
  assert (Hn : 0 < n) by (subst n; pose proof (Z.div_pos length d Hl Hd); lia).
  assert (Hlt : length < n * d).
  { subst n. pose proof (Z.mod_pos_bound length d Hd). pose proof (Z.div_mod length d). nia. }
  pose proof (Z.div_mod ((i + 1) * length) n ltac:(lia)) as E1.
  pose proof (Z.mod_pos_bound ((i + 1) * length) n Hn) as B1.
  pose proof (Z.div_mod (i * length) n ltac:(lia)) as E0.
  pose proof (Z.mod_pos_bound (i * length) n Hn) as B0.
  nia.
Qed.

(** C7.  For a valid area of width W and height H and a positive
    maxInterpolationDistance d the grid has nx = 1 + floor(W / d) columns and
    ny = 1 + floor(H / d) rows, and every sub-region of the grid is at most d
    wide and at most d high. *)
Theorem C7_grid_of_subregions goodRegion d :
  0 <= bboxWidth (getBBox goodRegion) -> 0 <= bboxHeight (getBBox goodRegion) -> 0 < d ->
  let nx := numSubregions (bboxWidth (getBBox goodRegion)) d in
  let ny := numSubregions (bboxHeight (getBBox goodRegion)) d in
  nx = 1 + bboxWidth (getBBox goodRegion) / d /\
  ny = 1 + bboxHeight (getBBox goodRegion) / d /\
  Z.of_nat (length (computeRows goodRegion nx ny)) = ny /\
  forall regionRow, In regionRow (computeRows goodRegion nx ny) ->
    Z.of_nat (length regionRow) = nx /\
    forall region, In region regionRow ->
      bboxWidth (getBBox region) <= d /\ bboxHeight (getBBox region) <= d.
Proof.
  intros HW HH Hd. cbv zeta. unfold numSubregions.
  rewrite !Z.quot_div_nonneg by lia.
  pose proof (Z.div_pos (bboxWidth (getBBox goodRegion)) d HW Hd).
  pose proof (Z.div_pos (bboxHeight (getBBox goodRegion)) d HH Hd).
  split; [reflexivity|]. split; [reflexivity|]. split.
  - unfold computeRows. rewrite length_map. apply length_indices. lia.
  - intros regionRow Hrow. unfold computeRows in Hrow.
    apply in_map_iff in Hrow as (iy & <- & Hiy). split.
    + rewrite length_map. apply length_indices. lia.
    + intros region Hrgn. apply in_map_iff in Hrgn as (ix & <- & Hix). simpl.
      unfold indices in Hiy, Hix.
      apply in_map_iff in Hiy as (ny' & <- & _). apply in_map_iff in Hix as (nx' & <- & _).
      split; apply subregion_extent; lia.
Qed.

Lemma C7_grid_of_subregions_witness :
  numSubregions 10 4 = 3 /\ numSubregions 7 4 = 2 /\
  map (map (fun r => (bboxWidth (getBBox r), bboxHeight (getBBox r))))
      (computeRows tenBySeven (numSubregions 10 4) (numSubregions 7 4))
  = [[(3, 3); (3, 3); (4, 3)]; [(3, 4); (3, 4); (4, 4)]].
Proof.
  destruct (C7_grid_of_subregions tenBySeven 4) as (Ex & Ey & _); simpl; try lia.
  split; [exact Ex|]. split; [exact Ey|]. reflexivity.
Defined.

(** ** The interpolated path and [doNormalize] *)

Lemma fold_left_map_ext {A B C} (f g : B -> C) (step : A -> C -> A) (l : list B) (a : A) :
  (forall b s, step s (f b) = step s (g b)) ->
  fold_left step (map f l) a = fold_left step (map g l) a.
Proof.
  intros E. revert a. induction l as [|b l IH]; intros a; [reflexivity|].
  simpl. rewrite E. apply IH.
Qed.

(** C8.  The interpolated path performs no normalization: the outcome of
    [convolveWithInterpolation] is the same whether the control asks for
    [doNormalize] or not. *)
Theorem C8_interpolation_ignores_doNormalize {utils : ImageUtils} inImage kernel d out :
  convolveWithInterpolation inImage kernel (mkConvolutionControl true d) out
  = convolveWithInterpolation inImage kernel (mkConvolutionControl false d) out.
Proof.
  unfold convolveWithInterpolation, bind.
  destruct (throw_if _ _ out) as [[] o1|]; [|reflexivity].
  destruct (shrinkBBox kernel _ o1) as [goodBBox o2|]; [|reflexivity].
  cbv zeta. unfold modify. f_equal. f_equal. unfold computeRows.
  apply fold_left_map_ext. intros iy st. simpl.
  apply fold_left_map_ext. intros ix st'. reflexivity.
Qed.

(** ** Warping *)

Lemma for_loop_pair {A B : Type} n a (body : Z -> A * B -> A * B) (f : Z -> A -> A) (g : Z -> B -> B) x0 y0 :
  (forall i x y, a <= i < a + Z.of_nat n -> body i (x, y) = (f i x, g i y)) ->
  for_loop n a body (x0, y0) = (for_loop n a f x0, for_loop n a g y0).
Proof.
  revert a x0 y0. induction n as [|n IH]; intros a x0 y0 E; [reflexivity|].
  simpl. rewrite E by lia. apply IH. intros i x y Hi. apply E. lia.
Qed.

Lemma for_range_pair {A B : Type} a b (body : Z -> A * B -> A * B) (f : Z -> A -> A) (g : Z -> B -> B) x0 y0 :
  (forall i x y, a <= i < b -> body i (x, y) = (f i x, g i y)) ->
  for_range a b body (x0, y0) = (for_range a b f x0, for_range a b g y0).
Proof. intros E. apply for_loop_pair. intros i x y Hi. apply E. lia. Qed.

Lemma MPointwise_for_loop n a (body : Z -> MaskedImage -> MaskedImage) T :
  (forall i, a <= i < a + Z.of_nat n -> MPointwise (body i) (T i)) ->
  MPointwise (for_loop n a body) (fun x y v => for_loop n a (fun i => T i x y) v).
Proof.
  revert a. induction n as [|n IH]; intros a HB im.
  - simpl. auto.
  - simpl. destruct (HB a ltac:(lia) im) as (w1 & h1 & p1).
    destruct (IH (a + 1) ltac:(intros i Hi; apply HB; lia) (body a im)) as (w2 & h2 & p2).
    split; [congruence|]. split; [congruence|]. intros x y. now rewrite p2, p1.
Qed.

Lemma MPointwise_for_range a b (body : Z -> MaskedImage -> MaskedImage) T :
  (forall i, a <= i < b -> MPointwise (body i) (T i)) ->
  MPointwise (for_range a b body) (fun x y v => for_range a b (fun i => T i x y) v).
Proof. intros HB. apply MPointwise_for_loop. intros i Hi. apply HB. lia. Qed.

Lemma count_loop (P : Z -> bool) n c0 :
  for_range 0 n (fun i c => if P i then c else c + 1) c0
  = c0 + Z.of_nat (length (filter (fun i => negb (P i)) (indices n))).
Proof.
  pattern n. apply (range_ind 0); clear n.
  - intros n Hn. rewrite for_range_empty, indices_empty by lia. simpl. lia.
  - intros n Hn IH. rewrite for_range_snoc, indices_snoc, filter_app, length_app by lia.
    rewrite IH. cbn [filter]. destruct (P n); cbn [negb length]; lia.
Qed.

Lemma count_loop2 (P : Z -> Z -> bool) w h c0 :
  for_range 0 h (fun y c => for_range 0 w (fun x c => if P x y then c else c + 1) c) c0
  = c0 + Z.of_nat (length (filter (fun p => negb (P (fst p) (snd p)))
                             (flat_map (fun y => map (fun x => (x, y)) (indices w)) (indices h)))).
Proof.
  pattern h. apply (range_ind 0); clear h.
  - intros h Hh. rewrite for_range_empty, (indices_empty h) by lia. simpl. lia.
  - intros h Hh IH.
    rewrite for_range_snoc, (indices_snoc h), flat_map_app, filter_app, length_app by lia.
    rewrite IH, count_loop. cbn [flat_map]. rewrite app_nil_r.
    assert (E : forall l, length (filter (fun p : Z * Z => negb (P (fst p) (snd p)))
                                    (map (fun x => (x, h)) l))
                          = length (filter (fun i => negb (P i h)) l)).
    { induction l as [|q l IHl]; [reflexivity|]. cbn [map filter fst snd].
      destruct (P q h); cbn [negb length]; now rewrite IHl. }
    rewrite E. lia.
Qed.

(** What [warpExposure] leaves in the destination and what it returns. *)
Lemma warpExposure_pixels {utils : ImageUtils} {maskOps : MaskedImageOps} destExposure srcExposure warpingKernel c r :
  let destMI' := fst (warpExposure destExposure srcExposure warpingKernel c r) in
  let numGoodPixels := snd (warpExposure destExposure srcExposure warpingKernel c r) in
  (forall x y,
     0 <= x < miWidth (getMaskedImage destExposure) ->
     0 <= y < miHeight (getMaskedImage destExposure) ->
     mpix destMI' x y =
     if isOffSource destExposure srcExposure warpingKernel x y
     then edgePixelOf (getPlaneBitMask (getMaskedImage srcExposure) MaskPlaneNames.EDGE)
     else
       let p := convolvedPixel destExposure srcExposure warpingKernel c r x y in
       let multFac :=
         fluxFactor destExposure srcExposure (kernelSumAsPassed warpingKernel c r) x y in
       mkMaskedPixel (image p * multFac)%Qc (mask p) (variance p * (multFac * multFac))%Qc) /\
  numGoodPixels =
    Z.of_nat (length (filter (fun p => negb (isOffSource destExposure srcExposure warpingKernel
                                              (fst p) (snd p)))
                        (destPixels destExposure))).
Proof.
  cbv zeta. unfold warpExposure. cbv zeta.
  set (srcMI := getMaskedImage srcExposure).
  set (edgePixel := edgePixelOf (getPlaneBitMask srcMI MaskPlaneNames.EDGE)).
  set (value := fun x y =>
         if isOffSource destExposure srcExposure warpingKernel x y then edgePixel
         else
           let p := convolvedPixel destExposure srcExposure warpingKernel c r x y in
           let multFac :=
             fluxFactor destExposure srcExposure (kernelSumAsPassed warpingKernel c r) x y in
           mkMaskedPixel (image p * multFac)%Qc (mask p) (variance p * (multFac * multFac))%Qc).
  set (F := fun (y x : Z) (im : MaskedImage) =>
         if isOffSource destExposure srcExposure warpingKernel x y
         then updMPix im x y (fun _ => edgePixel)
         else
           let p := convolvedPixel destExposure srcExposure warpingKernel c r x y in
           let multFac :=
             fluxFactor destExposure srcExposure (kernelSumAsPassed warpingKernel c r) x y in
           updMPix
             (updMPix (updMPix im x y (fun _ => p)) x y
                (fun p => mkMaskedPixel (image p * multFac)%Qc (mask p) (variance p)))
             x y (fun p => mkMaskedPixel (image p) (mask p) (variance p * (multFac * multFac))%Qc)).
  set (G := fun (y x n : Z) =>
         if isOffSource destExposure srcExposure warpingKernel x y then n else n + 1).
  match goal with
  | |- context [for_range 0 ?h (fun destIndY => for_range 0 ?w (@?B destIndY)) (?im0, 0)] =>
      assert (E : for_range 0 h (fun destIndY => for_range 0 w (B destIndY)) (im0, 0)
                  = (for_range 0 h (fun y => for_range 0 w (F y)) im0,
                     for_range 0 h (fun y => for_range 0 w (G y)) 0));
        [|rewrite E; clear E; set (destMI := im0)]
  end.
  { apply for_range_pair. intros y im n _. apply for_range_pair. intros x im' n' _.
    subst F G. cbv beta.
    unfold isOffSource, convolvedPixel, fluxFactor, kernelSumAsPassed, srcIndexOf, srcPosOf.
    cbv zeta. fold srcMI.
    destruct (positionToIndex (fst _)) as [ix fx].
    destruct (positionToIndex (snd _)) as [iy fy].
    destruct (computeVectors warpingKernel c r false 0%Qc 0%Qc) as [[xs ys] ks].
    cbn [fst snd]. destruct (offSource _ _ _ _ _); reflexivity. }
  cbn [fst snd]. split.
  - intros x y Hx Hy.
    assert (MP : MPointwise (for_range 0 (miHeight destMI) (fun y => for_range 0 (miWidth destMI) (F y)))
                   (fun x y v =>
                      for_range 0 (miHeight destMI) (fun j v =>
                        for_range 0 (miWidth destMI) (fun i v =>
                          if (x =? 0 + i) && (y =? 0 + j) then value i j else v) v) v)).
    { apply MPointwise_for_range. intros j _. apply MPointwise_for_range. intros i _.
      intros im. subst F value. cbv beta.
      destruct (isOffSource destExposure srcExposure warpingKernel i j); cbv zeta; simpl;
        (split; [reflexivity|]); (split; [reflexivity|]); intros x' y';
        destruct ((x' =? i) && (y' =? j)); reflexivity. }
    destruct (MP destMI) as (_ & _ & p). rewrite p.
    rewrite (scalar_rect_loop 0 (miHeight destMI) 0 (miWidth destMI) 0 0 (fun i j _ => value i j)).
    subst destMI. cbn [miWidth miHeight].
    replace ((0 + 0 <=? x) && (x <? 0 + miWidth (getMaskedImage destExposure)) &&
             (0 + 0 <=? y) && (y <? 0 + miHeight (getMaskedImage destExposure))) with true
      by (symmetry; bool_to_prop; lia).
    rewrite !Z.sub_0_r. reflexivity.
  - subst G destMI. cbn [miWidth miHeight]. unfold destPixels.
    exact (count_loop2 (fun x y => isOffSource destExposure srcExposure warpingKernel x y) _ _ 0).
Qed.



Ltac qc_compute := vm_compute; try (apply Qc_is_canon; reflexivity); try reflexivity.

Ltac qc_differ :=
  let E := fresh "E" in
  intros E; apply (f_equal this) in E; vm_compute in E; discriminate E.

(** C6 (the code departs from the claim).  The claim: at a valid pixel the
    convolved value is multiplied by destPixelArea / (srcPixelArea x
    kernelWeightSum), the sum taken of the kernel's weights at the fractional
    source position.  [warpExposure] computes the fractional position and
    never hands it to the kernel: [computeVectors] is asked for the weights
    of the kernel as it was passed.  With unit pixel areas, a source grid
    shifted by half a pixel and the tapered kernel passed with parameters
    (0, 0), destination pixel (1, 1) has fractional source position (1/2, 0);
    the weight sum there is 3/4, the factor applied is that of the sum 1. *)
Theorem C6_weight_sum_not_taken_at_fractional_position :
  let dest := blankExposure identityWcs in
  let src := rampExposure halfPixelShiftWcs in
  let c := fun _ _ : Qc => taperedWeights 0 in
  let out := fst (warpExposure (utils := originAtZero) (maskOps := exampleMaskOps) dest src
                    (taperedKernel 0 0) c c) in
  let conv := convolvedPixel (utils := originAtZero) (maskOps := exampleMaskOps) dest src
                (taperedKernel 0 0) c c 1 1 in
  isOffSource (utils := originAtZero) dest src (taperedKernel 0 0) 1 1 = false /\
  srcFracOf (utils := originAtZero) identityWcs halfPixelShiftWcs 1 1 = ((1 / ofZ 2)%Qc, 0%Qc) /\
  kernelSumAsPassed (taperedKernel 0 0) c c = 1%Qc /\
  kernelSumAsPassed (taperedKernel (1 / ofZ 2) 0)
    (fun _ _ => taperedWeights (1 / ofZ 2)) (fun _ _ => taperedWeights 0) = (ofZ 3 / ofZ 4)%Qc /\
  image conv = ofZ 2 /\
  image (mpix out 1 1) = (image conv * fluxFactor (utils := originAtZero) dest src 1 1 1)%Qc /\
  image (mpix out 1 1) <> (image conv * fluxFactor (utils := originAtZero) dest src (ofZ 3 / ofZ 4) 1 1)%Qc /\
  variance (mpix out 1 1) <>
    (variance conv * (fluxFactor (utils := originAtZero) dest src (ofZ 3 / ofZ 4) 1 1 *
                      fluxFactor (utils := originAtZero) dest src (ofZ 3 / ofZ 4) 1 1))%Qc.
Proof.
  cbv zeta.
  split; [reflexivity|].
  split; [unfold srcFracOf; f_equal; qc_compute|].
  split; [qc_compute|]. split; [qc_compute|]. split; [qc_compute|].
  split; [qc_compute|]. split; qc_differ.
Qed.

(** ** Every path of [basicConvolve] computes the point convolution *)

Lemma convolveAtAPoint_ext inImage x0 y0 k1 k2 kWidth kHeight :
  (forall i j, 0 <= i < kWidth -> 0 <= j < kHeight -> k1 i j = k2 i j) ->
  convolveAtAPoint inImage x0 y0 k1 kWidth kHeight = convolveAtAPoint inImage x0 y0 k2 kWidth kHeight.
Proof.
  intros E. unfold convolveAtAPoint. apply sum_range_ext. intros j Hj.
  apply sum_range_ext. intros i Hi. now rewrite E.
Qed.

(** The double pass over two weight vectors is the dense sum over their
    outer product. *)
Lemma convolveAtAPointSeparable_dense inImage x0 y0 (cf rf : Z -> Qc) kWidth kHeight :
  convolveAtAPointSeparable inImage x0 y0 (map cf (indices kWidth)) (map rf (indices kHeight))
  = convolveAtAPoint inImage x0 y0 (fun i j => (cf i * rf j)%Qc) kWidth kHeight.
Proof.
  unfold convolveAtAPointSeparable, convolveAtAPoint.
  rewrite weighted_sum_indices. apply sum_range_ext. intros j Hj.
  rewrite weighted_sum_indices, <- sum_range_scale.
  apply sum_range_ext. intros i Hi. ring.
Qed.

(** The dense sum over the image of a delta function kernel is the pixel under
    its unit weight. *)
Lemma convolveAtAPoint_delta inImage x0 y0 pixel kWidth kHeight :
  0 <= fst pixel < kWidth -> 0 <= snd pixel < kHeight ->
  convolveAtAPoint inImage x0 y0 (deltaFunctionImage pixel) kWidth kHeight
  = pix inImage (x0 + fst pixel) (y0 + snd pixel).
Proof.
  intros Hx Hy. unfold convolveAtAPoint, deltaFunctionImage.
  rewrite (sum_range_single 0 kHeight (snd pixel)); [|lia|].
  - rewrite (sum_range_single 0 kWidth (fst pixel)); [|lia|].
    + rewrite !Z.eqb_refl. cbn [andb]. apply Qcmult_1_r.
    + intros i Hi Hne. destruct (Z.eqb_spec i (fst pixel)); [contradiction|]. cbn [andb]. ring.
  - intros j Hj Hne. apply sum_range_zero. intros i Hi.
    destruct (Z.eqb_spec j (snd pixel)); [contradiction|]. rewrite andb_false_r. ring.
Qed.

Lemma basicConvolve_unnormalized_pixels {utils : ImageUtils} inImage kernel out :
  convolvable out inImage kernel -> wellFormedKernel kernel ->
  exists out',
    basicConvolve inImage kernel false out = Ok tt out' /\
    sameFrame out' out /\
    forall x y, inValidRegion inImage kernel x y = true ->
                pix out' x y = exactPixel inImage kernel x y.
Proof.
  intros Hc (Hanc & Hwf). unfold basicConvolve, exactPixel, kernelImageAt, rawImage.
  assert (Hgen : forall image,
            rawImage kernel = image ->
            exists out',
              basicConvolve_general inImage kernel false out = Ok tt out' /\
              sameFrame out' out /\
              forall x y, inValidRegion inImage kernel x y = true ->
                pix out' x y =
                convolveAtAPoint inImage (x - Kernel.getCtrX kernel) (y - Kernel.getCtrY kernel)
                  (if Kernel.isSpatiallyVarying kernel
                   then image (indexToPosition x) (indexToPosition y)
                   else image 0%Qc 0%Qc)
                  (Kernel.getWidth kernel) (Kernel.getHeight kernel)).
  { intros image Eraw. destruct (Kernel.isSpatiallyVarying kernel) eqn:Hsv.
    - destruct (basicConvolve_general_varying_pixels inImage kernel false out Hsv Hc)
        as (out' & E & F & p).
      exists out'. split; [exact E|]. split; [exact F|].
      intros x y Hv. rewrite p, Hv. unfold computeImage. rewrite Eraw. reflexivity.
    - destruct (basicConvolve_general_invariant_pixels inImage kernel false out Hsv Hc
                  ltac:(destruct Hanc; lia)) as (out' & E & F & p).
      exists out'. split; [exact E|]. split; [exact F|].
      intros x y Hv. rewrite p. unfold inValidRegion in Hv.
      apply andb_prop in Hv as [Hv Hy2]. apply andb_prop in Hv as [Hv Hy1].
      rewrite Hy1, Hy2, Hv. simpl. rewrite Eraw. reflexivity. }
  destruct (Kernel.shape kernel) as [image|pixel|c r|terms] eqn:Es.
  - apply (Hgen image). unfold rawImage. now rewrite Es.
  - destruct Hwf as (Hsv & Hpx & Hpy).
    destruct (basicConvolve_DeltaFunctionKernel_pixels inImage kernel pixel false out Hsv Hc)
      as (out' & E & F & p).
    exists out'. split; [exact E|]. split; [exact F|].
    intros x y Hv. rewrite p, Hv, Hsv, convolveAtAPoint_delta by assumption.
    f_equal; lia.
  - destruct (basicConvolve_SeparableKernel_pixels inImage kernel c r false out Hc)
      as (out' & E & F & p).
    exists out'. split; [exact E|]. split; [exact F|].
    intros x y Hv. rewrite p, Hv. unfold computeVectors.
    destruct (Kernel.isSpatiallyVarying kernel); apply convolveAtAPointSeparable_dense.
  - apply (Hgen (fun x y i j =>
             fold_left (fun acc t => (acc + snd t x y * basisImage (fst t) i j)%Qc) terms 0%Qc)).
    unfold rawImage. now rewrite Es.
Qed.

(** ** [convolveLinear] against the direct evaluation *)

Lemma convolveAtAPoint_plus_scaled inImage x0 y0 (s B : KernelImage) (c : Qc) kWidth kHeight :
  convolveAtAPoint inImage x0 y0 (fun i j => (s i j + c * B i j)%Qc) kWidth kHeight
  = (convolveAtAPoint inImage x0 y0 s kWidth kHeight
     + convolveAtAPoint inImage x0 y0 B kWidth kHeight * c)%Qc.
Proof.
  unfold convolveAtAPoint.
  rewrite (Qcmult_comm _ c), <- sum_range_scale, <- sum_range_plus.
  apply sum_range_ext. intros j Hj.
  rewrite <- sum_range_scale, <- sum_range_plus.
  apply sum_range_ext. intros i Hi. ring.
Qed.

Lemma convolveAtAPoint_zero inImage x0 y0 kWidth kHeight :
  convolveAtAPoint inImage x0 y0 (fun _ _ => 0%Qc) kWidth kHeight = 0%Qc.
Proof.
  unfold convolveAtAPoint. apply sum_range_zero. intros j Hj.
  apply sum_range_zero. intros i Hi. ring.
Qed.

(** The point convolution is linear in the kernel image. *)
Lemma convolveAtAPoint_linear_combination inImage x0 y0
    (terms : list (BasisKernel * SpatialFunction)) (colPos rowPos : Qc) (s : KernelImage)
    kWidth kHeight :
  convolveAtAPoint inImage x0 y0
    (fun i j => fold_left (fun acc t => (acc + snd t colPos rowPos * basisImage (fst t) i j)%Qc)
                  terms (s i j))
    kWidth kHeight
  = fold_left (fun acc t =>
        (acc + convolveAtAPoint inImage x0 y0 (basisImage (fst t)) kWidth kHeight
               * snd t colPos rowPos)%Qc)
      terms (convolveAtAPoint inImage x0 y0 s kWidth kHeight).
Proof.
  revert s. induction terms as [|t terms IH]; intros s; [reflexivity|].
  cbn [fold_left]. rewrite <- convolveAtAPoint_plus_scaled.
  apply (IH (fun i j => (s i j + snd t colPos rowPos * basisImage (fst t) i j)%Qc)).
Qed.

Lemma fold_left_ext {A B} (f g : A -> B -> A) (l : list B) (a : A) :
  (forall acc b, f acc b = g acc b) -> fold_left f l a = fold_left g l a.
Proof.
  intros E. revert a. induction l as [|b l IH]; intros a; [reflexivity|].
  simpl. rewrite E. apply IH.
Qed.

Lemma kernelImageAt_basis {utils : ImageUtils} kernel b x y :
  kernelImageAt (basisKernelOf kernel b) x y = basisImage b.
Proof. destruct b; reflexivity. Qed.

Lemma convolveLinear_bases_pixels {utils : ImageUtils} inImage kernel terms basisImage0 out :
  convolvable basisImage0 inImage kernel ->
  Forall (fun t => wellFormedKernel (basisKernelOf kernel (fst t))) terms ->
  exists out',
    convolveLinear_bases inImage kernel terms basisImage0 out = Ok tt out' /\
    sameFrame out' out /\
    forall x y,
      pix out' x y =
      if inValidRegion inImage kernel x y
      then fold_left (fun acc t =>
               (acc + exactPixel inImage (basisKernelOf kernel (fst t)) x y
                      * snd t (indexToPosition x) (indexToPosition y))%Qc)
             terms (pix out x y)
      else pix out x y.
Proof.
  revert basisImage0 out. induction terms as [|[b f] rest IH]; intros basisImage0 out Hc Hwf.
  - exists out. split; [reflexivity|]. split; [repeat split|].
    intros x y. simpl. now destruct (inValidRegion inImage kernel x y).
  - inversion Hwf as [|t ts Hb Hrest]; subst. cbn [fst] in Hb.
    destruct (basicConvolve_unnormalized_pixels inImage (basisKernelOf kernel b) basisImage0 Hc Hb)
      as (bi' & Eb & (wb & hb & ob) & pb).
    cbn [convolveLinear_bases]. rewrite Eb. unfold bind at 1. unfold modify at 1.
    match goal with
    | |- exists out',
           convolveLinear_bases _ _ _ _
             (for_range ?ya ?yb (fun cnvY => for_range ?xa ?xb (@?B cnvY)) out) = _ /\ _ =>
        pose proof (rect_loop (getWidth out) ya yb xa xb 0 0 B
          (fun x y v => (v + pix bi' x y * f (indexToPosition x) (indexToPosition y))%Qc)) as HP;
        set (acc := for_range ya yb (fun cnvY => for_range xa xb (B cnvY)) out)
    end.
    destruct (HP ltac:(intros j i; eapply Pointwise_ext; [apply Pointwise_updPix|];
                       intros x y v; cbv beta; reflexivity)
                out eq_refl) as (w & h & o & p).
    fold acc in w, h, o, p.
    destruct (IH bi' acc) as (out' & E & (w' & h' & o') & p').
    + destruct Hc as (HW & HH & HkW & HkH). repeat split; try congruence; assumption.
    + exact Hrest.
    + exists out'. split; [exact E|]. split; [repeat split; congruence|].
      intros x y. rewrite p', p, <- inValidRegion_iff.
      destruct (inValidRegion inImage kernel x y) eqn:Hv; [|reflexivity].
      cbn [fold_left fst snd]. rewrite !Z.sub_0_r, (pb x y Hv). reflexivity.
Qed.

(** C3.  For a spatially varying linear combination kernel the output of
    [convolveLinear] on the valid region is the sum over the basis kernels of
    coefficient(pixel position) times the input convolved with the basis
    kernel, and equals what [basicConvolve] computes without normalization
    from the combined kernel, evaluated at every pixel; for a kernel that
    does not vary [convolveLinear] is one call of [convolve] without
    normalization. *)
Theorem C3_convolveLinear_equals_direct_evaluation {utils : ImageUtils} inImage kernel edgeBit out terms :
  Kernel.shape kernel = ShapeLinearCombination terms ->
  (Kernel.isSpatiallyVarying kernel = true ->
   convolvable out inImage kernel -> intDimensions inImage ->
   wellFormedLinearCombination kernel ->
   exists outLinear outDirect,
     convolveLinear inImage kernel edgeBit out = Ok tt outLinear /\
     basicConvolve inImage kernel false out = Ok tt outDirect /\
     forall x y, inValidRegion inImage kernel x y = true ->
       pix outLinear x y = basisSum inImage kernel x y /\
       pix outDirect x y = exactPixel inImage kernel x y /\
       pix outLinear x y = pix outDirect x y) /\
  (Kernel.isSpatiallyVarying kernel = false ->
   convolveLinear inImage kernel edgeBit = convolve inImage kernel false edgeBit).
Proof.
  intros Es. split.
  - intros Hsv Hc Hint (Hanc & Hwf).
    assert (Et : getKernelTerms kernel = terms) by (unfold getKernelTerms; now rewrite Es).
    destruct (basicConvolve_unnormalized_pixels inImage kernel out Hc)
      as (outD & ED & FD & pD).
    { split; [exact Hanc|]. now rewrite Es. }
    pose proof Hc as (HW & HH & HkW & HkH).
    unfold convolveLinear. rewrite Hsv. change (negb true) with false. cbv iota.
    pass_checks.
    match goal with
    | |- context [convolveLinear_bases _ _ _ ?bi
                    (for_range ?ya ?yb (fun cnvY => for_range ?xa ?xb (@?B cnvY)) out)] =>
        pose proof (rect_loop (getWidth out) ya yb xa xb 0 0 B (fun _ _ _ => 0%Qc)) as HP;
        set (zeroed := for_range ya yb (fun cnvY => for_range xa xb (B cnvY)) out);
        set (basisImage0 := bi)
    end.
    destruct (HP ltac:(intros j i; eapply Pointwise_ext; [apply Pointwise_setPix|];
                       intros x y v; cbv beta; reflexivity)
                out eq_refl) as (wz & hz & oz & pz).
    fold zeroed in wz, hz, oz, pz.
    destruct (convolveLinear_bases_pixels inImage kernel (getKernelTerms kernel) basisImage0 zeroed)
      as (acc & EL & (wa & ha & oa) & pa).
    { unfold convolvable, basisImage0. simpl. lia. }
    { exact Hwf. }
    destruct (copyBorder_pixels inImage kernel edgeBit acc) as (outL & EB & FB & pB).
    { unfold convolvable. repeat split; try congruence; assumption. }
    { exact Hanc. }
    { exact Hint. }
    exists outL, outD. split; [rewrite EL; exact EB|]. split; [exact ED|].
    intros x y Hv.
    assert (EL1 : pix outL x y = basisSum inImage kernel x y).
    { rewrite pB, strips_cover_border by assumption. rewrite Hv, andb_false_r.
      rewrite pa, Hv, pz, <- inValidRegion_iff, Hv. reflexivity. }
    split; [exact EL1|]. split; [exact (pD x y Hv)|].
    rewrite EL1, (pD x y Hv). unfold basisSum. rewrite Et.
    transitivity
      (fold_left (fun acc t =>
           (acc + convolveAtAPoint inImage (x - Kernel.getCtrX kernel) (y - Kernel.getCtrY kernel)
                    (basisImage (fst t)) (Kernel.getWidth kernel) (Kernel.getHeight kernel)
                  * snd t (indexToPosition x) (indexToPosition y))%Qc)
         terms 0%Qc).
    + apply fold_left_ext. intros acc' t. unfold exactPixel.
      now rewrite kernelImageAt_basis.
    + unfold exactPixel, kernelImageAt, rawImage. rewrite Hsv, Es.
      rewrite (convolveAtAPoint_linear_combination inImage _ _ terms _ _ (fun _ _ => 0%Qc)).
      now rewrite convolveAtAPoint_zero.
  - intros Hsv. unfold convolveLinear. now rewrite Hsv.
Qed.

Lemma C3_convolveLinear_equals_direct_evaluation_witness :
  exists outLinear outDirect,
    convolveLinear (utils := originAtZero) rampRow threeBases (-1) sevensRow = Ok tt outLinear /\
    basicConvolve (utils := originAtZero) rampRow threeBases false sevensRow = Ok tt outDirect /\
    pix outLinear 1 0 = pix outDirect 1 0.
Proof.
  destruct (C3_convolveLinear_equals_direct_evaluation (utils := originAtZero) rampRow threeBases (-1)
              sevensRow _ eq_refl) as [Hvarying _].
  destruct Hvarying as (outLinear & outDirect & EL & ED & p).
  - reflexivity.
  - unfold convolvable. simpl. lia.
  - unfold intDimensions. simpl. lia.
  - split; [unfold anchored; simpl; lia|].
    repeat constructor; simpl; lia.
  - exists outLinear, outDirect. split; [exact EL|]. split; [exact ED|].
    apply (p 1 0). reflexivity.
Defined.

(** ** The interpolated convolver *)

Lemma ofZ_add a b : ofZ (a + b) = (ofZ a + ofZ b)%Qc.
Proof.
  unfold ofZ, Qcplus. apply Q2Qc_eq_iff. cbn [this Q2Qc].
  rewrite !Qred_correct, inject_Z_plus. reflexivity.
Qed.

Lemma ofZ_neq_0 z : z <> 0 -> ofZ z <> 0%Qc.
Proof.
  intros Hz E. unfold ofZ in E. apply Q2Qc_eq_iff in E.
  apply Hz. unfold Qeq in E. simpl in E. lia.
Qed.

(** The loops of [convolveRegionWithInterpolation] leave through their
    [break]: fuel beyond the number of columns, or rows, changes nothing. *)
Lemma interpolateRow_enough_fuel fuel extra inImage kWidth kHeight width deltaImage
    inX inY outX outY i st :
  Z.max 1 (width - i) <= Z.of_nat fuel ->
  interpolateRow (fuel + extra) inImage kWidth kHeight width deltaImage inX inY outX outY i st
  = interpolateRow fuel inImage kWidth kHeight width deltaImage inX inY outX outY i st.
Proof.
  revert inX outX i st. induction fuel as [|fuel IH]; intros inX outX i [out K] Hf; [lia|].
  cbn [Nat.add interpolateRow].
  destruct (Z.geb_spec (i + 1) width); [reflexivity|].
  apply IH. lia.
Qed.

Lemma interpolateRows_enough_fuel fuel extra inImage kWidth kHeight width height xfrac
    inX inY outX outY j st :
  Z.max 1 (height - j) <= Z.of_nat fuel ->
  interpolateRows (fuel + extra) inImage kWidth kHeight width height xfrac inX inY outX outY j st
  = interpolateRows fuel inImage kWidth kHeight width height xfrac inX inY outX outY j st.
Proof.
  revert inY outY j st. induction fuel as [|fuel IH]; intros inY outY j [out w] Hf; [lia|].
  cbn [Nat.add interpolateRows].
  destruct (interpolateRow _ _ _ _ _ _ _ _ _ _ _ _) as [out1 K1].
  destruct (Z.geb_spec (j + 1) height); [reflexivity|].
  apply IH. lia.
Qed.

Lemma interpolateRow_pixels fuel inImage kWidth kHeight width deltaImage inX inY outX outY i out K :
  (1 <= fuel)%nat -> Z.of_nat fuel = width - i ->
  sameFrame
    (fst (interpolateRow fuel inImage kWidth kHeight width deltaImage inX inY outX outY i (out, K)))
    out /\
  forall x y,
    pix (fst (interpolateRow fuel inImage kWidth kHeight width deltaImage inX inY outX outY i
                (out, K))) x y
    = if (y =? outY) && (outX <=? x) && (x <? outX + Z.of_nat fuel)
      then convolveAtAPoint inImage (inX + (x - outX)) inY
             (fun a b => (K a b + ofZ (x - outX) * deltaImage a b)%Qc) kWidth kHeight
      else pix out x y.
Proof.
  revert inX outX i out K. induction fuel as [|fuel IH]; intros inX outX i out K Hfuel Hw; [lia|].
  cbn [interpolateRow].
  destruct (Z.geb_spec (i + 1) width) as [Hlast|Hmore].
  - assert (fuel = O) by lia. subst fuel. cbn [fst]. split; [repeat split|].
    intros x y. simpl pix.
    destruct (Z.eqb_spec x outX) as [->|Hx]; destruct (Z.eqb_spec y outY) as [->|Hy];
      cbn [andb]; bool_cases; try lia; try reflexivity.
    rewrite Z.sub_diag, Z.add_0_r. apply convolveAtAPoint_ext. intros a b _ _.
    change (ofZ 0) with 0%Qc. ring.
  - destruct (IH (inX + 1) (outX + 1) (i + 1)
                (setPix out outX outY (convolveAtAPoint inImage inX inY K kWidth kHeight))
                (plusAssign K deltaImage) ltac:(lia) ltac:(lia)) as ((w & h & o) & p).
    split; [repeat split; assumption|].
    intros x y. rewrite p. simpl pix.
    destruct (Z.eqb_spec y outY) as [->|Hy]; cbn [andb].
    + destruct (Z.eqb_spec x outX) as [->|Hx].
      * bool_cases; try lia.
        rewrite Z.sub_diag, Z.add_0_r. apply convolveAtAPoint_ext. intros a b _ _.
        change (ofZ 0) with 0%Qc. ring.
      * cbn [andb]. bool_cases; try lia; try reflexivity.
        replace (inX + 1 + (x - (outX + 1))) with (inX + (x - outX)) by lia.
        apply convolveAtAPoint_ext. intros a b _ _. unfold plusAssign.
        replace (x - outX) with (1 + (x - (outX + 1))) by lia.
        rewrite ofZ_add. change (ofZ 1) with 1%Qc. ring.
    + rewrite andb_false_r. reflexivity.
Qed.

Lemma interpolateRows_pixels fuel inImage kWidth kHeight width height xfrac
    inX inY outX outY j out w :
  1 <= width -> (1 <= fuel)%nat -> Z.of_nat fuel = height - j ->
  (forall a b, kernelImage w a b = leftImage w a b) ->
  sameFrame
    (fst (interpolateRows fuel inImage kWidth kHeight width height xfrac inX inY outX outY j
            (out, w)))
    out /\
  forall x y,
    pix (fst (interpolateRows fuel inImage kWidth kHeight width height xfrac inX inY outX outY j
                (out, w))) x y
    = if (outY <=? y) && (y <? outY + Z.of_nat fuel) && (outX <=? x) && (x <? outX + width)
      then convolveAtAPoint inImage (inX + (x - outX)) (inY + (y - outY))
             (fun a b =>
                let L := (leftImage w a b + ofZ (y - outY) * leftDeltaImage w a b)%Qc in
                let R := (rightImage w a b + ofZ (y - outY) * rightDeltaImage w a b)%Qc in
                (L + ofZ (x - outX) * (xfrac * R + - xfrac * L))%Qc)
             kWidth kHeight
      else pix out x y.
Proof.
  intros Hwidth. revert inY outY j out w.
  induction fuel as [|fuel IH]; intros inY outY j out w Hfuel Hh Hk; [lia|].
  cbn [interpolateRows].
  destruct (interpolateRow_pixels (Z.to_nat (Z.max 1 width)) inImage kWidth kHeight width
              (scaledPlus xfrac (rightImage w) (- xfrac)%Qc (leftImage w))
              inX inY outX outY 0 out (kernelImage w) ltac:(lia) ltac:(lia))
    as ((w1 & h1 & o1) & p1).
  destruct (interpolateRow _ _ _ _ _ _ _ _ _ _ _ _) as [out1 K1]. cbn [fst] in w1, h1, o1, p1.
  replace (Z.of_nat (Z.to_nat (Z.max 1 width))) with width in p1 by lia.
  destruct (Z.geb_spec (j + 1) height) as [Hlast|Hmore].
  - assert (fuel = O) by lia. subst fuel. cbn [fst]. split; [repeat split; assumption|].
    intros x y. rewrite p1.
    destruct (Z.eqb_spec y outY) as [->|Hy].
    + replace ((outY <=? outY) && (outY <? outY + Z.of_nat 1)) with true
        by (symmetry; bool_to_prop; lia).
      cbn [andb]. destruct ((outX <=? x) && (x <? outX + width)); [|reflexivity].
      rewrite Z.sub_diag, Z.add_0_r. apply convolveAtAPoint_ext. intros a b _ _.
      unfold scaledPlus. cbv zeta. rewrite Hk. change (ofZ 0) with 0%Qc. ring.
    + replace ((outY <=? y) && (y <? outY + Z.of_nat 1)) with false
        by (symmetry; bool_to_prop; lia).
      reflexivity.
  - destruct (IH (inY + 1) (outY + 1) (j + 1) out1
                (mkWorkingImages (plusAssign (leftImage w) (leftDeltaImage w))
                   (plusAssign (rightImage w) (rightDeltaImage w)) (leftDeltaImage w)
                   (rightDeltaImage w)
                   (scaledPlus xfrac (rightImage w) (- xfrac)%Qc (leftImage w))
                   (plusAssign (leftImage w) (leftDeltaImage w)))
                ltac:(lia) ltac:(lia) ltac:(reflexivity)) as ((w2 & h2 & o2) & p2).
    split; [repeat split; congruence|].
    intros x y. rewrite p2, p1. cbn [leftImage rightImage leftDeltaImage rightDeltaImage].
    destruct (Z.eqb_spec y outY) as [->|Hy].
    + replace ((outY + 1 <=? outY) && (outY <? outY + 1 + Z.of_nat fuel)) with false
        by (symmetry; bool_to_prop; lia).
      replace ((outY <=? outY) && (outY <? outY + Z.of_nat (S fuel))) with true
        by (symmetry; bool_to_prop; lia).
      cbn [andb]. destruct ((outX <=? x) && (x <? outX + width)); [|reflexivity].
      rewrite Z.sub_diag, Z.add_0_r. apply convolveAtAPoint_ext. intros a b _ _.
      unfold scaledPlus. cbv zeta. rewrite Hk. change (ofZ 0) with 0%Qc. ring.
    + cbn [andb].
      replace ((outY <=? y) && (y <? outY + Z.of_nat (S fuel)))
        with ((outY + 1 <=? y) && (y <? outY + 1 + Z.of_nat fuel))
        by (apply eq_true_iff_eq; bool_to_prop; lia).
      match goal with |- (if ?c then _ else _) = _ => destruct c end; [|reflexivity].
      replace (inY + 1 + (y - (outY + 1))) with (inY + (y - outY)) by lia.
      apply convolveAtAPoint_ext. intros a b _ _. unfold plusAssign. cbv zeta.
      replace (y - outY) with (1 + (y - (outY + 1))) by lia.
      rewrite ofZ_add. change (ofZ 1) with 1%Qc. ring.
Qed.

Lemma convolveRegionWithInterpolation_pixels {utils : ImageUtils} inImage region out w :
  1 <= bboxWidth (getBBox region) -> 1 <= bboxHeight (getBBox region) ->
  sameFrame (fst (convolveRegionWithInterpolation inImage region (out, w))) out /\
  forall x y,
    pix (fst (convolveRegionWithInterpolation inImage region (out, w))) x y
    = if inBBox (getBBox region) x y
      then convolveAtAPoint inImage (x - Kernel.getCtrX (getKernel region))
             (y - Kernel.getCtrY (getKernel region)) (interpolatedKernelImage region x y)
             (Kernel.getWidth (getKernel region)) (Kernel.getHeight (getKernel region))
      else pix out x y.
Proof.
  intros HW HH. unfold convolveRegionWithInterpolation.
  match goal with
  | |- context [interpolateRows ?fuel inImage ?kW ?kH ?width ?height ?xfrac ?inX ?inY ?outX ?outY 0
                  (out, ?w0)] =>
      destruct (interpolateRows_pixels fuel inImage kW kH width height xfrac inX inY outX outY 0
                  out w0 HW ltac:(lia) ltac:(lia) ltac:(reflexivity)) as (F & p)
  end.
  split; [exact F|].
  intros x y. rewrite p. clear p F.
  replace (Z.of_nat (Z.to_nat (Z.max 1 (bboxHeight (getBBox region)))))
    with (bboxHeight (getBBox region)) by lia.
  unfold inBBox.
  match goal with
  | |- (if ?c1 then _ else _) = (if ?c2 then _ else _) =>
      replace c1 with c2 by (apply eq_true_iff_eq; bool_to_prop; lia); destruct c2; [|reflexivity]
  end.
  unfold growBBox. cbn [getMinX getMinY fst snd Kernel.getDimensions
                        leftImage rightImage leftDeltaImage rightDeltaImage].
  replace (getMinX (getBBox region) - Kernel.getCtrX (getKernel region)
           + (x - getMinX (getBBox region)))
    with (x - Kernel.getCtrX (getKernel region)) by lia.
  replace (getMinY (getBBox region) - Kernel.getCtrY (getKernel region)
           + (y - getMinY (getBBox region)))
    with (y - Kernel.getCtrY (getKernel region)) by lia.
  apply convolveAtAPoint_ext. intros a b _ _.
  unfold interpolatedKernelImage, bilinear, scaledPlus, Qcdiv. cbv zeta. ring.
Qed.

Lemma computeRows_single goodRegion :
  computeRows goodRegion 1 1
  = [[mkKernelImagesForRegion (getKernel goodRegion)
        (mkBBox (getMinX (getBBox goodRegion)) (getMinY (getBBox goodRegion))
           (bboxWidth (getBBox goodRegion)) (bboxHeight (getBBox goodRegion)))
        (regionXY0 goodRegion) (regionDoNormalize goodRegion)]].
Proof.
  unfold computeRows, subregionBoundary. change (indices 1) with [0]. cbn [map].
  change (0 + 1) with 1.
  rewrite !Z.mul_0_l, !Z.mul_1_l, !Z.div_1_r, !Z.add_0_r, !Z.sub_0_r. reflexivity.
Qed.

(** Bilinear interpolation reproduces a kernel that varies linearly. *)
Lemma interpolatedKernelImage_linear {utils : ImageUtils} inImage kernel doNormalize x y a b :
  variesLinearly kernel ->
  1 <= getWidth inImage + 1 - Kernel.getWidth kernel ->
  1 <= getHeight inImage + 1 - Kernel.getHeight kernel ->
  interpolatedKernelImage (wholeValidRegion inImage kernel doNormalize) x y a b
  = rawImage kernel (indexToPosition x) (indexToPosition y) a b.
Proof.
  intros (A & B & C & Hlin) HW HH.
  unfold interpolatedKernelImage, bilinear, getImage, computeImage, wholeValidRegion.
  cbn [getPixelIndex getBBox getKernel getMinX getMinY bboxWidth bboxHeight fst].
  rewrite !Hlin. unfold indexToPosition.
  set (W := getWidth inImage + 1 - Kernel.getWidth kernel) in *.
  set (Hh := getHeight inImage + 1 - Kernel.getHeight kernel) in *.
  rewrite !ofZ_add.
  assert (Ex : ofZ x = (ofZ (Kernel.getCtrX kernel) + ofZ (x - Kernel.getCtrX kernel))%Qc)
    by (rewrite <- ofZ_add; f_equal; lia).
  assert (Ey : ofZ y = (ofZ (Kernel.getCtrY kernel) + ofZ (y - Kernel.getCtrY kernel))%Qc)
    by (rewrite <- ofZ_add; f_equal; lia).
  rewrite Ex, Ey.
  assert (ofZ W <> 0%Qc) by (apply ofZ_neq_0; lia).
  assert (ofZ Hh <> 0%Qc) by (apply ofZ_neq_0; lia).
  field. split; assumption.
Qed.

(** C4.  For a kernel whose weight image varies linearly with position and
    a maxInterpolationDistance beyond the extent of the valid area, so that
    the valid area is a single region: at every valid pixel the kernel image
    the interpolated convolver has accumulated is the bilinear interpolation
    of the four corner kernel images, and its output equals the exact
    evaluation at that pixel, which is what [basicConvolve] writes. *)
Theorem C4_interpolation_exact_for_linear_kernels {utils : ImageUtils}
    inImage kernel convolutionControl out :
  variesLinearly kernel ->
  Kernel.isSpatiallyVarying kernel = true ->
  convolvable out inImage kernel -> wellFormedKernel kernel ->
  getWidth inImage + 1 - Kernel.getWidth kernel < getMaxInterpolationDistance convolutionControl ->
  getHeight inImage + 1 - Kernel.getHeight kernel < getMaxInterpolationDistance convolutionControl ->
  exists outInterpolated outBasic,
    convolveWithInterpolation inImage kernel convolutionControl out = Ok tt outInterpolated /\
    basicConvolve inImage kernel false out = Ok tt outBasic /\
    forall x y, inValidRegion inImage kernel x y = true ->
      pix outInterpolated x y
      = convolveAtAPoint inImage (x - Kernel.getCtrX kernel) (y - Kernel.getCtrY kernel)
          (interpolatedKernelImage
             (wholeValidRegion inImage kernel (getDoNormalize convolutionControl)) x y)
          (Kernel.getWidth kernel) (Kernel.getHeight kernel) /\
      pix outInterpolated x y = exactPixel inImage kernel x y /\
      pix outInterpolated x y = pix outBasic x y.
Proof.
  intros Hlin Hsv Hc Hwf HdW HdH.
  destruct (basicConvolve_unnormalized_pixels inImage kernel out Hc Hwf) as (outB & EB & FB & pB).
  pose proof Hc as (HW & HH & HkW & HkH).
  unfold convolveWithInterpolation, shrinkBBox. pass_checks.
  cbn [bboxWidth bboxHeight getMinX getMinY].
  unfold numSubregions. rewrite !Z.quot_small by lia. change (1 + 0) with 1.
  rewrite computeRows_single.
  cbn [fold_left getKernel getBBox getMinX getMinY bboxWidth bboxHeight regionXY0 regionDoNormalize].
  rewrite !Z.add_0_l, HW, HH.
  fold (wholeValidRegion inImage kernel (getDoNormalize convolutionControl)).
  match goal with
  | |- context [convolveRegionWithInterpolation inImage ?rgn (out, ?w)] =>
      destruct (convolveRegionWithInterpolation_pixels inImage rgn out w) as (F & p)
  end.
  { simpl. lia. }
  { simpl. lia. }
  eexists. exists outB. split; [reflexivity|]. split; [exact EB|].
  intros x y Hv.
  assert (E1 : inBBox (getBBox (wholeValidRegion inImage kernel (getDoNormalize convolutionControl)))
                 x y = true).
  { unfold inValidRegion in Hv. unfold inBBox, wholeValidRegion. simpl.
    bool_to_prop. lia. }
  rewrite p, E1. cbn [getKernel wholeValidRegion].
  assert (E2 : convolveAtAPoint inImage (x - Kernel.getCtrX kernel) (y - Kernel.getCtrY kernel)
                 (interpolatedKernelImage
                    (wholeValidRegion inImage kernel (getDoNormalize convolutionControl)) x y)
                 (Kernel.getWidth kernel) (Kernel.getHeight kernel)
               = exactPixel inImage kernel x y).
  { unfold exactPixel, kernelImageAt. rewrite Hsv. apply convolveAtAPoint_ext. intros a b _ _.
    apply interpolatedKernelImage_linear; [exact Hlin|lia|lia]. }
  split; [reflexivity|]. split; [exact E2|].
  rewrite (pB x y Hv). exact E2.
Qed.

Lemma C4_interpolation_exact_for_linear_kernels_witness :
  exists outInterpolated outBasic,
    convolveWithInterpolation (utils := originAtZero) rampRow linearKernel oneRegionControl sevensRow
      = Ok tt outInterpolated /\
    basicConvolve (utils := originAtZero) rampRow linearKernel false sevensRow = Ok tt outBasic /\
    pix outInterpolated 1 0 = pix outBasic 1 0.
Proof.
  destruct (C4_interpolation_exact_for_linear_kernels (utils := originAtZero) rampRow linearKernel
              oneRegionControl sevensRow) as (outI & outB & EI & EB & p).
  - exists (fun i _ => if i =? 0 then 1%Qc else 0%Qc),
      (fun i _ => if i =? 0 then 1%Qc else 1%Qc), (fun i _ => if i =? 0 then 0%Qc else ofZ 2).
    intros x y i j. unfold rawImage. simpl. destruct (i =? 0); ring.
  - reflexivity.
  - unfold convolvable. simpl. lia.
  - split; [unfold anchored; simpl; lia|exact I].
  - simpl. lia.
  - simpl. lia.
  - exists outI, outB. split; [exact EI|]. split; [exact EB|].
    apply (p 1 0). reflexivity.
Defined.

(** ** What [basicConvolve] does to the border, and the fast paths against
    the general path *)

(** Outside the valid region every path leaves the output as it was, except
    the general path for a kernel that does not vary, which zeroes the pixels
    to the right of the valid region in every convolved row. *)
Lemma basicConvolve_border_pixels {utils : ImageUtils} inImage kernel doNormalize out :
  convolvable out inImage kernel -> wellFormedKernel kernel ->
  exists out',
    basicConvolve inImage kernel doNormalize out = Ok tt out' /\
    forall x y, inValidRegion inImage kernel x y = false ->
      pix out' x y = if zeroedByGeneralPath inImage kernel x y then 0%Qc else pix out x y.
Proof.
  intros Hc (Hanc & Hwf). pose proof Hc as (HW & HH & HkW & HkH).
  assert (Hgen : exists out',
            basicConvolve_general inImage kernel doNormalize out = Ok tt out' /\
            forall x y, inValidRegion inImage kernel x y = false ->
              pix out' x y =
              if negb (Kernel.isSpatiallyVarying kernel) &&
                 (Kernel.getCtrY kernel <=? y) &&
                 (y <=? getHeight inImage - 1 - (Kernel.getHeight kernel - 1 - Kernel.getCtrY kernel)) &&
                 (getWidth inImage - 1 - (Kernel.getWidth kernel - 1 - Kernel.getCtrX kernel) <? x) &&
                 (x <? getWidth inImage)
              then 0%Qc else pix out x y).
  { destruct (Kernel.isSpatiallyVarying kernel) eqn:Hsv.
    - destruct (basicConvolve_general_varying_pixels inImage kernel doNormalize out Hsv Hc)
        as (out' & E & _ & p).
      exists out'. split; [exact E|]. intros x y Hv. rewrite p, Hv. reflexivity.
    - destruct (basicConvolve_general_invariant_pixels inImage kernel doNormalize out Hsv Hc
                  ltac:(destruct Hanc; lia)) as (out' & E & _ & p).
      exists out'. split; [exact E|]. intros x y Hv. rewrite p. clear p.
      unfold inValidRegion in Hv. destruct Hanc as (Hx & Hy). cbn [negb andb].
      destruct ((Kernel.getCtrY kernel <=? y) &&
                (y <=? getHeight inImage - 1 - (Kernel.getHeight kernel - 1 - Kernel.getCtrY kernel)))
        eqn:Ey; [|reflexivity].
      cbn [andb].
      destruct ((Kernel.getCtrX kernel <=? x) &&
                (x <=? getWidth inImage - 1 - (Kernel.getWidth kernel - 1 - Kernel.getCtrX kernel)))
        eqn:Ex.
      + exfalso. bool_to_prop. lia.
      + match goal with
        | |- (if ?c1 then _ else _) = (if ?c2 then _ else _) =>
            replace c1 with c2 by (apply eq_true_iff_eq; bool_to_prop; lia); reflexivity
        end. }
  unfold basicConvolve, zeroedByGeneralPath.
  destruct (Kernel.shape kernel) as [image|pixel|c r|terms] eqn:Es.
  - exact Hgen.
  - destruct Hwf as (Hsv & _).
    destruct (basicConvolve_DeltaFunctionKernel_pixels inImage kernel pixel doNormalize out Hsv Hc)
      as (out' & E & _ & p).
    exists out'. split; [exact E|]. intros x y Hv. now rewrite p, Hv.
  - destruct (basicConvolve_SeparableKernel_pixels inImage kernel c r doNormalize out Hc)
      as (out' & E & _ & p).
    exists out'. split; [exact E|]. intros x y Hv. now rewrite p, Hv.
  - exact Hgen.
Qed.

Lemma imageSum_outer w h (c r : Z -> Qc) :
  imageSum w h (fun i j => (c i * r j)%Qc) = (sum_range 0 w c * sum_range 0 h r)%Qc.
Proof.
  unfold imageSum. rewrite <- sum_range_scale. apply sum_range_ext. intros j Hj.
  rewrite (Qcmult_comm (sum_range 0 w c)), <- sum_range_scale.
  apply sum_range_ext. intros i Hi. ring.
Qed.

Lemma imageSum_delta w h pixel :
  0 <= fst pixel < w -> 0 <= snd pixel < h -> imageSum w h (deltaFunctionImage pixel) = 1%Qc.
Proof.
  intros Hx Hy. unfold imageSum, deltaFunctionImage.
  rewrite (sum_range_single 0 h (snd pixel)); [|lia|].
  - rewrite (sum_range_single 0 w (fst pixel)); [|lia|].
    + now rewrite !Z.eqb_refl.
    + intros i Hi Hne. destruct (Z.eqb_spec i (fst pixel)); [contradiction|reflexivity].
  - intros j Hj Hne. apply sum_range_zero. intros i Hi.
    destruct (Z.eqb_spec j (snd pixel)); [contradiction|]. now rewrite andb_false_r.
Qed.

(** On the valid region the delta function and the separable fast path give
    what the general path gives for the same weights, whether or not the
    kernel is normalized. *)
Lemma fast_paths_agree_on_valid_region {utils : ImageUtils} inImage kernel doNormalize out :
  Kernel.isSpatiallyVarying kernel = false ->
  convolvable out inImage kernel -> wellFormedKernel kernel ->
  exists outFast outGeneral,
    basicConvolve inImage kernel doNormalize out = Ok tt outFast /\
    basicConvolve inImage (asDenseKernel kernel) doNormalize out = Ok tt outGeneral /\
    forall x y, inValidRegion inImage kernel x y = true -> pix outFast x y = pix outGeneral x y.
Proof.
  intros Hsv Hc (Hanc & Hwf). pose proof Hc as (HW & HH & HkW & HkH).
  destruct (basicConvolve_general_invariant_pixels inImage (asDenseKernel kernel) doNormalize out
              Hsv Hc ltac:(destruct Hanc; simpl; lia)) as (outG & EG & _ & pG).
  assert (HG : forall x y, inValidRegion inImage kernel x y = true ->
            pix outG x y =
            convolveAtAPoint inImage (x - Kernel.getCtrX kernel) (y - Kernel.getCtrY kernel)
              (fst (computeImage kernel doNormalize 0%Qc 0%Qc))
              (Kernel.getWidth kernel) (Kernel.getHeight kernel)).
  { intros x y Hv. rewrite pG. unfold inValidRegion in Hv.
    apply andb_prop in Hv as [Hv Hy2]. apply andb_prop in Hv as [Hv Hy1].
    cbn [asDenseKernel Kernel.getCtrX Kernel.getCtrY Kernel.getWidth Kernel.getHeight].
    rewrite Hy1, Hy2, Hv. reflexivity. }
  clear pG.
  unfold basicConvolve at 1. destruct (Kernel.shape kernel) as [image|pixel|c r|terms] eqn:Es.
  - destruct (basicConvolve_general_invariant_pixels inImage kernel doNormalize out Hsv Hc
                ltac:(destruct Hanc; lia)) as (outF & EF & _ & pF).
    exists outF, outG. split; [exact EF|]. split; [exact EG|].
    intros x y Hv. rewrite (HG x y Hv), pF. unfold inValidRegion in Hv.
    apply andb_prop in Hv as [Hv Hy2]. apply andb_prop in Hv as [Hv Hy1].
    now rewrite Hy1, Hy2, Hv.
  - destruct Hwf as (_ & Hpx & Hpy).
    destruct (basicConvolve_DeltaFunctionKernel_pixels inImage kernel pixel doNormalize out Hsv Hc)
      as (outF & EF & _ & pF).
    exists outF, outG. split; [exact EF|]. split; [exact EG|].
    intros x y Hv. rewrite (HG x y Hv), pF, Hv.
    transitivity
      (convolveAtAPoint inImage (x - Kernel.getCtrX kernel) (y - Kernel.getCtrY kernel)
         (deltaFunctionImage pixel) (Kernel.getWidth kernel) (Kernel.getHeight kernel)).
    + rewrite convolveAtAPoint_delta by assumption. f_equal; lia.
    + apply convolveAtAPoint_ext. intros i j _ _.
      unfold computeImage, rawImage. rewrite Es. destruct doNormalize; [|reflexivity].
      cbn [fst]. rewrite imageSum_delta by assumption.
      unfold Qcdiv. change (/ 1)%Qc with 1%Qc. ring.
  - destruct (basicConvolve_SeparableKernel_pixels inImage kernel c r doNormalize out Hc)
      as (outF & EF & _ & pF).
    exists outF, outG. split; [exact EF|]. split; [exact EG|].
    intros x y Hv. rewrite (HG x y Hv), pF, Hv, Hsv.
    unfold computeVectors, computeImage, rawImage. rewrite Es.
    destruct doNormalize.
    + rewrite !map_map, convolveAtAPointSeparable_dense. cbn [fst].
      apply convolveAtAPoint_ext. intros i j _ _.
      rewrite imageSum_outer, !sum_list_indices.
      unfold Qcdiv. rewrite Qcinv_mult_distr. ring.
    + apply convolveAtAPointSeparable_dense.
  - destruct (basicConvolve_general_invariant_pixels inImage kernel doNormalize out Hsv Hc
                ltac:(destruct Hanc; lia)) as (outF & EF & _ & pF).
    exists outF, outG. split; [exact EF|]. split; [exact EG|].
    intros x y Hv. rewrite (HG x y Hv), pF. unfold inValidRegion in Hv.
    apply andb_prop in Hv as [Hv Hy2]. apply andb_prop in Hv as [Hv Hy1].
    now rewrite Hy1, Hy2, Hv.
Qed.

(** ** [convolve]: the convolution together with its border *)

Lemma dims_ne_false_inv a b : dims_ne a b = false -> fst a = fst b /\ snd a = snd b.
Proof. unfold dims_ne. intros E. apply negb_false_iff in E. bool_to_prop. lia. Qed.

(** A call of [basicConvolve] that returns has passed the two checks. *)
Lemma basicConvolve_ok_inv {utils : ImageUtils} inImage kernel doNormalize out out' :
  basicConvolve inImage kernel doNormalize out = Ok tt out' -> convolvable out inImage kernel.
Proof.
  unfold basicConvolve, basicConvolve_general, basicConvolve_DeltaFunctionKernel,
    basicConvolve_SeparableKernel, bind, throw_if, convolvable.
  intros E.
  destruct (Kernel.shape kernel);
    try (destruct (Kernel.isSpatiallyVarying kernel) eqn:Hsv; [discriminate E|]);
    destruct (dims_ne (getDimensions out) (getDimensions inImage)) eqn:Ene; try discriminate E;
    destruct (dims_lt _ (Kernel.getDimensions kernel)) eqn:Elt; try discriminate E;
    apply dims_ne_false_inv in Ene; apply dims_lt_false_inv in Elt;
    unfold getDimensions, Kernel.getDimensions in *; simpl in Ene, Elt; lia.
Qed.

(** What [basicConvolve] answers to images that do not fit. *)
Lemma basicConvolve_rejects {utils : ImageUtils} inImage kernel doNormalize out :
  (forall pixel, Kernel.shape kernel = ShapeDeltaFunction pixel ->
                 Kernel.isSpatiallyVarying kernel = false) ->
  ~ convolvable out inImage kernel ->
  basicConvolve inImage kernel doNormalize out = Throw InvalidParameterException out.
Proof.
  intros Hd Hn.
  unfold basicConvolve, basicConvolve_general, basicConvolve_DeltaFunctionKernel,
    basicConvolve_SeparableKernel, bind, throw_if.
  destruct (Kernel.shape kernel) eqn:Es; try rewrite (Hd _ eq_refl);
    destruct (dims_ne (getDimensions out) (getDimensions inImage)) eqn:Ene; try reflexivity;
    destruct (dims_lt _ (Kernel.getDimensions kernel)) eqn:Elt; try reflexivity;
    exfalso; apply Hn;
    apply dims_ne_false_inv in Ene; apply dims_lt_false_inv in Elt;
    unfold convolvable, getDimensions, Kernel.getDimensions in *; simpl in Ene, Elt; lia.
Qed.

(** [convolve] is [basicConvolve] on the valid region and the input image on
    the border: whatever [basicConvolve] left outside the valid region,
    zeroed pixels included, is overwritten by the border copy. *)
Theorem convolve_border_is_input {utils : ImageUtils} inImage kernel doNormalize edgeBit out :
  convolvable out inImage kernel -> anchored kernel -> intDimensions inImage ->
  (forall pixel, Kernel.shape kernel = ShapeDeltaFunction pixel ->
                 Kernel.isSpatiallyVarying kernel = false) ->
  exists outBasic outConvolve,
    basicConvolve inImage kernel doNormalize out = Ok tt outBasic /\
    convolve inImage kernel doNormalize edgeBit out = Ok tt outConvolve /\
    sameFrame outConvolve out /\
    forall x y,
      pix outConvolve x y =
      if inImageBounds inImage x y && negb (inValidRegion inImage kernel x y)
      then pix inImage x y else pix outBasic x y.
Proof.
  intros Hc Hanc Hint Hd. pose proof Hc as (HW & HH & HkW & HkH).
  destruct (basicConvolve_ok inImage kernel doNormalize out Hc Hd) as (outB & EB & (wB & hB & oB)).
  destruct (copyBorder_pixels inImage kernel edgeBit outB) as (outC & EC & FC & pC).
  { unfold convolvable. repeat split; try congruence; assumption. }
  { exact Hanc. }
  { exact Hint. }
  exists outB, outC. split; [exact EB|]. split.
  - unfold convolve, bind. rewrite EB. exact EC.
  - split.
    + apply (sameFrame_trans _ outB); [exact FC|repeat split; assumption].
    + intros x y. rewrite pC. now rewrite strips_cover_border by assumption.
Qed.

Lemma convolve_border_is_input_witness :
  exists outBasic outConvolve,
    basicConvolve (utils := originAtZero) rampRow boxKernel false sevensRow = Ok tt outBasic /\
    convolve (utils := originAtZero) rampRow boxKernel false (-1) sevensRow = Ok tt outConvolve /\
    pix outBasic 2 0 = 0%Qc /\ pix outConvolve 2 0 = ofZ 3 /\
    pix outConvolve 1 0 = pix outBasic 1 0.
Proof.
  destruct (convolve_border_is_input (utils := originAtZero) rampRow boxKernel false (-1) sevensRow)
    as (outB & outC & EB & EC & _ & p).
  - unfold convolvable. simpl. lia.
  - unfold anchored. simpl. lia.
  - unfold intDimensions. simpl. lia.
  - intros pixel E. discriminate E.
  - exists outB, outC. split; [exact EB|]. split; [exact EC|].
    split; [|split].
    + injection EB as <-. vm_compute. apply Qc_is_canon. reflexivity.
    + rewrite (p 2 0). reflexivity.
    + rewrite (p 1 0). reflexivity.
Defined.

(** [convolve] throws exactly when its images do not fit: then it throws
    [InvalidParameterException] before the first write; the boxes of the
    border copy always fit, so that it never throws [LengthError]. *)
Theorem convolve_rejects_unfit_images {utils : ImageUtils} inImage kernel doNormalize edgeBit out :
  anchored kernel -> intDimensions inImage ->
  (forall pixel, Kernel.shape kernel = ShapeDeltaFunction pixel ->
                 Kernel.isSpatiallyVarying kernel = false) ->
  (~ convolvable out inImage kernel ->
   convolve inImage kernel doNormalize edgeBit out = Throw InvalidParameterException out) /\
  (forall e out', convolve inImage kernel doNormalize edgeBit out = Throw e out' ->
                  e = InvalidParameterException /\ out' = out /\ ~ convolvable out inImage kernel).
Proof.
  intros Hanc Hint Hd. split.
  - intros Hn. unfold convolve, bind. now rewrite basicConvolve_rejects.
  - intros e out' E. unfold convolve in E. apply bind_throw in E.
    destruct E as [E|([] & mid & EB & E)].
    + assert (Hn : ~ convolvable out inImage kernel).
      { intros Hc. destruct (basicConvolve_ok inImage kernel doNormalize out Hc Hd) as (o & Eo & _).
        rewrite Eo in E. discriminate E. }
      rewrite (basicConvolve_rejects inImage kernel doNormalize out Hd Hn) in E.
      injection E as <- <-. auto.
    + exfalso. pose proof (basicConvolve_ok_inv _ _ _ _ _ EB) as Hc.
      destruct (basicConvolve_ok inImage kernel doNormalize out Hc Hd) as (o & Eo & (w & h & _)).
      rewrite Eo in EB. injection EB as ->.
      destruct (copyBorder_pixels inImage kernel edgeBit mid) as (o' & Eo' & _).
      * destruct Hc as (HW & HH & HkW & HkH). repeat split; try congruence; assumption.
      * exact Hanc.
      * exact Hint.
      * rewrite Eo' in E. discriminate E.
Qed.

Lemma convolve_rejects_unfit_images_witness :
  convolve (utils := originAtZero) rampRow boxKernel false (-1) shortRow
  = Throw InvalidParameterException shortRow.
Proof.
  apply (convolve_rejects_unfit_images (utils := originAtZero) rampRow boxKernel false (-1) shortRow).
  - unfold anchored. simpl. lia.
  - unfold intDimensions. simpl. lia.
  - intros pixel E. discriminate E.
  - unfold convolvable. simpl. lia.
Defined.

(** On the valid region no path of [basicConvolve] reads the output image
    it was given. *)
Lemma basicConvolve_valid_pixels_overwritten {utils : ImageUtils} inImage kernel doNormalize
    out1 out2 r1 r2 :
  anchored kernel ->
  basicConvolve inImage kernel doNormalize out1 = Ok tt r1 ->
  basicConvolve inImage kernel doNormalize out2 = Ok tt r2 ->
  forall x y, inValidRegion inImage kernel x y = true -> pix r1 x y = pix r2 x y.
Proof.
  intros Hanc E1 E2 x y Hv.
  pose proof (basicConvolve_ok_inv _ _ _ _ _ E1) as Hc1.
  pose proof (basicConvolve_ok_inv _ _ _ _ _ E2) as Hc2.
  assert (Hgen : forall s1 s2,
            basicConvolve_general inImage kernel doNormalize out1 = Ok tt s1 ->
            basicConvolve_general inImage kernel doNormalize out2 = Ok tt s2 ->
            pix s1 x y = pix s2 x y).
  { intros s1 s2 F1 F2. destruct (Kernel.isSpatiallyVarying kernel) eqn:Hsv.
    - destruct (basicConvolve_general_varying_pixels inImage kernel doNormalize out1 Hsv Hc1)
        as (o1 & G1 & _ & p1).
      destruct (basicConvolve_general_varying_pixels inImage kernel doNormalize out2 Hsv Hc2)
        as (o2 & G2 & _ & p2).
      rewrite G1 in F1. rewrite G2 in F2. injection F1 as <-. injection F2 as <-.
      now rewrite p1, p2, Hv.
    - destruct (basicConvolve_general_invariant_pixels inImage kernel doNormalize out1 Hsv Hc1
                  ltac:(destruct Hanc; lia)) as (o1 & G1 & _ & p1).
      destruct (basicConvolve_general_invariant_pixels inImage kernel doNormalize out2 Hsv Hc2
                  ltac:(destruct Hanc; lia)) as (o2 & G2 & _ & p2).
      rewrite G1 in F1. rewrite G2 in F2. injection F1 as <-. injection F2 as <-.
      rewrite p1, p2. unfold inValidRegion in Hv.
      apply andb_prop in Hv as [Hv Hy2]. apply andb_prop in Hv as [Hv Hy1].
      now rewrite Hy1, Hy2, Hv. }
  unfold basicConvolve in E1, E2. destruct (Kernel.shape kernel) as [image|pixel|c r|terms].
  - exact (Hgen _ _ E1 E2).
  - assert (Hsv : Kernel.isSpatiallyVarying kernel = false).
    { unfold basicConvolve_DeltaFunctionKernel, bind, throw_if in E1.
      destruct (Kernel.isSpatiallyVarying kernel); [discriminate E1|reflexivity]. }
    destruct (basicConvolve_DeltaFunctionKernel_pixels inImage kernel pixel doNormalize out1 Hsv Hc1)
      as (o1 & G1 & _ & p1).
    destruct (basicConvolve_DeltaFunctionKernel_pixels inImage kernel pixel doNormalize out2 Hsv Hc2)
      as (o2 & G2 & _ & p2).
    rewrite G1 in E1. rewrite G2 in E2. injection E1 as <-. injection E2 as <-.
    now rewrite p1, p2, Hv.
  - destruct (basicConvolve_SeparableKernel_pixels inImage kernel c r doNormalize out1 Hc1)
      as (o1 & G1 & _ & p1).
    destruct (basicConvolve_SeparableKernel_pixels inImage kernel c r doNormalize out2 Hc2)
      as (o2 & G2 & _ & p2).
    rewrite G1 in E1. rewrite G2 in E2. injection E1 as <-. injection E2 as <-.
    now rewrite p1, p2, Hv.
  - exact (Hgen _ _ E1 E2).
Qed.

(** [convolve] sets every pixel of the output image: two calls that differ
    only in the content of the output image they are given leave the same
    pixels within the bounds of the image. *)
Theorem convolve_overwrites_output {utils : ImageUtils} inImage kernel doNormalize edgeBit
    out1 out2 :
  convolvable out1 inImage kernel -> convolvable out2 inImage kernel ->
  anchored kernel -> intDimensions inImage ->
  (forall pixel, Kernel.shape kernel = ShapeDeltaFunction pixel ->
                 Kernel.isSpatiallyVarying kernel = false) ->
  exists r1 r2,
    convolve inImage kernel doNormalize edgeBit out1 = Ok tt r1 /\
    convolve inImage kernel doNormalize edgeBit out2 = Ok tt r2 /\
    forall x y, inImageBounds inImage x y = true -> pix r1 x y = pix r2 x y.
Proof.
  intros Hc1 Hc2 Hanc Hint Hd.
  destruct (basicConvolve_ok inImage kernel doNormalize out1 Hc1 Hd) as (b1 & EB1 & (w1 & h1 & _)).
  destruct (basicConvolve_ok inImage kernel doNormalize out2 Hc2 Hd) as (b2 & EB2 & (w2 & h2 & _)).
  destruct (copyBorder_pixels inImage kernel edgeBit b1) as (r1 & EC1 & _ & p1).
  { destruct Hc1 as (HW & HH & HkW & HkH). repeat split; try congruence; assumption. }
  { exact Hanc. }
  { exact Hint. }
  destruct (copyBorder_pixels inImage kernel edgeBit b2) as (r2 & EC2 & _ & p2).
  { destruct Hc2 as (HW & HH & HkW & HkH). repeat split; try congruence; assumption. }
  { exact Hanc. }
  { exact Hint. }
  exists r1, r2. unfold convolve, bind. rewrite EB1, EB2.
  split; [exact EC1|]. split; [exact EC2|].
  intros x y Hb. rewrite p1, p2.
  destruct Hc1 as (_ & _ & HkW & HkH).
  rewrite strips_cover_border, Hb by assumption. cbn [andb].
  destruct (inValidRegion inImage kernel x y) eqn:Hv; cbn [negb]; [|reflexivity].
  exact (basicConvolve_valid_pixels_overwritten _ _ _ _ _ _ _ Hanc EB1 EB2 x y Hv).
Qed.

Lemma convolve_overwrites_output_witness :
  exists r1 r2,
    convolve (utils := originAtZero) rampRow boxKernel false (-1) sevensRow = Ok tt r1 /\
    convolve (utils := originAtZero) rampRow boxKernel false (-1) rampRow = Ok tt r2 /\
    pix r1 2 0 = pix r2 2 0.
Proof.
  destruct (convolve_overwrites_output (utils := originAtZero) rampRow boxKernel false (-1)
              sevensRow rampRow) as (r1 & r2 & E1 & E2 & p).
  - unfold convolvable. simpl. lia.
  - unfold convolvable. simpl. lia.
  - unfold anchored. simpl. lia.
  - unfold intDimensions. simpl. lia.
  - intros pixel E. discriminate E.
  - exists r1, r2. split; [exact E1|]. split; [exact E2|]. apply (p 2 0). reflexivity.
Defined.

(** [convolveLinear] for a kernel that varies: outside the valid region the
    output holds the input pixels wherever the image has a pixel, and no
    other cell changes. *)
Theorem convolveLinear_border_is_input {utils : ImageUtils} inImage kernel edgeBit out :
  Kernel.isSpatiallyVarying kernel = true ->
  convolvable out inImage kernel -> intDimensions inImage ->
  wellFormedLinearCombination kernel ->
  exists out',
    convolveLinear inImage kernel edgeBit out = Ok tt out' /\
    sameFrame out' out /\
    forall x y, inValidRegion inImage kernel x y = false ->
      pix out' x y = if inImageBounds inImage x y then pix inImage x y else pix out x y.
Proof.
  intros Hsv Hc Hint (Hanc & Hwf). pose proof Hc as (HW & HH & HkW & HkH).
  unfold convolveLinear. rewrite Hsv. change (negb true) with false. cbv iota.
  pass_checks.
  match goal with
  | |- context [convolveLinear_bases _ _ _ ?bi
                  (for_range ?ya ?yb (fun cnvY => for_range ?xa ?xb (@?B cnvY)) out)] =>
      pose proof (rect_loop (getWidth out) ya yb xa xb 0 0 B (fun _ _ _ => 0%Qc)) as HP;
      set (zeroed := for_range ya yb (fun cnvY => for_range xa xb (B cnvY)) out);
      set (basisImage0 := bi)
  end.
  destruct (HP ltac:(intros j i; eapply Pointwise_ext; [apply Pointwise_setPix|];
                     intros x y v; cbv beta; reflexivity)
              out eq_refl) as (wz & hz & oz & pz).
  fold zeroed in wz, hz, oz, pz.
  destruct (convolveLinear_bases_pixels inImage kernel (getKernelTerms kernel) basisImage0 zeroed)
    as (acc & EL & (wa & ha & oa) & pa).
  { unfold convolvable, basisImage0. simpl. lia. }
  { exact Hwf. }
  destruct (copyBorder_pixels inImage kernel edgeBit acc) as (outL & EB & (wl & hl & ol) & pB).
  { unfold convolvable. repeat split; try congruence; assumption. }
  { exact Hanc. }
  { exact Hint. }
  exists outL. split; [rewrite EL; exact EB|]. split; [repeat split; congruence|].
  intros x y Hv. rewrite pB, strips_cover_border by assumption. rewrite Hv. cbn [negb].
  rewrite andb_true_r. destruct (inImageBounds inImage x y); [reflexivity|].
  rewrite pa, Hv, pz, <- inValidRegion_iff, Hv. reflexivity.
Qed.

Lemma convolveLinear_border_is_input_witness :
  exists out',
    convolveLinear (utils := originAtZero) rampRow threeBases (-1) sevensRow = Ok tt out' /\
    pix out' 2 0 = pix rampRow 2 0.
Proof.
  destruct (convolveLinear_border_is_input (utils := originAtZero) rampRow threeBases (-1) sevensRow)
    as (out' & E & _ & p).
  - reflexivity.
  - unfold convolvable. simpl. lia.
  - unfold intDimensions. simpl. lia.
  - split; [unfold anchored; simpl; lia|].
    repeat constructor; simpl; lia.
  - exists out'. split; [exact E|]. apply (p 2 0). reflexivity.
Defined.

(** In exact arithmetic, where every pixel and weight is a number and no
    product or sum is rounded or truncated to the pixel type:
    [convolveOneKernelRow] adds to its output pixel the products of one row
    of the kernel with the input pixels under it; that it skips the weights
    equal to zero does not show in the sum.  No other pixel changes.  The
    width of the kernel is not negative, so that the loop on [x != kWidth]
    ends. *)
Theorem convolveOneKernelRow_adds_row_products outImage outX outY inImage inX inY kernelImage
    kernelY kWidth :
  0 <= kWidth ->
  sameFrame (convolveOneKernelRow outImage outX outY inImage inX inY kernelImage kernelY kWidth)
    outImage /\
  forall x y,
    pix (convolveOneKernelRow outImage outX outY inImage inX inY kernelImage kernelY kWidth) x y
    = if (x =? outX) && (y =? outY)
      then (pix outImage outX outY
            + sum_range 0 kWidth (fun i => (pix inImage (inX + i) inY * kernelImage i kernelY)%Qc))%Qc
      else pix outImage x y.
Proof.
  intros _.
  split; [repeat split|].
  intros x y. unfold convolveOneKernelRow. cbv zeta. simpl pix.
  destruct ((x =? outX) && (y =? outY)); [|reflexivity].
  apply (skip_zero_loop 0 kWidth (fun i => pix inImage (inX + i) inY)
           (fun i => kernelImage i kernelY)).
Qed.

Lemma convolveOneKernelRow_adds_row_products_witness :
  pix (convolveOneKernelRow sevensRow 1 0 rampRow 1 0 zeroThenOne 0 2) 1 0 = ofZ 10 /\
  pix (convolveOneKernelRow sevensRow 1 0 rampRow 1 0 zeroThenOne 0 2) 2 0 = ofZ 7.
Proof.
  destruct (convolveOneKernelRow_adds_row_products sevensRow 1 0 rampRow 1 0 zeroThenOne 0 2
              ltac:(lia)) as (_ & p).
  split; rewrite p; qc_compute.
Defined.

Lemma convolveAtAPoint_scale inImage x0 y0 (K : KernelImage) (c : Qc) kWidth kHeight :
  convolveAtAPoint inImage x0 y0 (fun i j => (K i j * c)%Qc) kWidth kHeight
  = (convolveAtAPoint inImage x0 y0 K kWidth kHeight * c)%Qc.
Proof.
  unfold convolveAtAPoint.
  rewrite (Qcmult_comm _ c), <- sum_range_scale. apply sum_range_ext. intros j Hj.
  rewrite <- sum_range_scale. apply sum_range_ext. intros i Hi. ring.
Qed.

(** Normalization on the paths that do not go through weight vectors, in
    exact arithmetic: at every valid pixel where the sum of the kernel's
    weights is not zero, the normalized output is the output without
    normalization divided by that sum, whether the sum divides the kernel
    image beforehand (kernel that does not vary) or the convolved pixel
    afterwards (kernel that varies).  A sum of zero, by which the source
    divides all the same, is left out. *)
Theorem basicConvolve_normalizes_by_kernel_sum {utils : ImageUtils} inImage kernel out :
  convolvable out inImage kernel -> wellFormedKernel kernel ->
  (forall c r, Kernel.shape kernel <> ShapeSeparable c r) ->
  exists outRaw outNormalized,
    basicConvolve inImage kernel false out = Ok tt outRaw /\
    basicConvolve inImage kernel true out = Ok tt outNormalized /\
    forall x y, inValidRegion inImage kernel x y = true ->
      imageSum (Kernel.getWidth kernel) (Kernel.getHeight kernel) (kernelImageAt kernel x y)
      <> 0%Qc ->
      pix outNormalized x y
      = (pix outRaw x y
         / imageSum (Kernel.getWidth kernel) (Kernel.getHeight kernel) (kernelImageAt kernel x y))%Qc.
Proof.
  intros Hc (Hanc & Hwf) Hns.
  assert (Hgen : exists outRaw outNormalized,
            basicConvolve_general inImage kernel false out = Ok tt outRaw /\
            basicConvolve_general inImage kernel true out = Ok tt outNormalized /\
            forall x y, inValidRegion inImage kernel x y = true ->
              imageSum (Kernel.getWidth kernel) (Kernel.getHeight kernel)
                (kernelImageAt kernel x y) <> 0%Qc ->
              pix outNormalized x y
              = (pix outRaw x y
                 / imageSum (Kernel.getWidth kernel) (Kernel.getHeight kernel)
                     (kernelImageAt kernel x y))%Qc).
  { unfold kernelImageAt. destruct (Kernel.isSpatiallyVarying kernel) eqn:Hsv.
    - destruct (basicConvolve_general_varying_pixels inImage kernel false out Hsv Hc)
        as (o1 & E1 & _ & p1).
      destruct (basicConvolve_general_varying_pixels inImage kernel true out Hsv Hc)
        as (o2 & E2 & _ & p2).
      exists o1, o2. split; [exact E1|]. split; [exact E2|].
      intros x y Hv _. rewrite p1, p2, Hv. reflexivity.
    - destruct (basicConvolve_general_invariant_pixels inImage kernel false out Hsv Hc
                  ltac:(destruct Hanc; lia)) as (o1 & E1 & _ & p1).
      destruct (basicConvolve_general_invariant_pixels inImage kernel true out Hsv Hc
                  ltac:(destruct Hanc; lia)) as (o2 & E2 & _ & p2).
      exists o1, o2. split; [exact E1|]. split; [exact E2|].
      intros x y Hv _. rewrite p1, p2. unfold inValidRegion in Hv.
      apply andb_prop in Hv as [Hv Hy2]. apply andb_prop in Hv as [Hv Hy1].
      rewrite Hy1, Hy2, Hv. cbn [andb]. unfold computeImage. cbn [fst].
      unfold Qcdiv. apply convolveAtAPoint_scale. }
  unfold basicConvolve. destruct (Kernel.shape kernel) as [image|pixel|c r|terms] eqn:Es.
  - exact Hgen.
  - destruct Hwf as (Hsv & Hpx & Hpy).
    destruct (basicConvolve_DeltaFunctionKernel_pixels inImage kernel pixel false out Hsv Hc)
      as (o1 & E1 & _ & p1).
    destruct (basicConvolve_DeltaFunctionKernel_pixels inImage kernel pixel true out Hsv Hc)
      as (o2 & E2 & _ & p2).
    exists o1, o2. split; [exact E1|]. split; [exact E2|].
    intros x y Hv _. rewrite p1, p2, Hv. unfold kernelImageAt, rawImage. rewrite Hsv, Es.
    rewrite imageSum_delta by assumption.
    unfold Qcdiv. change (/ 1)%Qc with 1%Qc. symmetry. apply Qcmult_1_r.
  - exfalso. exact (Hns c r eq_refl).
  - exact Hgen.
Qed.

Lemma basicConvolve_normalizes_by_kernel_sum_witness :
  exists outRaw outNormalized,
    basicConvolve (utils := originAtZero) rampRow boxKernel false sevensRow = Ok tt outRaw /\
    basicConvolve (utils := originAtZero) rampRow boxKernel true sevensRow = Ok tt outNormalized /\
    pix outNormalized 1 0 = (pix outRaw 1 0 / ofZ 2)%Qc.
Proof.
  destruct (basicConvolve_normalizes_by_kernel_sum (utils := originAtZero) rampRow boxKernel sevensRow)
    as (o1 & o2 & E1 & E2 & p).
  - unfold convolvable. simpl. lia.
  - split; [unfold anchored; simpl; lia|exact I].
  - intros c r E. discriminate E.
  - exists o1, o2. split; [exact E1|]. split; [exact E2|].
    rewrite (p 1 0); [|reflexivity|qc_differ].
    f_equal; vm_compute; apply Qc_is_canon; reflexivity.
Defined.

(** ** Border pixels and fast paths: instances *)

Lemma basicConvolve_border_pixels_witness :
  exists out',
    basicConvolve (utils := originAtZero) rampRow boxKernel false sevensRow = Ok tt out' /\
    pix out' 2 0 = 0%Qc.
Proof.
  destruct (basicConvolve_border_pixels (utils := originAtZero) rampRow boxKernel false sevensRow)
    as (out' & E & p).
  - unfold convolvable. simpl. lia.
  - split; [unfold anchored; simpl; lia|exact I].
  - exists out'. split; [exact E|]. rewrite (p 2 0); reflexivity.
Defined.

Lemma fast_paths_agree_on_valid_region_witness :
  exists outFast outGeneral,
    basicConvolve (utils := originAtZero) rampRow separableBoxKernel true sevensRow = Ok tt outFast /\
    basicConvolve (utils := originAtZero) rampRow (asDenseKernel separableBoxKernel) true sevensRow
      = Ok tt outGeneral /\
    pix outFast 1 0 = pix outGeneral 1 0.
Proof.
  destruct (fast_paths_agree_on_valid_region (utils := originAtZero) rampRow separableBoxKernel true
              sevensRow) as (o1 & o2 & E1 & E2 & p).
  - reflexivity.
  - unfold convolvable. simpl. lia.
  - split; [unfold anchored; simpl; lia|exact I].
  - exists o1, o2. split; [exact E1|]. split; [exact E2|]. apply (p 1 0). reflexivity.
Defined.

(** ** The border of a masked image *)

Lemma MPointwise_ext F T T' :
  MPointwise F T -> (forall x y v, T x y v = T' x y v) -> MPointwise F T'.
Proof.
  intros HF E im. destruct (HF im) as (w & h & p).
  split; [exact w|]. split; [exact h|]. intros x y. now rewrite p, E.
Qed.

Lemma MPointwise_updMPix x0 y0 f :
  MPointwise (fun im => updMPix im x0 y0 f)
    (fun x y v => if (x =? x0) && (y =? y0) then f v else v).
Proof. intros im. simpl. auto. Qed.

Lemma Mrect_loop ya yb xa xb cx cy (body : Z -> Z -> MaskedImage -> MaskedImage)
    (g : Z -> Z -> MaskedPixel -> MaskedPixel) :
  (forall j i, MPointwise (body j i)
                 (fun x y v => if (x =? cx + i) && (y =? cy + j) then g i j v else v)) ->
  MPointwise (for_range ya yb (fun j => for_range xa xb (fun i => body j i)))
    (fun x y v =>
       if (cx + xa <=? x) && (x <? cx + xb) && (cy + ya <=? y) && (y <? cy + yb)
       then g (x - cx) (y - cy) v else v).
Proof.
  intros HB.
  eapply MPointwise_ext.
  - apply MPointwise_for_range. intros j _. apply MPointwise_for_range. intros i _. apply HB.
  - intros x y v. cbv beta. apply scalar_rect_loop.
Qed.

Lemma copyRegionMasked_pixels inImage region orMask out :
  fitsIn region (imagePlane out) = true -> fitsIn region (imagePlane inImage) = true ->
  exists out',
    copyRegionMasked inImage region orMask out = MaskedOk out' /\
    miWidth out' = miWidth out /\ miHeight out' = miHeight out /\
    forall x y,
      mpix out' x y =
      if inBBox region x y
      then mkMaskedPixel (image (mpix inImage x y))
             (to_MaskPixel (Z.lor (mask (mpix inImage x y)) orMask)) (variance (mpix inImage x y))
      else mpix out x y.
Proof.
  intros Hout Hin. unfold copyRegionMasked. rewrite Hout, Hin. cbn [negb].
  eexists. split; [reflexivity|].
  pose proof (Mrect_loop 0 (bboxHeight region) 0 (bboxWidth region)
                (getMinX region) (getMinY region)
                (fun j i out =>
                   updMPix out (getMinX region + i) (getMinY region + j)
                     (fun _ => mpix inImage (getMinX region + i) (getMinY region + j)))
                (fun i j _ => mpix inImage (getMinX region + i) (getMinY region + j))) as HP1.
  pose proof (Mrect_loop 0 (bboxHeight region) 0 (bboxWidth region)
                (getMinX region) (getMinY region)
                (fun j i out =>
                   updMPix out (getMinX region + i) (getMinY region + j)
                     (fun p => mkMaskedPixel (image p) (to_MaskPixel (Z.lor (mask p) orMask))
                                 (variance p)))
                (fun i j p => mkMaskedPixel (image p) (to_MaskPixel (Z.lor (mask p) orMask))
                                (variance p))) as HP2.
  specialize (HP1 ltac:(intros j i; apply MPointwise_updMPix)).
  specialize (HP2 ltac:(intros j i; apply MPointwise_updMPix)).
  match goal with
  | |- context [for_range 0 ?h ?B2 (for_range 0 ?h ?B1 out)] =>
      destruct (HP1 out) as (w1 & h1 & p1);
      destruct (HP2 (for_range 0 h B1 out)) as (w2 & h2 & p2)
  end.
  split; [congruence|]. split; [congruence|].
  intros x y. rewrite p2, p1. unfold inBBox. rewrite !Z.add_0_r.
  destruct (_ && _); [|reflexivity].
  cbn [image mask variance]. repeat f_equal; lia.
Qed.

Lemma to_MaskPixel_setbit m n :
  0 <= m < 2 ^ 16 -> 0 <= n < 16 -> to_MaskPixel (Z.lor m (Z.shiftl 1 n)) = Z.setbit m n.
Proof.
  intros Hm Hn. unfold to_MaskPixel, Z.setbit.
  rewrite <- Z.land_ones by lia. rewrite Z.land_lor_distr_l.
  rewrite !Z.land_ones by lia.
  rewrite (Z.mod_small m) by lia.
  rewrite Z.shiftl_1_l. rewrite Z.mod_small; [reflexivity|].
  split; [apply Z.pow_nonneg; lia|apply Z.pow_lt_mono_r; lia].
Qed.

(** [copyBorder] on masked images with an edge bit among the bits of a
    [MaskPixel]: every pixel of the image outside the valid region receives
    the image and the variance of the input pixel and its mask with the edge
    bit set, or the mask as it is when the edge bit is negative; no other
    pixel changes. *)
Theorem copyBorderMasked_marks_the_border inImage kernel edgeBit out :
  convolvable (imagePlane out) (imagePlane inImage) kernel ->
  anchored kernel -> intDimensions (imagePlane inImage) ->
  maskPixelsInRange inImage -> edgeBit < 16 ->
  exists out',
    copyBorderMasked inImage kernel edgeBit out = MaskedOk out' /\
    miWidth out' = miWidth out /\ miHeight out' = miHeight out /\
    forall x y,
      mpix out' x y =
      if inImageBounds (imagePlane inImage) x y && negb (inValidRegion (imagePlane inImage) kernel x y)
      then borderPixelOf edgeBit (mpix inImage x y)
      else mpix out x y.
Proof.
  intros (HW & HH & HkW & HkH) Hanc Hint Hmask Hbit.
  set (inPlane := imagePlane inImage) in *.
  pose proof (bottomEdge_plain inPlane kernel Hint Hanc HkW HkH) as Eb.
  pose proof (topEdge_plain inPlane kernel Hint Hanc HkW HkH) as Et.
  pose proof (leftEdge_plain inPlane kernel Hint Hanc HkW HkH) as El.
  pose proof (rightEdge_plain inPlane kernel Hint Hanc HkW HkH) as Er.
  pose proof (strips_cover_border inPlane kernel) as Hcover.
  assert (Fb : fitsIn (bottomEdge inPlane kernel) inPlane = true)
    by (destruct Hint, Hanc; rewrite Eb; unfold fitsIn; cbn [getMinX getMinY bboxWidth bboxHeight]; bool_cases; try lia; reflexivity).
  assert (Ft : fitsIn (topEdge inPlane kernel) inPlane = true)
    by (destruct Hint, Hanc; rewrite Et; unfold fitsIn; cbn [getMinX getMinY bboxWidth bboxHeight]; bool_cases; try lia; reflexivity).
  assert (Fl : fitsIn (leftEdge inPlane kernel) inPlane = true)
    by (destruct Hint, Hanc; rewrite El; unfold fitsIn; cbn [getMinX getMinY bboxWidth bboxHeight]; bool_cases; try lia; reflexivity).
  assert (Fr : fitsIn (rightEdge inPlane kernel) inPlane = true)
    by (destruct Hint, Hanc; rewrite Er; unfold fitsIn; cbn [getMinX getMinY bboxWidth bboxHeight]; bool_cases; try lia; reflexivity).
  assert (Fo : forall im region, miWidth im = miWidth inImage -> miHeight im = miHeight inImage ->
                 fitsIn region inPlane = true -> fitsIn region (imagePlane im) = true).
  { intros im region w h F. unfold fitsIn, inPlane in *.
    cbn [imagePlane getWidth getHeight] in *. now rewrite w, h. }
  unfold inPlane in HW, HH. cbn [imagePlane getWidth getHeight] in HW, HH.
  unfold copyBorderMasked. fold inPlane.
  set (m := if edgeBit <? 0 then 0 else Z.shiftl 1 edgeBit).
  destruct (copyRegionMasked_pixels inImage (bottomEdge inPlane kernel) m out
              (Fo out _ HW HH Fb) Fb) as (o1 & E1 & w1 & h1 & p1).
  destruct (copyRegionMasked_pixels inImage (topEdge inPlane kernel) m o1
              (Fo o1 _ ltac:(congruence) ltac:(congruence) Ft) Ft) as (o2 & E2 & w2 & h2 & p2).
  destruct (copyRegionMasked_pixels inImage (leftEdge inPlane kernel) m o2
              (Fo o2 _ ltac:(congruence) ltac:(congruence) Fl) Fl) as (o3 & E3 & w3 & h3 & p3).
  destruct (copyRegionMasked_pixels inImage (rightEdge inPlane kernel) m o3
              (Fo o3 _ ltac:(congruence) ltac:(congruence) Fr) Fr) as (o4 & E4 & w4 & h4 & p4).
  exists o4. rewrite E1, E2, E3. split; [exact E4|].
  split; [congruence|]. split; [congruence|].
  intros x y. rewrite <- Hcover by assumption. rewrite p4, p3, p2, p1. unfold inBorderStrips.
  assert (Em : to_MaskPixel (Z.lor (mask (mpix inImage x y)) m)
               = if edgeBit <? 0 then mask (mpix inImage x y)
                 else Z.setbit (mask (mpix inImage x y)) edgeBit).
  { subst m. destruct (Z.ltb_spec edgeBit 0).
    - rewrite Z.lor_0_r. unfold to_MaskPixel. apply Z.mod_small. apply Hmask.
    - apply to_MaskPixel_setbit; [apply Hmask|lia]. }
  unfold borderPixelOf. rewrite <- Em.
  destruct (inBBox (bottomEdge inPlane kernel) x y), (inBBox (topEdge inPlane kernel) x y),
    (inBBox (leftEdge inPlane kernel) x y), (inBBox (rightEdge inPlane kernel) x y); reflexivity.
Qed.

Lemma copyBorderMasked_marks_the_border_witness :
  exists out',
    copyBorderMasked fiveByFiveMasked threeByThree 4 fiveByFiveMasked = MaskedOk out' /\
    mask (mpix out' 0 0) = 17 /\ mask (mpix out' 2 2) = 1.
Proof.
  destruct (copyBorderMasked_marks_the_border fiveByFiveMasked threeByThree 4 fiveByFiveMasked)
    as (out' & E & _ & _ & p).
  - unfold convolvable. simpl. lia.
  - unfold anchored. simpl. lia.
  - unfold intDimensions. simpl. lia.
  - intros x y. simpl. lia.
  - lia.
  - exists out'. split; [exact E|]. split; rewrite p; reflexivity.
Defined.

(** ** More on warping *)

Lemma Qc_eqb_refl a : Qc_eqb a a = true.
Proof. unfold Qc_eqb. destruct (Qc_eq_dec a a); [reflexivity|contradiction]. Qed.

Lemma Qc_eqb_neq a b : a <> b -> Qc_eqb a b = false.
Proof. intros H. unfold Qc_eqb. destruct (Qc_eq_dec a b); [contradiction|reflexivity]. Qed.

(** The two weights of [BilinearFunction1], at 0 and at 1, sum to one and
    interpolate linearly between two neighbouring values; every other
    argument is refused with [InvalidParameterException]. *)
Theorem BilinearFunction1_interpolates param0 :
  (exists w0 w1,
     BilinearFunction1 param0 0%Qc = inl w0 /\ BilinearFunction1 param0 1%Qc = inl w1 /\
     (w0 + w1 = 1)%Qc /\
     forall a b : Qc, (w0 * a + w1 * b = a + param0 * (b - a))%Qc) /\
  (forall x, BilinearFunction1 param0 x = inr InvalidParameterException <-> x <> 0%Qc /\ x <> 1%Qc).
Proof.
  split.
  - exists (1 - param0)%Qc, param0. unfold BilinearFunction1.
    rewrite Qc_eqb_refl.
    rewrite (Qc_eqb_neq 1%Qc 0%Qc) by (intros E; discriminate E).
    rewrite Qc_eqb_refl.
    split; [reflexivity|]. split; [reflexivity|]. split; [ring|]. intros a b. ring.
  - intros x. unfold BilinearFunction1, Qc_eqb.
    destruct (Qc_eq_dec x 0%Qc) as [->|H0].
    + split; [intros E; discriminate E|intros [H _]; now contradiction H].
    + destruct (Qc_eq_dec x 1%Qc) as [->|H1].
      * split; [intros E; discriminate E|intros [_ H]; now contradiction H].
      * split; [auto|reflexivity].
Qed.

Lemma offSource_of_small_source warpingKernel srcWidth srcHeight srcIndX srcIndY :
  srcWidth < Kernel.getWidth warpingKernel \/ srcHeight < Kernel.getHeight warpingKernel ->
  offSource warpingKernel srcWidth srcHeight srcIndX srcIndY = true.
Proof. intros H. unfold offSource. bool_cases; try reflexivity; lia. Qed.

Lemma filter_none {A} (f : A -> bool) (l : list A) :
  (forall a, In a l -> f a = false) -> filter f l = [].
Proof.
  induction l as [|a l IH]; intros H; [reflexivity|].
  simpl. rewrite (H a) by (left; reflexivity). apply IH. intros b Hb. apply H. now right.
Qed.

(** A source image narrower or lower than the warping kernel is no error for
    [warpExposure]: every destination pixel becomes the edge pixel and the
    number of good pixels returned is zero.  This holds where the source
    indices and the sums of the margin test are values of C++ [int] at every
    destination pixel, so that no sum overflows past the test. *)
Theorem warpExposure_source_smaller_than_kernel {utils : ImageUtils} {maskOps : MaskedImageOps}
    destExposure srcExposure warpingKernel c r :
  (forall x y,
     0 <= x < miWidth (getMaskedImage destExposure) ->
     0 <= y < miHeight (getMaskedImage destExposure) ->
     indexInIntRange destExposure srcExposure warpingKernel x y = true) ->
  miWidth (getMaskedImage srcExposure) < Kernel.getWidth warpingKernel \/
  miHeight (getMaskedImage srcExposure) < Kernel.getHeight warpingKernel ->
  snd (warpExposure destExposure srcExposure warpingKernel c r) = 0 /\
  forall x y,
    0 <= x < miWidth (getMaskedImage destExposure) ->
    0 <= y < miHeight (getMaskedImage destExposure) ->
    mpix (fst (warpExposure destExposure srcExposure warpingKernel c r)) x y
    = edgePixelOf (getPlaneBitMask (getMaskedImage srcExposure) MaskPlaneNames.EDGE).
Proof.
  intros _ Hsmall.
  assert (Hoff : forall x y, isOffSource destExposure srcExposure warpingKernel x y = true).
  { intros x y. unfold isOffSource. now apply offSource_of_small_source. }
  destruct (warpExposure_pixels destExposure srcExposure warpingKernel c r) as (Hp & Hn).
  split.
  - rewrite Hn, filter_none; [reflexivity|]. intros p _. now rewrite Hoff.
  - intros x y Hx Hy. now rewrite (Hp x y Hx Hy), Hoff.
Qed.

Lemma warpExposure_source_smaller_than_kernel_witness :
  snd (warpExposure (utils := originAtZero) (maskOps := exampleMaskOps)
         (blankExposure identityWcs) (rampExposure identityWcs)
         (Kernel.mk 5 2 2 1 false
            (ShapeSeparable (fun _ _ => taperedWeights 0) (fun _ _ => taperedWeights 0)))
         (fun _ _ => taperedWeights 0) (fun _ _ => taperedWeights 0))
  = 0.
Proof.
  apply (warpExposure_source_smaller_than_kernel (utils := originAtZero) (maskOps := exampleMaskOps)
           (blankExposure identityWcs) (rampExposure identityWcs)).
  - intros x y Hx Hy. simpl in Hx, Hy.
    assert (Ex : x = 0 \/ x = 1 \/ x = 2 \/ x = 3) by lia.
    assert (Ey : y = 0 \/ y = 1 \/ y = 2 \/ y = 3) by lia.
    destruct Ex as [->|[->|[->| ->]]], Ey as [->|[->|[->| ->]]]; vm_compute; reflexivity.
  - left. simpl. lia.
Defined.



(** ** Regions of any extent under [convolveRegionWithInterpolation] *)

(** The inner loop tests its bound after the body: it convolves one pixel
    even when the region has no column. *)
Lemma interpolateRow_pixels_any inImage kWidth kHeight width deltaImage inX inY outX outY out K :
  sameFrame
    (fst (interpolateRow (Z.to_nat (Z.max 1 width)) inImage kWidth kHeight width deltaImage
            inX inY outX outY 0 (out, K)))
    out /\
  forall x y,
    pix (fst (interpolateRow (Z.to_nat (Z.max 1 width)) inImage kWidth kHeight width deltaImage
                inX inY outX outY 0 (out, K))) x y
    = if (y =? outY) && (outX <=? x) && (x <? outX + Z.max 1 width)
      then convolveAtAPoint inImage (inX + (x - outX)) inY
             (fun a b => (K a b + ofZ (x - outX) * deltaImage a b)%Qc) kWidth kHeight
      else pix out x y.
Proof.
  destruct (Z_le_gt_dec 1 width) as [Hw|Hw].
  - destruct (interpolateRow_pixels (Z.to_nat (Z.max 1 width)) inImage kWidth kHeight width
                deltaImage inX inY outX outY 0 out K ltac:(lia) ltac:(lia)) as (F & p).
    split; [exact F|]. intros x y. rewrite p.
    replace (Z.of_nat (Z.to_nat (Z.max 1 width))) with (Z.max 1 width) by lia. reflexivity.
  - replace (Z.max 1 width) with 1 by lia. change (Z.to_nat 1) with 1%nat.
    cbn [interpolateRow]. destruct (Z.geb_spec (0 + 1) width); [|lia].
    cbn [fst]. split; [repeat split|].
    intros x y. simpl pix.
    destruct (Z.eqb_spec x outX) as [->|Hx]; destruct (Z.eqb_spec y outY) as [->|Hy];
      cbn [andb]; bool_cases; try lia; try reflexivity.
    rewrite Z.sub_diag, Z.add_0_r. apply convolveAtAPoint_ext. intros a b _ _.
    change (ofZ 0) with 0%Qc. ring.
Qed.

Lemma interpolateRows_pixels_any fuel inImage kWidth kHeight width height xfrac
    inX inY outX outY j out w :
  (1 <= fuel)%nat -> Z.of_nat fuel = Z.max 1 (height - j) ->
  (forall a b, kernelImage w a b = leftImage w a b) ->
  sameFrame
    (fst (interpolateRows fuel inImage kWidth kHeight width height xfrac inX inY outX outY j
            (out, w)))
    out /\
  forall x y,
    pix (fst (interpolateRows fuel inImage kWidth kHeight width height xfrac inX inY outX outY j
                (out, w))) x y
    = if (outY <=? y) && (y <? outY + Z.of_nat fuel) && (outX <=? x) && (x <? outX + Z.max 1 width)
      then convolveAtAPoint inImage (inX + (x - outX)) (inY + (y - outY))
             (fun a b =>
                let L := (leftImage w a b + ofZ (y - outY) * leftDeltaImage w a b)%Qc in
                let R := (rightImage w a b + ofZ (y - outY) * rightDeltaImage w a b)%Qc in
                (L + ofZ (x - outX) * (xfrac * R + - xfrac * L))%Qc)
             kWidth kHeight
      else pix out x y.
Proof.
  revert inY outY j out w.
  induction fuel as [|fuel IH]; intros inY outY j out w Hfuel Hh Hk; [lia|].
  cbn [interpolateRows].
  destruct (interpolateRow_pixels_any inImage kWidth kHeight width
              (scaledPlus xfrac (rightImage w) (- xfrac)%Qc (leftImage w))
              inX inY outX outY out (kernelImage w))
    as ((w1 & h1 & o1) & p1).
  destruct (interpolateRow _ _ _ _ _ _ _ _ _ _ _ _) as [out1 K1]. cbn [fst] in w1, h1, o1, p1.
  destruct (Z.geb_spec (j + 1) height) as [Hlast|Hmore].
  - assert (fuel = O) by lia. subst fuel. cbn [fst]. split; [repeat split; assumption|].
    intros x y. rewrite p1.
    destruct (Z.eqb_spec y outY) as [->|Hy].
    + replace ((outY <=? outY) && (outY <? outY + Z.of_nat 1)) with true
        by (symmetry; bool_to_prop; lia).
      cbn [andb]. destruct ((outX <=? x) && (x <? outX + Z.max 1 width)); [|reflexivity].
      rewrite Z.sub_diag, Z.add_0_r. apply convolveAtAPoint_ext. intros a b _ _.
      unfold scaledPlus. cbv zeta. rewrite Hk. change (ofZ 0) with 0%Qc. ring.
    + replace ((outY <=? y) && (y <? outY + Z.of_nat 1)) with false
        by (symmetry; bool_to_prop; lia).
      reflexivity.
  - destruct (IH (inY + 1) (outY + 1) (j + 1) out1
                (mkWorkingImages (plusAssign (leftImage w) (leftDeltaImage w))
                   (plusAssign (rightImage w) (rightDeltaImage w)) (leftDeltaImage w)
                   (rightDeltaImage w)
                   (scaledPlus xfrac (rightImage w) (- xfrac)%Qc (leftImage w))
                   (plusAssign (leftImage w) (leftDeltaImage w)))
                ltac:(lia) ltac:(lia) ltac:(reflexivity)) as ((w2 & h2 & o2) & p2).
    split; [repeat split; congruence|].
    intros x y. rewrite p2, p1. cbn [leftImage rightImage leftDeltaImage rightDeltaImage].
    destruct (Z.eqb_spec y outY) as [->|Hy].
    + replace ((outY + 1 <=? outY) && (outY <? outY + 1 + Z.of_nat fuel)) with false
        by (symmetry; bool_to_prop; lia).
      replace ((outY <=? outY) && (outY <? outY + Z.of_nat (S fuel))) with true
        by (symmetry; bool_to_prop; lia).
      cbn [andb]. destruct ((outX <=? x) && (x <? outX + Z.max 1 width)); [|reflexivity].
      rewrite Z.sub_diag, Z.add_0_r. apply convolveAtAPoint_ext. intros a b _ _.
      unfold scaledPlus. cbv zeta. rewrite Hk. change (ofZ 0) with 0%Qc. ring.
    + cbn [andb].
      replace ((outY <=? y) && (y <? outY + Z.of_nat (S fuel)))
        with ((outY + 1 <=? y) && (y <? outY + 1 + Z.of_nat fuel))
        by (apply eq_true_iff_eq; bool_to_prop; lia).
      match goal with |- (if ?c then _ else _) = _ => destruct c end; [|reflexivity].
      replace (inY + 1 + (y - (outY + 1))) with (inY + (y - outY)) by lia.
      apply convolveAtAPoint_ext. intros a b _ _. unfold plusAssign. cbv zeta.
      replace (y - outY) with (1 + (y - (outY + 1))) by lia.
      rewrite ofZ_add. change (ofZ 1) with 1%Qc. ring.
Qed.

(** [convolveRegionWithInterpolation] does not skip an empty region.  Its two
    loops test their bounds after the body, so for a region of any width and
    height, zero and negative ones included, it writes the box of
    max(1, width) x max(1, height) pixels at the region's lower left corner
    and nothing else; the pixel at that corner is always convolved with the
    kernel image of the region's bottom left corner. *)
Theorem convolveRegionWithInterpolation_never_skips {utils : ImageUtils} inImage region out w :
  sameFrame (fst (convolveRegionWithInterpolation inImage region (out, w))) out /\
  (forall x y,
     inBBox (mkBBox (getMinX (getBBox region)) (getMinY (getBBox region))
               (Z.max 1 (bboxWidth (getBBox region))) (Z.max 1 (bboxHeight (getBBox region)))) x y
     = false ->
     pix (fst (convolveRegionWithInterpolation inImage region (out, w))) x y = pix out x y) /\
  pix (fst (convolveRegionWithInterpolation inImage region (out, w)))
    (getMinX (getBBox region)) (getMinY (getBBox region))
  = convolveAtAPoint inImage
      (getMinX (growBBox (getKernel region) (getBBox region)))
      (getMinY (growBBox (getKernel region) (getBBox region)))
      (getImage region BOTTOM_LEFT)
      (Kernel.getWidth (getKernel region)) (Kernel.getHeight (getKernel region)).
Proof.
  unfold convolveRegionWithInterpolation.
  match goal with
  | |- context [interpolateRows ?fuel inImage ?kW ?kH ?width ?height ?xfrac ?inX ?inY ?outX ?outY 0
                  (out, ?w0)] =>
      destruct (interpolateRows_pixels_any fuel inImage kW kH width height xfrac inX inY outX outY 0
                  out w0 ltac:(lia) ltac:(lia) ltac:(reflexivity)) as (F & p)
  end.
  split; [exact F|]. split.
  - intros x y Hout. rewrite p. unfold inBBox in Hout. cbn [getMinX getMinY bboxWidth bboxHeight] in Hout.
    match goal with
    | |- (if ?c then _ else _) = _ =>
        replace c with false; [reflexivity|]
    end.
    symmetry. rewrite <- Hout. apply eq_true_iff_eq. bool_to_prop. lia.
  - rewrite p.
    match goal with
    | |- (if ?c then _ else _) = _ =>
        replace c with true by (symmetry; bool_to_prop; lia)
    end.
    rewrite !Z.sub_diag, !Z.add_0_r. apply convolveAtAPoint_ext. intros a b _ _.
    cbn [leftImage rightImage leftDeltaImage rightDeltaImage]. cbv zeta.
    change (ofZ 0) with 0%Qc. ring.
Qed.

(** ** Images as views of pixel buffers *)

Lemma for_range_invariant {S : Type} (P : Z -> S -> Prop) a b (body : Z -> S -> S) s :
  a <= b -> P a s ->
  (forall i s, a <= i < b -> P i s -> P (i + 1) (body i s)) ->
  P b (for_range a b body s).
Proof.
  intros Hab H0. revert Hab. pattern b. apply (range_ind a); clear b.
  - intros b Hb Hab _. assert (b = a) by lia. subst b. now rewrite for_range_empty by lia.
  - intros b Hb IH _ HS. rewrite for_range_snoc by lia.
    apply HS; [lia|]. apply IH; [lia|]. intros i s' Hi. apply HS. lia.
Qed.

Ltac bool_eq :=
  apply eq_true_iff_eq; rewrite ?Nat.eqb_eq; bool_to_prop; rewrite ?Nat.eqb_eq; lia.

Ltac bool_false :=
  match goal with
  | |- ?b = false =>
      let E := fresh "E" in
      destruct b eqn:E; [exfalso; rewrite ?Nat.eqb_eq in E; bool_to_prop; rewrite ?Nat.eqb_eq in E; lia
                        |reflexivity]
  end.

Section ImageBaseProperties.
Import ImageBase.
Variable PixelT : Type.

(** Two nested loops that write the pixels of a view, each from its own
    former value and from buffers other than the view's. *)
Lemma write_loop_cells (heap : Heap PixelT) (dst : View)
    (g : Z -> Z -> Heap PixelT -> PixelT) (G : Z -> Z -> PixelT) :
  (forall x y h, 0 <= x < viewWidth dst -> 0 <= y < viewHeight dst ->
     cells h (buffer dst) (viewX0 dst + x) (viewY0 dst + y)
     = cells heap (buffer dst) (viewX0 dst + x) (viewY0 dst + y) ->
     (forall b cx cy, b <> buffer dst -> cells h b cx cy = cells heap b cx cy) ->
     g x y h = G x y) ->
  let heap' :=
    for_range 0 (viewHeight dst) (fun y =>
      for_range 0 (viewWidth dst) (fun x h => writePixel h dst x y (g x y h))) heap in
  nextBuffer heap' = nextBuffer heap /\ allocated heap' = allocated heap /\
  forall b cx cy,
    cells heap' b cx cy
    = if inView dst b cx cy then G (cx - viewX0 dst) (cy - viewY0 dst) else cells heap b cx cy.
Proof.
  intros Hg. cbv zeta. unfold inView.
  set (W := viewWidth dst) in *. set (H := viewHeight dst) in *.
  set (X0 := viewX0 dst) in *. set (Y0 := viewY0 dst) in *. set (B := buffer dst) in *.
  destruct (Z_le_gt_dec H 0) as [HH|HH].
  { rewrite for_range_empty by lia. split; [reflexivity|]. split; [reflexivity|].
    intros b cx cy.
    replace ((b =? B)%nat && (X0 <=? cx) && (cx <? X0 + W) && (Y0 <=? cy) && (cy <? Y0 + H))
      with false; [reflexivity|]. symmetry. bool_false. }
  pose (done := fun (rows cols : Z) (b : nat) (cx cy : Z) =>
          (b =? B)%nat && (X0 <=? cx) && (cx <? X0 + W) &&
          (((Y0 <=? cy) && (cy <? Y0 + rows)) || ((cy =? Y0 + rows) && (cx <? X0 + cols)))).
  pose (Inv := fun (rows cols : Z) (h : Heap PixelT) =>
          nextBuffer h = nextBuffer heap /\ allocated h = allocated heap /\
          forall b cx cy,
            cells h b cx cy
            = if done rows cols b cx cy then G (cx - X0) (cy - Y0) else cells heap b cx cy).
  assert (Hrows : Inv H 0
            (for_range 0 H (fun y =>
               for_range 0 W (fun x h => writePixel h dst x y (g x y h))) heap)).
  { apply (for_range_invariant (fun y h => Inv y 0 h)); [lia| |].
    - split; [reflexivity|]. split; [reflexivity|]. intros b cx cy.
      replace (done 0 0 b cx cy) with false; [reflexivity|].
      symmetry. subst done. cbv beta. bool_false.
    - intros y h Hy Hinv.
      assert (Hcols : Inv y (Z.max 0 W)
                (for_range 0 W (fun x h => writePixel h dst x y (g x y h)) h)).
      { destruct (Z_le_gt_dec W 0) as [HW|HW].
        - rewrite for_range_empty by lia. replace (Z.max 0 W) with 0 by lia. exact Hinv.
        - replace (Z.max 0 W) with W by lia.
          apply (for_range_invariant (fun x h => Inv y x h)); [lia|exact Hinv|].
          intros x h' Hx (Hn & Ha & Hc).
          assert (Eg : g x y h' = G x y).
          { apply Hg; [lia|lia| |].
            - rewrite Hc. replace (done y x B (X0 + x) (Y0 + y)) with false; [reflexivity|].
              symmetry. subst done. cbv beta. bool_false.
            - intros b cx cy Hb. rewrite Hc.
              replace (done y x b cx cy) with false; [reflexivity|].
              symmetry. subst done. cbv beta. bool_false. }
          split; [exact Hn|]. split; [exact Ha|].
          intros b cx cy. unfold writePixel. cbn [cells]. fold B X0 Y0. rewrite Eg, Hc.
          destruct ((b =? B)%nat && (cx =? X0 + x) && (cy =? Y0 + y)) eqn:Ecell.
          + replace (done y (x + 1) b cx cy) with true.
            * f_equal; bool_to_prop; lia.
            * symmetry. subst done. cbv beta. rewrite ?Nat.eqb_eq in *. bool_to_prop.
              rewrite ?Nat.eqb_eq in *. lia.
          + replace (done y (x + 1) b cx cy) with (done y x b cx cy); [reflexivity|].
            subst done. cbv beta.
            apply eq_true_iff_eq.
            apply andb_false_iff in Ecell.
            rewrite ?Nat.eqb_eq. bool_to_prop. rewrite ?Nat.eqb_eq, ?Nat.eqb_neq in *. lia. }
      destruct Hcols as (Hn & Ha & Hc). split; [exact Hn|]. split; [exact Ha|].
      intros b cx cy. rewrite Hc.
      replace (done y (Z.max 0 W) b cx cy) with (done (y + 1) 0 b cx cy); [reflexivity|].
      subst done. cbv beta. bool_eq. }
  destruct Hrows as (Hn & Ha & Hc). split; [exact Hn|]. split; [exact Ha|].
  intros b cx cy. rewrite Hc.
  replace (done H 0 b cx cy)
    with ((b =? B)%nat && (X0 <=? cx) && (cx <? X0 + W) && (Y0 <=? cy) && (cy <? Y0 + H));
    [reflexivity|].
  subst done. cbv beta. bool_eq.
Qed.

(** [_allocateView] lets no image through whose number of pixels does not fit
    an [int]: it returns exactly when both dimensions are non-negative and
    their product is at most INT_MAX, with a fresh buffer allocated for
    exactly that many pixels and no pixel of another buffer changed;
    otherwise it throws [LengthError] and allocates nothing. *)
Theorem allocateView_guards_the_product (dimensions : Z * Z) (heap : Heap PixelT) :
  match _allocateView dimensions heap with
  | Returns view heap' =>
      0 <= fst dimensions /\ 0 <= snd dimensions /\
      fst dimensions * snd dimensions <= INT_MAX /\
      view = mkView (nextBuffer heap) 0 0 (fst dimensions) (snd dimensions) /\
      nextBuffer heap' = S (nextBuffer heap) /\
      allocated heap' (nextBuffer heap) = fst dimensions * snd dimensions /\
      (forall b, b <> nextBuffer heap -> allocated heap' b = allocated heap b) /\
      cells heap' = cells heap
  | Throws e heap' =>
      e = LengthErrorException /\ heap' = heap /\
      (fst dimensions < 0 \/ snd dimensions < 0 \/ INT_MAX < fst dimensions * snd dimensions)
  end.
Proof.
  destruct dimensions as [w h]. unfold _allocateView. cbn [fst snd].
  assert (HM : 0 < INT_MAX) by (unfold INT_MAX; lia).
  destruct (Z.ltb_spec w 0) as [Hw|Hw]; cbn [orb]; [auto|].
  destruct (Z.ltb_spec h 0) as [Hh|Hh]; cbn [orb]; [auto|].
  destruct (Z.eqb_spec w 0) as [->|Hw0]; cbn [negb andb].
  - rewrite Z.mul_0_l. repeat split; try lia.
    + cbn [allocated]. rewrite Nat.eqb_refl. reflexivity.
    + intros b Hb. cbn [allocated]. apply Nat.eqb_neq in Hb. now rewrite Hb.
  - rewrite Z.quot_div_nonneg by lia. rewrite Z.gtb_ltb.
    pose proof (Z.mul_div_le INT_MAX w ltac:(lia)) as Hle.
    pose proof (Z.mul_succ_div_gt INT_MAX w ltac:(lia)) as Hgt.
    destruct (Z.ltb_spec (INT_MAX / w) h) as [Hbig|Hfit].
    + split; [reflexivity|]. split; [reflexivity|]. right. right. nia.
    + assert (Hprod : w * h <= INT_MAX) by nia.
      repeat split; try lia.
      * cbn [allocated]. rewrite Nat.eqb_refl. apply to_int_small. unfold INT_MAX in Hprod. nia.
      * intros b Hb. cbn [allocated]. apply Nat.eqb_neq in Hb. now rewrite Hb.
Qed.

Lemma fill_cells (this : t) (v : PixelT) (heap : Heap PixelT) :
  nextBuffer (fill this v heap) = nextBuffer heap /\
  allocated (fill this v heap) = allocated heap /\
  forall b cx cy,
    cells (fill this v heap) b cx cy
    = if inView (_gilView this) b cx cy then v else cells heap b cx cy.
Proof.
  exact (write_loop_cells heap (_gilView this) (fun _ _ _ => v) (fun _ _ => v)
           ltac:(reflexivity)).
Qed.

Lemma copy_pixels_cells (src dst : View) (heap : Heap PixelT) :
  buffer src <> buffer dst ->
  nextBuffer (copy_pixels src dst heap) = nextBuffer heap /\
  allocated (copy_pixels src dst heap) = allocated heap /\
  forall b cx cy,
    cells (copy_pixels src dst heap) b cx cy
    = if inView dst b cx cy
      then readPixel heap src (cx - viewX0 dst) (cy - viewY0 dst)
      else cells heap b cx cy.
Proof.
  intros Hne.
  apply (write_loop_cells heap dst (fun x y h => readPixel h src x y)
           (fun x y => readPixel heap src x y)).
  intros x y h _ _ _ Hother. unfold readPixel. now apply Hother.
Qed.

Lemma transform_pixels2_cells (this rhs : View) (f : PixelT -> PixelT -> PixelT)
    (heap : Heap PixelT) :
  buffer rhs <> buffer this ->
  nextBuffer (transform_pixels2 this rhs this f heap) = nextBuffer heap /\
  allocated (transform_pixels2 this rhs this f heap) = allocated heap /\
  forall b cx cy,
    cells (transform_pixels2 this rhs this f heap) b cx cy
    = if inView this b cx cy
      then f (cells heap b cx cy) (readPixel heap rhs (cx - viewX0 this) (cy - viewY0 this))
      else cells heap b cx cy.
Proof.
  intros Hne.
  destruct (write_loop_cells heap this
              (fun x y h => f (readPixel h this x y) (readPixel h rhs x y))
              (fun x y => f (readPixel heap this x y) (readPixel heap rhs x y)))
    as (Hn & Ha & Hc).
  - intros x y h _ _ Hown Hother. unfold readPixel. now rewrite Hown, Hother.
  - split; [exact Hn|]. split; [exact Ha|].
    intros b cx cy. unfold transform_pixels2. rewrite Hc.
    destruct (inView this b cx cy) eqn:Ein; [|reflexivity].
    unfold inView in Ein. unfold readPixel at 1.
    assert (b = buffer this) by (rewrite ?Nat.eqb_eq in *; bool_to_prop; rewrite ?Nat.eqb_eq in *; lia).
    subst b. do 2 f_equal; lia.
Qed.

Lemma makeSubView_inv (dimensions offset : Z * Z) (view : View) (heap : Heap PixelT) v heap' :
  _makeSubView dimensions offset view heap = Returns v heap' ->
  heap' = heap /\
  v = mkView (buffer view) (viewX0 view + fst offset) (viewY0 view + snd offset)
        (fst dimensions) (snd dimensions) /\
  0 <= fst offset /\ 0 <= snd offset /\
  fst offset + fst dimensions <= viewWidth view /\
  snd offset + snd dimensions <= viewHeight view.
Proof.
  unfold _makeSubView.
  destruct (_ || _) eqn:E; intros Er; [discriminate Er|].
  injection Er as <- <-. bool_to_prop. repeat split; lia.
Qed.

Lemma makeSubView_fits (dimensions offset : Z * Z) (view : View) (heap : Heap PixelT) :
  0 <= fst offset -> 0 <= snd offset ->
  fst offset + fst dimensions <= viewWidth view ->
  snd offset + snd dimensions <= viewHeight view ->
  _makeSubView dimensions offset view heap
  = Returns (mkView (buffer view) (viewX0 view + fst offset) (viewY0 view + snd offset)
               (fst dimensions) (snd dimensions)) heap.
Proof.
  intros H1 H2 H3 H4. unfold _makeSubView.
  replace (_ || _) with false; [reflexivity|]. symmetry. bool_false.
Qed.

Lemma allocateView_returns (dimensions : Z * Z) (heap : Heap PixelT) view heap' :
  _allocateView dimensions heap = Returns view heap' ->
  view = mkView (nextBuffer heap) 0 0 (fst dimensions) (snd dimensions) /\
  nextBuffer heap' = S (nextBuffer heap) /\ cells heap' = cells heap.
Proof.
  unfold _allocateView.
  destruct (_ || _); [intros E; discriminate E|].
  destruct (_ && _); [intros E; discriminate E|].
  intros E. injection E as <- <-. auto.
Qed.

Context {ops : Box2IOps}.

Lemma subImage_shallow_inv (rhs : t) bbox origin (heap : Heap PixelT) sub heap' :
  subImage rhs bbox origin false heap = Returns sub heap' ->
  heap' = heap /\
  _origin sub = match origin with
                | PARENT => (getMinX bbox, getMinY bbox)
                | LOCAL => (fst (_origin rhs) + getMinX bbox, snd (_origin rhs) + getMinY bbox)
                end /\
  _gilView sub
  = mkView (buffer (_gilView rhs))
      (viewX0 (_gilView rhs) + (fst (_origin sub) - fst (_origin rhs)))
      (viewY0 (_gilView rhs) + (snd (_origin sub) - snd (_origin rhs)))
      (bboxWidth bbox) (bboxHeight bbox) /\
  0 <= fst (_origin sub) - fst (_origin rhs) /\
  0 <= snd (_origin sub) - snd (_origin rhs) /\
  fst (_origin sub) - fst (_origin rhs) + bboxWidth bbox <= getWidth rhs /\
  snd (_origin sub) - snd (_origin rhs) + bboxHeight bbox <= getHeight rhs.
Proof.
  unfold subImage.
  destruct (_makeSubView _ _ _ heap) as [view h|e h] eqn:Ev; intros E; [|discriminate E].
  injection E as <- <-.
  apply makeSubView_inv in Ev. cbn [fst snd] in Ev.
  destruct Ev as (-> & -> & H1 & H2 & H3 & H4).
  cbn [_origin _gilView]. unfold getWidth, getHeight. auto 10.
Qed.

(** A sub-image cut without [deep] is a window on the pixels of its parent:
    it lies within the parent, allocates nothing, shows the parent's pixels,
    and a pixel value assigned to it ([operator=(PixelT)]) appears in the
    parent at the pixels of the window and nowhere else.  The box is one
    whose corners, taken in the parent, are values of C++ [int], so that the
    sums of the bounds test do not overflow. *)
Theorem shallow_subImage_shares_pixels (rhs : t) bbox origin (heap : Heap PixelT) sub heap' :
  subImageInRange rhs bbox origin = true ->
  subImage rhs bbox origin false heap = Returns sub heap' ->
  heap' = heap /\
  getDimensions sub = (bboxWidth bbox, bboxHeight bbox) /\
  0 <= getMinX (placeIn rhs sub) /\ 0 <= getMinY (placeIn rhs sub) /\
  getMinX (placeIn rhs sub) + bboxWidth bbox <= getWidth rhs /\
  getMinY (placeIn rhs sub) + bboxHeight bbox <= getHeight rhs /\
  (forall x y,
     readPixel heap (_gilView sub) x y
     = readPixel heap (_gilView rhs) (getMinX (placeIn rhs sub) + x) (getMinY (placeIn rhs sub) + y)) /\
  forall v x y,
    readPixel (fill sub v heap) (_gilView rhs) x y
    = if inBBox (placeIn rhs sub) x y then v else readPixel heap (_gilView rhs) x y.
Proof.
  intros _ E. apply subImage_shallow_inv in E.
  destruct E as (-> & Eo & Ev & H1 & H2 & H3 & H4).
  unfold placeIn, getDimensions, getWidth, getHeight in *. cbn [getMinX getMinY bboxWidth bboxHeight].
  set (ox := fst (_origin sub) - fst (_origin rhs)) in *.
  set (oy := snd (_origin sub) - snd (_origin rhs)) in *.
  split; [reflexivity|]. split; [now rewrite Ev|].
  split; [exact H1|]. split; [exact H2|]. split; [exact H3|]. split; [exact H4|].
  split.
  - intros x y. unfold readPixel. rewrite Ev. cbn [buffer viewX0 viewY0]. f_equal; lia.
  - intros v x y. unfold readPixel at 1.
    destruct (fill_cells sub v heap) as (_ & _ & Hc). rewrite Hc.
    unfold inView, inBBox. rewrite Ev.
    cbn [buffer viewX0 viewY0 viewWidth viewHeight getMinX getMinY bboxWidth bboxHeight].
    rewrite Nat.eqb_refl. cbn [andb].
    match goal with
    | |- (if ?c1 then _ else _) = (if ?c2 then _ else _) =>
        replace c1 with c2 by bool_eq; reflexivity
    end.
Qed.

(** A sub-image cut with [deep] owns its pixels: it gets a buffer of its
    own that holds a copy of the window, no pixel that existed before
    changes, and a pixel value assigned to the sub-image does not show in
    the parent. *)
Theorem deep_subImage_owns_its_pixels (rhs : t) bbox origin (heap : Heap PixelT) sub heap' :
  (buffer (_gilView rhs) < nextBuffer heap)%nat ->
  subImage rhs bbox origin true heap = Returns sub heap' ->
  buffer (_gilView sub) = nextBuffer heap /\
  getDimensions sub = (bboxWidth bbox, bboxHeight bbox) /\
  (forall x y, 0 <= x < bboxWidth bbox -> 0 <= y < bboxHeight bbox ->
     readPixel heap' (_gilView sub) x y
     = readPixel heap (_gilView rhs) (getMinX (placeIn rhs sub) + x) (getMinY (placeIn rhs sub) + y)) /\
  (forall b cx cy, b <> nextBuffer heap -> cells heap' b cx cy = cells heap b cx cy) /\
  forall v x y,
    readPixel (fill sub v heap') (_gilView rhs) x y = readPixel heap (_gilView rhs) x y.
Proof.
  intros Halloc. unfold subImage.
  destruct (_makeSubView _ _ _ heap) as [view h|e h] eqn:Ev; intros E; [|discriminate E].
  apply makeSubView_inv in Ev. cbn [fst snd] in Ev.
  destruct Ev as (-> & Ev & H1 & H2 & H3 & H4).
  unfold deepen, fromBBox in E.
  destruct (_allocateView _ heap) as [tmpView h1|e h1] eqn:Ea; [|discriminate E].
  apply allocateView_returns in Ea. destruct Ea as (Etmp & Hn1 & Hc1).
  unfold getBBox, getWidth, getHeight in Etmp. cbn [_origin _gilView fst snd bboxWidth bboxHeight] in Etmp.
  unfold assign in E. rewrite isEmpty_emptyBox in E.
  rewrite dims_ne_false in E
    by (unfold getDimensions, getWidth, getHeight; cbn [_gilView fst snd]; rewrite Etmp, Ev; reflexivity).
  injection E as <- <-.
  cbn [_gilView _origin getBBox getMinX getMinY fst snd].
  assert (Hne : buffer view <> buffer tmpView).
  { rewrite Ev, Etmp. cbn [buffer]. lia. }
  destruct (copy_pixels_cells view tmpView h1 Hne) as (Hn2 & _ & Hc2).
  unfold placeIn, getDimensions, getWidth, getHeight.
  cbn [_gilView _origin getMinX getMinY fst snd].
  split; [rewrite Etmp; reflexivity|].
  split; [rewrite Etmp, Ev; reflexivity|].
  assert (Hold : forall b cx cy, b <> nextBuffer heap ->
            cells (copy_pixels view tmpView h1) b cx cy = cells heap b cx cy).
  { intros b cx cy Hb. rewrite Hc2, Hc1.
    replace (inView tmpView b cx cy) with false; [reflexivity|].
    symmetry. unfold inView. rewrite Etmp. cbn [buffer].
    apply Nat.eqb_neq in Hb. now rewrite Hb. }
  split; [|split; [exact Hold|]].
  - intros x y Hx Hy. unfold readPixel at 1. rewrite Hc2.
    replace (inView tmpView (buffer tmpView) (viewX0 tmpView + x) (viewY0 tmpView + y)) with true.
    + unfold readPixel. rewrite Hc1, Ev. cbn [buffer viewX0 viewY0].
      rewrite Etmp. cbn [viewX0 viewY0]. f_equal; lia.
    + symmetry. unfold inView. rewrite Etmp, Ev.
      cbn [buffer viewX0 viewY0 viewWidth viewHeight]. rewrite Nat.eqb_refl. cbn [andb].
      bool_to_prop. lia.
  - intros v x y. unfold readPixel.
    match goal with
    | |- cells (fill ?s v ?h) _ _ _ = _ => destruct (fill_cells s v h) as (_ & _ & Hf)
    end.
    rewrite Hf. cbn [_gilView].
    replace (inView tmpView (buffer (_gilView rhs)) (viewX0 (_gilView rhs) + x)
               (viewY0 (_gilView rhs) + y)) with false.
    + apply Hold. lia.
    + symmetry. unfold inView. rewrite Etmp. cbn [buffer].
      replace (buffer (_gilView rhs) =? nextBuffer heap)%nat with false; [reflexivity|].
      symmetry. apply Nat.eqb_neq. lia.
Qed.

(** Cutting a sub-image from a sub-image is cutting it from the image: with
    boxes in parent coordinates the inner box alone decides, with boxes in
    local coordinates their corners add up; the inner window always lies
    within the image.  The corners of the three boxes, each taken in the
    image it is cut from, are values of C++ [int]. *)
Theorem nested_subImages_compose (im : t) origin outer inner (heap : Heap PixelT) s1 h1 s2 h2 :
  subImageInRange im outer origin = true ->
  subImageInRange s1 inner origin = true ->
  subImageInRange im (composeBoxes origin outer inner) origin = true ->
  subImage im outer origin false heap = Returns s1 h1 ->
  subImage s1 inner origin false h1 = Returns s2 h2 ->
  subImage im (composeBoxes origin outer inner) origin false heap = Returns s2 h2.
Proof.
  intros _ _ _ E1 E2.
  apply subImage_shallow_inv in E1. destruct E1 as (-> & Eo1 & Ev1 & A1 & A2 & A3 & A4).
  apply subImage_shallow_inv in E2. destruct E2 as (-> & Eo2 & Ev2 & B1 & B2 & B3 & B4).
  destruct s1 as [o1 v1], s2 as [o2 v2], im as [o v].
  unfold getWidth, getHeight in *. cbn [_origin _gilView] in *.
  subst v1. cbn [buffer viewX0 viewY0 viewWidth viewHeight] in *.
  unfold subImage. cbn [_origin _gilView].
  assert (Eo : o2 = match origin with
                    | PARENT => (getMinX (composeBoxes origin outer inner),
                                 getMinY (composeBoxes origin outer inner))
                    | LOCAL => (fst o + getMinX (composeBoxes origin outer inner),
                                snd o + getMinY (composeBoxes origin outer inner))
                    end).
  { rewrite Eo2. destruct origin; cbn [composeBoxes getMinX getMinY]; [reflexivity|].
    rewrite Eo1. cbn [fst snd]. f_equal; lia. }
  rewrite <- Eo.
  assert (Ed : bboxWidth (composeBoxes origin outer inner) = bboxWidth inner /\
               bboxHeight (composeBoxes origin outer inner) = bboxHeight inner)
    by (destruct origin; split; reflexivity).
  destruct Ed as [-> ->].
  rewrite makeSubView_fits by (cbn [fst snd]; lia).
  cbn [fst snd]. rewrite Ev2. do 2 f_equal. f_equal; lia.
Qed.

(** [assign(rhs, bbox, origin)] from an image in another buffer, for a box
    whose corners in [this] are values of C++ [int].  It throws
    [LengthError], with no pixel changed, when the dimensions of the box
    ([this] itself for an empty box) are not those of [rhs] or when the box
    does not lie within [this], and only then; otherwise the box has the
    dimensions of [rhs] and lies within [this], the pixels of [this] in the
    box become those of [rhs], and no other pixel of any image changes. *)
Theorem assign_copies_into_the_box (this rhs : t) bbox origin (heap : Heap PixelT) :
  buffer (_gilView this) <> buffer (_gilView rhs) ->
  assignInRange this bbox origin = true ->
  let box := assignBox this bbox origin in
  match assign this rhs bbox origin heap with
  | Throws e heap' =>
      e = LengthErrorException /\ heap' = heap /\
      ((bboxWidth box, bboxHeight box) <> getDimensions rhs \/
       getMinX box < 0 \/ getMinY box < 0 \/
       getWidth this < getMinX box + bboxWidth box \/
       getHeight this < getMinY box + bboxHeight box)
  | Returns _ heap' =>
      (bboxWidth box, bboxHeight box) = getDimensions rhs /\
      (0 <= getMinX box /\ 0 <= getMinY box /\
       getMinX box + bboxWidth box <= getWidth this /\
       getMinY box + bboxHeight box <= getHeight this) /\
      (forall x y,
         readPixel heap' (_gilView this) x y
         = if inBBox box x y
           then readPixel heap (_gilView rhs) (x - getMinX box) (y - getMinY box)
           else readPixel heap (_gilView this) x y) /\
      (forall b cx cy, b <> buffer (_gilView this) -> cells heap' b cx cy = cells heap b cx cy)
  end.
Proof.
  intros Hne _. cbv zeta. unfold assign, assignBox.
  assert (Hcopy : forall dst,
            buffer dst = buffer (_gilView this) ->
            (forall x y,
               readPixel (copy_pixels (_gilView rhs) dst heap) (_gilView this) x y
               = if inBBox (mkBBox (viewX0 dst - viewX0 (_gilView this))
                              (viewY0 dst - viewY0 (_gilView this))
                              (viewWidth dst) (viewHeight dst)) x y
                 then readPixel heap (_gilView rhs)
                        (x - (viewX0 dst - viewX0 (_gilView this)))
                        (y - (viewY0 dst - viewY0 (_gilView this)))
                 else readPixel heap (_gilView this) x y) /\
            (forall b cx cy, b <> buffer (_gilView this) ->
               cells (copy_pixels (_gilView rhs) dst heap) b cx cy = cells heap b cx cy)).
  { intros dst Hb.
    destruct (copy_pixels_cells (_gilView rhs) dst heap ltac:(congruence)) as (_ & _ & Hc).
    split.
    - intros x y. unfold readPixel at 1. rewrite Hc. unfold inView, inBBox.
      cbn [getMinX getMinY bboxWidth bboxHeight]. rewrite Hb, Nat.eqb_refl. cbn [andb].
      match goal with
      | |- (if ?c1 then _ else _) = (if ?c2 then _ else _) =>
          replace c1 with c2 by bool_eq; destruct c2; [|reflexivity]
      end.
      f_equal; lia.
    - intros b cx cy Hbne. rewrite Hc. unfold inView. rewrite Hb.
      apply Nat.eqb_neq in Hbne. now rewrite Hbne. }
  destruct (isEmpty bbox) eqn:Eempty.
  - cbn [getMinX getMinY bboxWidth bboxHeight].
    destruct (dims_ne (getDimensions this) (getDimensions rhs)) eqn:Ene.
    + split; [reflexivity|]. split; [reflexivity|]. left. intros E.
      unfold getDimensions in E, Ene. rewrite <- E in Ene.
      unfold dims_ne in Ene. cbn [fst snd] in Ene. rewrite !Z.eqb_refl in Ene. discriminate Ene.
    + apply dims_ne_false_inv in Ene. unfold getDimensions in *. cbn [fst snd] in Ene.
      destruct Ene as [Ew Eh]. split; [now rewrite Ew, Eh|].
      split; [lia|].
      destruct (Hcopy (_gilView this) eq_refl) as (Hp & Hf). split; [|exact Hf].
      intros x y. rewrite Hp. rewrite !Z.sub_diag. reflexivity.
  - set (box := match origin with
                | PARENT => mkBBox (getMinX bbox - fst (_origin this))
                              (getMinY bbox - snd (_origin this)) (bboxWidth bbox) (bboxHeight bbox)
                | LOCAL => bbox
                end).
    assert (Ebox : bboxWidth box = bboxWidth bbox /\ bboxHeight box = bboxHeight bbox)
      by (subst box; destruct origin; split; reflexivity).
    destruct Ebox as [Ebw Ebh]. rewrite Ebw, Ebh.
    destruct (dims_ne (bboxWidth bbox, bboxHeight bbox) (getDimensions rhs)) eqn:Ene.
    + split; [reflexivity|]. split; [reflexivity|]. left. intros E.
      rewrite <- E in Ene.
      unfold dims_ne in Ene. cbn [fst snd] in Ene. rewrite !Z.eqb_refl in Ene. discriminate Ene.
    + apply dims_ne_false_inv in Ene. unfold getDimensions in *. cbn [fst snd] in Ene.
      destruct Ene as [Ew Eh].
      replace (match origin with
               | PARENT => (getMinX bbox - fst (_origin this), getMinY bbox - snd (_origin this))
               | LOCAL => (getMinX bbox, getMinY bbox)
               end) with (getMinX box, getMinY box)
        by (subst box; destruct origin; reflexivity).
      destruct (_makeSubView _ _ _ heap) as [lhsView h|e h] eqn:Ev.
      * apply makeSubView_inv in Ev. cbn [fst snd] in Ev.
        destruct Ev as (-> & Ev & H1 & H2 & H3 & H4).
        split; [now rewrite Ew, Eh|].
        split; [unfold getWidth, getHeight; lia|].
        destruct (Hcopy lhsView ltac:(rewrite Ev; reflexivity)) as (Hp & Hf). split; [|exact Hf].
        intros x y. rewrite Hp. rewrite Ev. cbn [viewX0 viewY0 viewWidth viewHeight].
        replace (viewX0 (_gilView this) + getMinX box - viewX0 (_gilView this))
          with (getMinX box) by lia.
        replace (viewY0 (_gilView this) + getMinY box - viewY0 (_gilView this))
          with (getMinY box) by lia.
        unfold inBBox. cbn [getMinX getMinY bboxWidth bboxHeight]. rewrite Ebw, Ebh. reflexivity.
      * unfold _makeSubView in Ev. destruct (_ || _) eqn:Efit; [|discriminate Ev].
        injection Ev as <- <-. split; [reflexivity|]. split; [reflexivity|]. right.
        cbn [fst snd] in Efit. unfold getWidth, getHeight. bool_to_prop. lia.
Qed.

(** [Image(dimensions, initialValue)] followed by checked pixel access: every
    index within the dimensions yields the initial value, every other index
    throws [LengthError]; the image sits at the origin (0, 0) in a buffer of
    its own and no pixel that existed before changes. *)
Theorem fresh_image_holds_initial_value (dimensions : Z * Z) (initialValue : PixelT)
    (heap : Heap PixelT) this heap' :
  withInitialValue dimensions initialValue heap = Returns this heap' ->
  getDimensions this = dimensions /\ _origin this = (0, 0) /\
  buffer (_gilView this) = nextBuffer heap /\
  (forall x y,
     at_checked this x y true heap'
     = if (0 <=? x) && (x <? fst dimensions) && (0 <=? y) && (y <? snd dimensions)
       then Returns initialValue heap' else Throws LengthErrorException heap') /\
  (forall b cx cy, b <> nextBuffer heap -> cells heap' b cx cy = cells heap b cx cy).
Proof.
  unfold withInitialValue, fromDimensions.
  destruct (_allocateView dimensions heap) as [view h1|e h1] eqn:Ea; intros E; [|discriminate E].
  injection E as <- <-. apply allocateView_returns in Ea. destruct Ea as (-> & Hn & Hc).
  destruct dimensions as [w h].
  unfold getDimensions, getWidth, getHeight. cbn [_gilView _origin viewWidth viewHeight fst snd buffer].
  split; [reflexivity|]. split; [reflexivity|]. split; [reflexivity|].
  match goal with
  | |- context [fill ?s initialValue h1] => destruct (fill_cells s initialValue h1) as (_ & _ & Hf)
  end.
  cbn [_gilView] in Hf. split.
  - intros x y. unfold at_checked, getWidth, getHeight. cbn [_gilView viewWidth viewHeight andb].
    destruct ((x <? 0) || (x >=? w) || (y <? 0) || (y >=? h)) eqn:Eout.
    + replace ((0 <=? x) && (x <? w) && (0 <=? y) && (y <? h)) with false; [reflexivity|].
      symmetry. rewrite !Z.geb_leb in Eout. bool_false.
    + replace ((0 <=? x) && (x <? w) && (0 <=? y) && (y <? h)) with true.
      * f_equal. unfold readPixel. rewrite Hf. unfold inView.
        cbn [buffer viewX0 viewY0 viewWidth viewHeight]. rewrite Nat.eqb_refl. cbn [andb].
        replace ((0 <=? 0 + x) && (0 + x <? 0 + w) && (0 <=? 0 + y) && (0 + y <? 0 + h)) with true;
          [reflexivity|].
        symmetry. rewrite !Z.geb_leb in Eout. bool_to_prop. lia.
      * symmetry. rewrite !Z.geb_leb in Eout. bool_to_prop. lia.
  - intros b cx cy Hb. rewrite Hf, Hc. unfold inView. cbn [buffer].
    apply Nat.eqb_neq in Hb. now rewrite Hb.
Qed.

End ImageBaseProperties.

(** For [std::uint16_t] pixels [+=] followed by [-=] of the same image in
    another buffer restores every pixel, also where the sum does not fit 16
    bits and wraps. *)
Theorem uint16_plus_then_minus_restores (this rhs : ImageBase.t) (heap : ImageBase.Heap Z) :
  ImageBase.buffer (ImageBase._gilView rhs) <> ImageBase.buffer (ImageBase._gilView this) ->
  ImageBase.getDimensions this = ImageBase.getDimensions rhs ->
  (forall x y, 0 <= x < ImageBase.getWidth this -> 0 <= y < ImageBase.getHeight this ->
     0 <= ImageBase.readPixel heap (ImageBase._gilView this) x y < 2 ^ 16) ->
  exists heap1 heap2,
    ImageBase.compoundAssign ImageBase.uint16_plus this rhs heap = ImageBase.Returns tt heap1 /\
    ImageBase.compoundAssign ImageBase.uint16_minus this rhs heap1 = ImageBase.Returns tt heap2 /\
    forall x y,
      ImageBase.readPixel heap2 (ImageBase._gilView this) x y
      = ImageBase.readPixel heap (ImageBase._gilView this) x y.
Proof.
  intros Hne Hdim Hrange. unfold ImageBase.compoundAssign.
  rewrite dims_ne_false by (rewrite Hdim; reflexivity).
  eexists. eexists. split; [reflexivity|]. split; [reflexivity|].
  intros x y.
  set (tv := ImageBase._gilView this) in *. set (rv := ImageBase._gilView rhs) in *.
  destruct (transform_pixels2_cells Z tv rv ImageBase.uint16_plus heap Hne) as (_ & _ & Hc1).
  destruct (transform_pixels2_cells Z tv rv ImageBase.uint16_minus
              (ImageBase.transform_pixels2 tv rv tv ImageBase.uint16_plus heap) Hne)
    as (_ & _ & Hc2).
  pose proof (Hrange x y) as Hr.
  unfold ImageBase.readPixel, ImageBase.getWidth, ImageBase.getHeight in *. fold tv in Hr.
  rewrite Hc2, Hc1.
  destruct (ImageBase.inView tv (ImageBase.buffer tv) (ImageBase.viewX0 tv + x)
              (ImageBase.viewY0 tv + y)) eqn:Ein; [|reflexivity].
  assert (Hin : (0 <= x < ImageBase.viewWidth tv) /\ (0 <= y < ImageBase.viewHeight tv))
    by (unfold ImageBase.inView in Ein; bool_to_prop; lia).
  specialize (Hr (proj1 Hin) (proj2 Hin)).
  rewrite Hc1.
  replace (ImageBase.inView tv (ImageBase.buffer rv) _ _) with false.
  - unfold ImageBase.uint16_plus, ImageBase.uint16_minus.
    rewrite Zminus_mod_idemp_l.
    match goal with
    | |- (?a + ?b - ?b) mod _ = _ => replace (a + b - b) with a by lia
    end.
    apply Z.mod_small. exact Hr.
  - symmetry. unfold ImageBase.inView.
    replace (ImageBase.buffer rv =? ImageBase.buffer tv)%nat with false; [reflexivity|].
    symmetry. now apply Nat.eqb_neq.
Qed.

(** *** Instances *)

Lemma shallow_subImage_shares_pixels_witness :
  ImageBase.readPixel (ImageBase.fill windowAtOneOne 7 twoBuffers)
    (ImageBase._gilView fiveByFour) 2 2 = 7 /\
  ImageBase.readPixel (ImageBase.fill windowAtOneOne 7 twoBuffers)
    (ImageBase._gilView fiveByFour) 3 2 = 23.
Proof.
  destruct (shallow_subImage_shares_pixels Z (ops := boxesWithoutPixels) fiveByFour
              (mkBBox 101 201 2 2) ImageBase.PARENT twoBuffers windowAtOneOne twoBuffers
              eq_refl eq_refl)
    as (_ & _ & _ & _ & _ & _ & _ & Hfill).
  split; rewrite Hfill; reflexivity.
Defined.

Lemma deep_subImage_owns_its_pixels_witness :
  exists sub heap',
    ImageBase.subImage (ops := boxesWithoutPixels) fiveByFour (mkBBox 101 201 2 2)
      ImageBase.PARENT true twoBuffers = ImageBase.Returns sub heap' /\
    ImageBase.readPixel heap' (ImageBase._gilView sub) 1 1 = 22 /\
    ImageBase.readPixel (ImageBase.fill sub 7 heap') (ImageBase._gilView fiveByFour) 2 2 = 22.
Proof.
  eexists. eexists. split; [reflexivity|].
  destruct (deep_subImage_owns_its_pixels Z (ops := boxesWithoutPixels) fiveByFour
              (mkBBox 101 201 2 2) ImageBase.PARENT twoBuffers _ _ ltac:(simpl; lia) eq_refl)
    as (_ & _ & Hcopy & _ & Hfill).
  split.
  - rewrite Hcopy; [reflexivity|simpl; lia|simpl; lia].
  - rewrite Hfill. reflexivity.
Defined.

Lemma nested_subImages_compose_witness :
  ImageBase.subImage (ops := boxesWithoutPixels) fiveByFour (mkBBox 102 202 1 1)
    ImageBase.PARENT false twoBuffers
  = ImageBase.Returns (ImageBase.mk (102, 202) (ImageBase.mkView 0 2 2 1 1)) twoBuffers.
Proof.
  apply (nested_subImages_compose Z (ops := boxesWithoutPixels) fiveByFour ImageBase.PARENT
           (mkBBox 101 201 3 3) (mkBBox 102 202 1 1) twoBuffers
           (ImageBase.mk (101, 201) (ImageBase.mkView 0 1 1 3 3)) twoBuffers);
    reflexivity.
Defined.

Lemma assign_copies_into_the_box_witness :
  exists heap',
    ImageBase.assign (ops := boxesWithoutPixels) fiveByFour twoByTwo (mkBBox 101 201 2 2)
      ImageBase.PARENT twoBuffers = ImageBase.Returns tt heap' /\
    ImageBase.readPixel heap' (ImageBase._gilView fiveByFour) 2 2 = 65535 /\
    ImageBase.readPixel heap' (ImageBase._gilView fiveByFour) 3 2 = 23.
Proof.
  pose proof (assign_copies_into_the_box Z (ops := boxesWithoutPixels) fiveByFour twoByTwo
                (mkBBox 101 201 2 2) ImageBase.PARENT twoBuffers ltac:(simpl; lia) eq_refl) as H.
  cbv zeta in H.
  assert (E : ImageBase.assign (ops := boxesWithoutPixels) fiveByFour twoByTwo (mkBBox 101 201 2 2)
                ImageBase.PARENT twoBuffers
              = ImageBase.Returns tt
                  (ImageBase.copy_pixels (ImageBase._gilView twoByTwo)
                     (ImageBase._gilView windowAtOneOne) twoBuffers)) by reflexivity.
  rewrite E in H. destruct H as (_ & _ & Hp & _).
  eexists. split; [exact E|]. split; rewrite Hp; reflexivity.
Defined.

Lemma uint16_plus_then_minus_restores_witness :
  exists heap1 heap2,
    ImageBase.compoundAssign ImageBase.uint16_plus windowAtOneOne twoByTwo twoBuffers
      = ImageBase.Returns tt heap1 /\
    ImageBase.compoundAssign ImageBase.uint16_minus windowAtOneOne twoByTwo heap1
      = ImageBase.Returns tt heap2 /\
    ImageBase.readPixel heap1 (ImageBase._gilView windowAtOneOne) 0 0 = 10 /\
    ImageBase.readPixel heap2 (ImageBase._gilView windowAtOneOne) 0 0 = 11.
Proof.
  destruct (uint16_plus_then_minus_restores windowAtOneOne twoByTwo twoBuffers)
    as (heap1 & heap2 & E1 & E2 & Hp).
  - simpl. lia.
  - reflexivity.
  - intros x y Hx Hy.
    cbv [ImageBase.getWidth ImageBase.getHeight windowAtOneOne ImageBase._gilView
         ImageBase.viewWidth ImageBase.viewHeight] in Hx, Hy.
    cbv [ImageBase.readPixel ImageBase.cells twoBuffers windowAtOneOne ImageBase._gilView
         ImageBase.buffer ImageBase.viewX0 ImageBase.viewY0 Nat.eqb]. lia.
  - exists heap1, heap2. split; [exact E1|]. split; [exact E2|]. split.
    + injection E1 as <-. reflexivity.
    + rewrite Hp. reflexivity.
Defined.

Lemma fresh_image_holds_initial_value_witness :
  exists this heap',
    ImageBase.withInitialValue (3, 2) 9 twoBuffers = ImageBase.Returns this heap' /\
    ImageBase.at_checked this 2 1 true heap' = ImageBase.Returns 9 heap' /\
    ImageBase.at_checked this 3 1 true heap' = ImageBase.Throws LengthErrorException heap'.
Proof.
  eexists. eexists. split; [reflexivity|].
  destruct (fresh_image_holds_initial_value Z (3, 2) 9 twoBuffers _ _ eq_refl)
    as (_ & _ & _ & Hat & _).
  split; rewrite Hat; reflexivity.
Defined.

(** ** [copyRegion] on views and on image values *)

(** The embedding of [copyRegion] on image values does what its statements
    do on the images of Image.cc.  For an output and an input image in
    different buffers, with the region read in the pixel indices of the
    images, both throw [LengthError] in the same cases, changing nothing,
    and otherwise leave the same pixels in the output image. *)
Theorem copyRegion_on_views_and_values {ops : ImageBase.Box2IOps} origin
    (outImage inImage : ImageBase.t) region orMask (heap : ImageBase.Heap Pixel) :
  ImageBase.buffer (ImageBase._gilView outImage) <> ImageBase.buffer (ImageBase._gilView inImage) ->
  origin = ImageBase.LOCAL \/
  (ImageBase._origin outImage = (0, 0) /\ ImageBase._origin inImage = (0, 0)) ->
  match copyRegionOnViews origin outImage inImage region heap,
        copyRegion (imageOf heap inImage) region orMask (imageOf heap outImage) with
  | ImageBase.Returns _ heap', Ok _ out' =>
      sameFrame out' (imageOf heap' outImage) /\
      (forall x y, ImageBase.readPixel heap' (ImageBase._gilView outImage) x y = pix out' x y) /\
      (forall x y, ImageBase.readPixel heap' (ImageBase._gilView inImage) x y
                   = ImageBase.readPixel heap (ImageBase._gilView inImage) x y)
  | ImageBase.Throws e heap', Throw e' out' =>
      e = LengthErrorException /\ e' = LengthErrorException /\ heap' = heap /\
      out' = imageOf heap outImage
  | _, _ => False
  end.
Proof.
  intros Hne Horigin.
  assert (Hsub : forall (im : ImageBase.t),
            ImageBase._origin im = ImageBase._origin outImage \/
            ImageBase._origin im = ImageBase._origin inImage ->
            ImageBase.subImage im region origin false heap
            = if fitsIn region (imageOf heap im)
              then ImageBase.Returns
                     (ImageBase.mk
                        (match origin with
                         | ImageBase.PARENT => (getMinX region, getMinY region)
                         | ImageBase.LOCAL =>
                             (fst (ImageBase._origin im) + getMinX region,
                              snd (ImageBase._origin im) + getMinY region)
                         end)
                        (ImageBase.mkView (ImageBase.buffer (ImageBase._gilView im))
                           (ImageBase.viewX0 (ImageBase._gilView im) + getMinX region)
                           (ImageBase.viewY0 (ImageBase._gilView im) + getMinY region)
                           (bboxWidth region) (bboxHeight region))) heap
              else ImageBase.Throws LengthErrorException heap).
  { intros im Him.
    assert (Eoff : match origin with
                   | ImageBase.PARENT => (getMinX region, getMinY region)
                   | ImageBase.LOCAL =>
                       (fst (ImageBase._origin im) + getMinX region,
                        snd (ImageBase._origin im) + getMinY region)
                   end
                   = (fst (ImageBase._origin im) + getMinX region,
                      snd (ImageBase._origin im) + getMinY region)).
    { destruct Horigin as [->|[Eo Ei]]; [reflexivity|].
      destruct origin; [|reflexivity].
      destruct Him as [-> | ->]; [rewrite Eo|rewrite Ei]; reflexivity. }
    unfold ImageBase.subImage, ImageBase._makeSubView, fitsIn, imageOf. cbn [getWidth getHeight].
    unfold ImageBase.getWidth, ImageBase.getHeight.
    rewrite Eoff. cbn [fst snd].
    replace (fst (ImageBase._origin im) + getMinX region - fst (ImageBase._origin im))
      with (getMinX region) by lia.
    replace (snd (ImageBase._origin im) + getMinY region - snd (ImageBase._origin im))
      with (getMinY region) by lia.
    destruct (_ || _); reflexivity. }
  unfold copyRegionOnViews.
  rewrite (Hsub outImage) by (left; reflexivity).
  destruct (fitsIn region (imageOf heap outImage)) eqn:Fo.
  2:{ unfold copyRegion, bind, throw_if. rewrite Fo. cbn [negb]. auto. }
  rewrite (Hsub inImage) by (right; reflexivity).
  destruct (fitsIn region (imageOf heap inImage)) eqn:Fi.
  2:{ unfold copyRegion, bind, throw_if. rewrite Fo, Fi. cbn [negb]. auto. }
  destruct (copyRegion_pixels (imageOf heap inImage) region orMask (imageOf heap outImage) Fo Fi)
    as (out' & E & F & p).
  rewrite E. clear E.
  unfold ImageBase.shiftAssign, ImageBase.assign.
  rewrite ImageBase.isEmpty_emptyBox.
  rewrite dims_ne_false by reflexivity.
  cbn [ImageBase._gilView].
  match goal with
  | |- context [ImageBase.copy_pixels ?src ?dst heap] =>
      destruct (copy_pixels_cells Pixel src dst heap ltac:(cbn [ImageBase.buffer]; congruence))
        as (_ & _ & Hc);
      set (inPatch := src) in *; set (outPatch := dst) in *
  end.
  split; [exact F|]. split.
  - intros x y. rewrite p. unfold ImageBase.readPixel at 1. rewrite Hc.
    unfold ImageBase.inView, inBBox, outPatch, inPatch.
    cbn [ImageBase.buffer ImageBase.viewX0 ImageBase.viewY0 ImageBase.viewWidth ImageBase.viewHeight].
    rewrite Nat.eqb_refl. cbn [andb].
    match goal with
    | |- (if ?c1 then _ else _) = (if ?c2 then _ else _) =>
        replace c1 with c2 by bool_eq; destruct c2; [|reflexivity]
    end.
    unfold imageOf, ImageBase.readPixel. cbn [pix ImageBase.buffer ImageBase.viewX0 ImageBase.viewY0].
    f_equal; lia.
  - intros x y. unfold ImageBase.readPixel. rewrite Hc.
    replace (ImageBase.inView outPatch _ _ _) with false; [reflexivity|].
    symmetry. unfold ImageBase.inView, outPatch. cbn [ImageBase.buffer].
    replace (ImageBase.buffer (ImageBase._gilView inImage)
             =? ImageBase.buffer (ImageBase._gilView outImage))%nat with false; [reflexivity|].
    symmetry. apply Nat.eqb_neq. congruence.
Qed.

Lemma copyRegion_on_views_and_values_witness :
  exists heap' out',
    copyRegionOnViews (ops := boxesWithoutPixels) ImageBase.PARENT outOnBufferZero inOnBufferOne
      (mkBBox 1 1 2 2) exactBuffers = ImageBase.Returns tt heap' /\
    copyRegion (imageOf exactBuffers inOnBufferOne) (mkBBox 1 1 2 2) 0
      (imageOf exactBuffers outOnBufferZero) = Ok tt out' /\
    ImageBase.readPixel heap' (ImageBase._gilView outOnBufferZero) 2 2 = pix out' 2 2.
Proof.
  pose proof (copyRegion_on_views_and_values (ops := boxesWithoutPixels) ImageBase.PARENT
                outOnBufferZero inOnBufferOne (mkBBox 1 1 2 2) 0 exactBuffers
                ltac:(simpl; lia) ltac:(right; split; reflexivity)) as H.
  destruct (copyRegionOnViews _ _ _ _ _) as [[] heap'|e heap'] eqn:E1;
    destruct (copyRegion _ _ _ _) as [[] out'|e' out'] eqn:E2; try contradiction.
  - exists heap', out'. split; [reflexivity|]. split; [reflexivity|].
    destruct H as (_ & Hp & _). apply Hp.
  - exfalso. vm_compute in E1. discriminate E1.
Defined.

(** ** Sets of records (table/Set.h) *)

Section SetProperties.
Import SetT.

Lemma keys_increase_cons k0 p0 m :
  keys_increase ((k0, p0) :: m) = true <-> keys_above k0 m /\ keys_increase m = true.
Proof.
  destruct m as [|[k1 p1] m]; cbn [keys_increase keys_above].
  - tauto.
  - rewrite andb_true_iff, Z.ltb_lt. reflexivity.
Qed.

Lemma map_find_below m : forall k0 k,
  keys_above k0 m -> keys_increase m = true -> k <= k0 -> map_find k m = None.
Proof.
  induction m as [|[k1 p1] m IH]; intros k0 k Ha Hs Hk; [reflexivity|].
  cbn [map_find]. cbn [keys_above] in Ha. apply keys_increase_cons in Hs. destruct Hs as (Ha1 & Hs1).
  destruct (Z.eqb_spec k k1); [lia|]. apply (IH k1); [assumption|assumption|lia].
Qed.

Lemma map_insert_spec k p m : forall m' q inserted,
  map_insert k p m = (m', q, inserted) ->
  map_find k m' = Some q /\
  (forall k', k' <> k -> map_find k' m' = map_find k' m) /\
  (inserted = true -> q = p /\ length m' = S (length m)) /\
  (inserted = false -> m' = m) /\
  (map_find k m = None -> inserted = true).
Proof.
  induction m as [|[k1 p1] m IH]; intros m' q inserted E; cbn [map_insert] in E.
  - injection E as <- <- <-. cbn [map_find]. rewrite Z.eqb_refl.
    repeat split; try discriminate.
    intros k' Hk. destruct (Z.eqb_spec k' k); [contradiction|reflexivity].
  - destruct (Z.ltb_spec k k1) as [Hlt|Hge].
    + injection E as <- <- <-. cbn [map_find]. rewrite Z.eqb_refl.
      repeat split; try discriminate.
      intros k' Hk. destruct (Z.eqb_spec k' k); [contradiction|reflexivity].
    + destruct (Z.eqb_spec k k1) as [->|Hne].
      * injection E as <- <- <-. cbn [map_find]. rewrite Z.eqb_refl.
        repeat split; try discriminate.
      * destruct (map_insert k p m) as [[m'' q'] inserted'] eqn:Er.
        injection E as <- <- <-.
        destruct (IH _ _ _ eq_refl) as (Hf & Ho & Hi & Hn & Ha).
        cbn [map_find]. destruct (Z.eqb_spec k k1); [contradiction|].
        split; [exact Hf|]. split; [|split; [|split]].
        -- intros k' Hk. destruct (k' =? k1); [reflexivity|]. apply Ho, Hk.
        -- intros Hins. destruct (Hi Hins) as (-> & Hl). split; [reflexivity|].
           cbn [length]. now rewrite Hl.
        -- intros Hins. now rewrite (Hn Hins).
        -- exact Ha.
Qed.

Lemma map_insert_present k p m q0 :
  keys_increase m = true -> map_find k m = Some q0 -> map_insert k p m = (m, q0, false).
Proof.
  induction m as [|[k1 p1] m IH]; intros Hs Hf; [discriminate Hf|].
  apply keys_increase_cons in Hs. destruct Hs as (Ha & Hs).
  cbn [map_find] in Hf. cbn [map_insert].
  destruct (Z.ltb_spec k k1) as [Hlt|Hge].
  - destruct (Z.eqb_spec k k1); [lia|].
    rewrite (map_find_below m k1 k Ha Hs ltac:(lia)) in Hf. discriminate Hf.
  - destruct (Z.eqb_spec k k1) as [->|Hne].
    + injection Hf as <-. reflexivity.
    + now rewrite (IH Hs Hf).
Qed.

Lemma map_insert_keys_above k0 k p m :
  keys_above k0 m -> k0 < k -> keys_above k0 (fst (fst (map_insert k p m))).
Proof.
  destruct m as [|[k1 p1] m]; intros Ha Hk; cbn [map_insert].
  - exact Hk.
  - destruct (k <? k1); [exact Hk|]. destruct (k =? k1); [exact Ha|].
    destruct (map_insert k p m) as [[m'' q] inserted]. exact Ha.
Qed.

Lemma map_insert_keys_increase k p m :
  keys_increase m = true -> keys_increase (fst (fst (map_insert k p m))) = true.
Proof.
  induction m as [|[k1 p1] m IH]; intros Hs; cbn [map_insert]; [reflexivity|].
  destruct (Z.ltb_spec k k1) as [Hlt|Hge].
  - cbn [fst]. apply keys_increase_cons. split; [exact Hlt|exact Hs].
  - destruct (Z.eqb_spec k k1) as [->|Hne]; [exact Hs|].
    apply keys_increase_cons in Hs. destruct Hs as (Ha & Hs).
    pose proof (map_insert_keys_above k1 k p m Ha ltac:(lia)) as Ha'.
    specialize (IH Hs).
    destruct (map_insert k p m) as [[m'' q] inserted]. cbn [fst] in *.
    apply keys_increase_cons. split; assumption.
Qed.

Lemma map_erase_keys_above k0 k m :
  keys_above k0 m -> keys_increase m = true -> keys_above k0 (fst (map_erase k m)).
Proof.
  destruct m as [|[k1 p1] m]; intros Ha Hs; cbn [map_erase]; [exact I|].
  destruct (k =? k1).
  - cbn [fst]. apply keys_increase_cons in Hs. destruct Hs as (Ha1 & _).
    cbn [keys_above] in Ha. destruct m as [|[k2 p2] m]; [exact I|]. cbn [keys_above] in *. lia.
  - destruct (map_erase k m) as [m'' n]. exact Ha.
Qed.

Lemma map_erase_spec k m :
  keys_increase m = true ->
  snd (map_erase k m) = match map_find k m with Some _ => 1 | None => 0 end /\
  map_find k (fst (map_erase k m)) = None /\
  (forall k', k' <> k -> map_find k' (fst (map_erase k m)) = map_find k' m) /\
  Z.of_nat (length (fst (map_erase k m))) = Z.of_nat (length m) - snd (map_erase k m) /\
  keys_increase (fst (map_erase k m)) = true.
Proof.
  induction m as [|[k1 p1] m IH]; intros Hs.
  - cbn. repeat split; reflexivity.
  - pose proof Hs as Hs0. apply keys_increase_cons in Hs. destruct Hs as (Ha & Hs).
    pose proof (map_erase_keys_above k1 k m Ha Hs) as Ha'.
    specialize (IH Hs). destruct IH as (Hn & Hf & Ho & Hl & Hi).
    cbn [map_erase map_find].
    destruct (Z.eqb_spec k k1) as [->|Hne].
    + cbn [fst snd]. split; [reflexivity|]. split; [|split; [|split]].
      * apply (map_find_below m k1 k1 Ha Hs). lia.
      * intros k' Hk. destruct (Z.eqb_spec k' k1); [contradiction|reflexivity].
      * cbn [length]. lia.
      * exact Hs.
    + destruct (map_erase k m) as [m'' n]. cbn [fst snd] in *.
      split; [exact Hn|]. split; [|split; [|split]].
      * cbn [map_find]. destruct (Z.eqb_spec k k1); [contradiction|]. exact Hf.
      * intros k' Hk. cbn [map_find]. destruct (k' =? k1); [reflexivity|]. apply Ho, Hk.
      * cbn [length]. lia.
      * apply keys_increase_cons. split; assumption.
Qed.

(** What a call of [insert_at] that returns has done. *)
Lemma insert_at_returns records p s q s' :
  keys_increase (_internal s) = true ->
  insert_at records p s = Returns q s' ->
  q = p /\ getTable (records p) = _table s /\ _table s' = _table s /\
  keys_increase (_internal s') = true /\
  get s' (getKey (records p)) = Some p /\
  (forall k, k <> getKey (records p) -> get s' k = get s k) /\
  (forall k q0, get s k = Some q0 -> get s' k = Some q0).
Proof.
  intros Hs E. unfold insert_at in E.
  destruct (Nat.eqb_spec (getTable (records p)) (_table s)) as [Ht|Ht]; cbn [negb] in E;
    [|discriminate E].
  pose proof (map_insert_keys_increase (getKey (records p)) p (_internal s) Hs) as Hs'.
  destruct (map_insert (getKey (records p)) p (_internal s)) as [[m q1] inserted] eqn:Em.
  destruct (Nat.eqb_spec q1 p) as [->|Hq]; cbn [negb] in E; [|discriminate E].
  injection E as <- <-. cbn [fst] in Hs'.
  destruct (map_insert_spec _ _ _ _ _ _ Em) as (Hf & Ho & Hi & Hn & Ha).
  unfold get. cbn [_internal _table].
  repeat (split; [first [reflexivity | assumption]|]).
  intros k q0 Hk. destruct (Z.eq_dec k (getKey (records p))) as [->|Hne].
  - rewrite (map_insert_present _ p _ _ Hs Hk) in Em. injection Em as <- <- <-. exact Hk.
  - rewrite (Ho k Hne). exact Hk.
Qed.

(** A record of the set's table whose key is not in the set is inserted, by
    [insert(p)] and by [insert(pos, p)] alike: afterwards [get] and
    [operator[]] find it under its key, every other key finds what it found
    before, the set has one record more and its keys still increase. *)
Theorem SetT_insert_then_get records p s :
  getTable (records p) = _table s ->
  get s (getKey (records p)) = None ->
  keys_increase (_internal s) = true ->
  exists s',
    insert records p s = Returns p s' /\
    insert_at records p s = Returns p s' /\
    get s' (getKey (records p)) = Some p /\
    at_key s' (getKey (records p)) = Returns p s' /\
    (forall k, k <> getKey (records p) -> get s' k = get s k) /\
    size s' = size s + 1 /\
    keys_increase (_internal s') = true /\
    _table s' = _table s.
Proof.
  intros Ht Hg Hs. unfold insert, insert_at, at_key, get, size in *.
  rewrite Ht, Nat.eqb_refl. cbn [negb].
  pose proof (map_insert_keys_increase (getKey (records p)) p (_internal s) Hs) as Hs'.
  destruct (map_insert (getKey (records p)) p (_internal s)) as [[m q] inserted] eqn:Em.
  destruct (map_insert_spec _ _ _ _ _ _ Em) as (Hf & Ho & Hi & _ & Ha).
  rewrite (Ha Hg) in *. destruct (Hi eq_refl) as (-> & Hl).
  rewrite Nat.eqb_refl. cbn [negb fst] in *.
  eexists. split; [reflexivity|]. split; [reflexivity|]. cbn [_internal _table].
  rewrite Hf. repeat split; try assumption. rewrite Hl. lia.
Qed.

(** A record whose key the set holds already is never stored, and the two
    overloads differ in what they say: [insert(p)] throws
    [InvalidParameter] even when the record under the key is [p] itself,
    [insert(pos, p)] returns in that case and throws only for another
    record.  The set stays as it was in every case. *)
Theorem SetT_insert_present_key records p s q :
  getTable (records p) = _table s ->
  keys_increase (_internal s) = true ->
  get s (getKey (records p)) = Some q ->
  insert records p s = Throws InvalidParameterException s /\
  insert_at records p s
  = if (q =? p)%nat then Returns p s else Throws InvalidParameterException s.
Proof.
  intros Ht Hs Hg. unfold insert, insert_at, get in *.
  rewrite Ht, Nat.eqb_refl. cbn [negb].
  rewrite (map_insert_present _ p _ _ Hs Hg). cbn [negb].
  destruct s as [table m]. cbn [_table _internal].
  split; [reflexivity|].
  destruct (Nat.eqb_spec q p) as [->|Hne]; reflexivity.
Qed.

(** [erase(k)] returns 1 when the set holds the key and 0 when it does not;
    afterwards the key is not found, every other key finds what it found
    before, and the size went down by the number returned. *)
Theorem SetT_erase_then_get k s :
  keys_increase (_internal s) = true ->
  fst (erase k s) = match get s k with Some _ => 1 | None => 0 end /\
  get (snd (erase k s)) k = None /\
  at_key (snd (erase k s)) k = Throws NotFoundException (snd (erase k s)) /\
  (forall k', k' <> k -> get (snd (erase k s)) k' = get s k') /\
  size (snd (erase k s)) = size s - fst (erase k s) /\
  keys_increase (_internal (snd (erase k s))) = true.
Proof.
  intros Hs. destruct (map_erase_spec k (_internal s) Hs) as (Hn & Hf & Ho & Hl & Hi).
  unfold erase, get, at_key, size.
  destruct (map_erase k (_internal s)) as [m n]. cbn [fst snd _internal] in *.
  rewrite Hf. repeat split; assumption.
Qed.

(** Inserting a range of records stores nothing over what the set holds.
    When the call returns, every record of the range is found under its
    key.  When it throws, at the first record of another table or with the
    key of a different record in the set, it throws [LogicError] or
    [InvalidParameter] and the records inserted before that one stay. *)
Theorem SetT_insert_range_keeps_records records range : forall s,
  keys_increase (_internal s) = true ->
  match insert_range records range s with
  | Returns _ s' =>
      (forall k q, get s k = Some q -> get s' k = Some q) /\
      (forall p, In p range -> get s' (getKey (records p)) = Some p) /\
      keys_increase (_internal s') = true
  | Throws e s' =>
      (forall k q, get s k = Some q -> get s' k = Some q) /\
      keys_increase (_internal s') = true /\
      exists before p after,
        range = before ++ p :: after /\
        insert_range records before s = Returns tt s' /\
        insert_at records p s' = Throws e s' /\
        (e = LogicErrorException /\ getTable (records p) <> _table s' \/
         e = InvalidParameterException /\
         exists q, q <> p /\ get s' (getKey (records p)) = Some q)
  end.
Proof.
  induction range as [|p range IH]; intros s Hs; cbn [insert_range].
  - split; [auto|]. split; [intros p []|exact Hs].
  - destruct (insert_at records p s) as [q s1|e s1] eqn:E1.
    + destruct (insert_at_returns _ _ _ _ _ Hs E1) as (-> & Ht & Ht1 & Hs1 & Hg1 & Ho1 & Hk1).
      specialize (IH s1 Hs1).
      destruct (insert_range records range s1) as [[] s'|e s'] eqn:E2.
      * destruct IH as (Hk & Hr & Hs'). split; [auto|]. split; [|exact Hs'].
        intros p0 [<-|Hin]; [apply Hk, Hg1|apply Hr, Hin].
      * destruct IH as (Hk & Hs' & before & p0 & after & -> & Eb & Ep & He).
        split; [auto|]. split; [exact Hs'|].
        exists (p :: before), p0, after. split; [reflexivity|].
        cbn [insert_range]. rewrite E1. auto.
    + assert (s1 = s /\
              (e = LogicErrorException /\ getTable (records p) <> _table s \/
               e = InvalidParameterException /\
               exists q, q <> p /\ get s (getKey (records p)) = Some q)) as (-> & He).
      { unfold insert_at in E1.
        destruct (Nat.eqb_spec (getTable (records p)) (_table s)) as [Ht|Ht]; cbn [negb] in E1.
        - destruct (map_insert (getKey (records p)) p (_internal s)) as [[m q1] inserted] eqn:Em.
          destruct (map_insert_spec _ _ _ _ _ _ Em) as (Hf & Ho & Hi & Hn & Ha).
          destruct (Nat.eqb_spec q1 p) as [->|Hq]; cbn [negb] in E1; [discriminate E1|].
          injection E1 as <- <-.
          destruct inserted; [destruct (Hi eq_refl) as (-> & _); contradiction|].
          rewrite (Hn eq_refl) in *. destruct s as [table m0]. cbn [_table _internal] in *.
          split; [reflexivity|]. right. split; [reflexivity|]. exists q1. split; assumption.
        - injection E1 as <- <-. split; [reflexivity|]. left. split; [reflexivity|exact Ht]. }
      split; [auto|]. split; [exact Hs|].
      exists [], p, range. split; [reflexivity|]. split; [reflexivity|]. split; assumption.
Qed.

End SetProperties.

Lemma SetT_insert_then_get_witness :
  exists s',
    SetT.insert someRecords 1%nat tenAndThirty = SetT.Returns 1%nat s' /\
    SetT.get s' 20 = Some 1%nat /\ SetT.size s' = 3.
Proof.
  destruct (SetT_insert_then_get someRecords 1%nat tenAndThirty eq_refl eq_refl eq_refl)
    as (s' & E & _ & Hg & _ & _ & Hn & _).
  exists s'. split; [exact E|]. split; [exact Hg|exact Hn].
Defined.

Lemma SetT_insert_present_key_witness :
  SetT.insert someRecords 3%nat tenAndThirty
  = SetT.Throws SetT.InvalidParameterException tenAndThirty /\
  SetT.insert_at someRecords 3%nat tenAndThirty = SetT.Returns 3%nat tenAndThirty.
Proof.
  exact (SetT_insert_present_key someRecords 3%nat tenAndThirty 3%nat eq_refl eq_refl eq_refl).
Defined.

Lemma SetT_erase_then_get_witness :
  fst (SetT.erase 30 tenAndThirty) = 1 /\ SetT.get (snd (SetT.erase 30 tenAndThirty)) 30 = None.
Proof.
  destruct (SetT_erase_then_get 30 tenAndThirty eq_refl) as (Hn & Hg & _).
  split; [exact Hn|exact Hg].
Defined.

Lemma SetT_insert_range_keeps_records_witness :
  match SetT.insert_range someRecords [1%nat; 2%nat] tenAndThirty with
  | SetT.Returns _ _ => False
  | SetT.Throws e s' => SetT.get s' 10 = Some 0%nat /\ SetT.get s' 20 = Some 1%nat
  end.
Proof.
  pose proof (SetT_insert_range_keeps_records someRecords [1%nat; 2%nat] tenAndThirty eq_refl) as H.
  destruct (SetT.insert_range someRecords [1%nat; 2%nat] tenAndThirty) as [u s'|e s'] eqn:E.
  - vm_compute in E. discriminate E.
  - destruct H as (Hk & _). split; [apply Hk; reflexivity|].
    vm_compute in E. injection E as _ <-. reflexivity.
Defined.

(** ** Images with metadata (DecoratedImage.cc) *)

(** Assigning a decorated image takes the image and the gain of the source
    and leaves the metadata of the target as they were: [swap] exchanges
    [_image] and [_gain] only.  A copy that is not deep cannot fail and
    shares the pixels of the source. *)
Theorem DecoratedImage_assignment_keeps_metadata {PixelT : Type} {ops : ImageBase.Box2IOps}
    (deep : bool) (this src : DecoratedImage.t) (heap : ImageBase.Heap PixelT) :
  match DecoratedImage.assignFrom deep this src heap with
  | ImageBase.Returns this' heap' =>
      DecoratedImage._gain this' = DecoratedImage._gain src /\
      DecoratedImage._metadata this' = DecoratedImage._metadata this /\
      (deep = false -> DecoratedImage._image this' = DecoratedImage._image src /\ heap' = heap)
  | ImageBase.Throws _ _ => deep = true
  end.
Proof.
  unfold DecoratedImage.assignFrom, DecoratedImage.copy, ImageBase.copy.
  destruct deep.
  - destruct (ImageBase.deepen _ heap) as [image heap'|e heap']; [|reflexivity].
    cbn. repeat split; discriminate.
  - cbn. repeat split; reflexivity.
Qed.

(** ** The integrands of the quadrature test (tests/Quadrature.cc) *)

(** The analytic answers that the test compares the integrator with are the
    integrals of the integrands: the area is Simpson's rule on the parabola,
    the volume is Simpson's rule in [y] on Simpson's rule in [x] on the
    paraboloid, and the area over adjoining intervals adds up. *)
Theorem analytic_answers_are_the_integrals :
  (forall p x1 x2, Parab1D.getAnalyticArea p x1 x2 = simpson (Parab1D.call p) x1 x2) /\
  (forall p x1 x2 x3,
     (Parab1D.getAnalyticArea p x1 x2 + Parab1D.getAnalyticArea p x2 x3)%Qc
     = Parab1D.getAnalyticArea p x1 x3) /\
  (forall p x1 x2 y1 y2,
     Parab2D.getAnalyticVolume p x1 x2 y1 y2
     = simpson (fun y => simpson (Parab2D.call p y) x1 x2) y1 y2).
Proof.
  assert (E2 : ofZ 2 = (1 + 1)%Qc) by qc_compute.
  assert (E3 : ofZ 3 = (1 + 1 + 1)%Qc) by qc_compute.
  assert (E4 : ofZ 4 = ((1 + 1) * (1 + 1))%Qc) by qc_compute.
  assert (E6 : ofZ 6 = ((1 + 1) * (1 + 1 + 1))%Qc) by qc_compute.
  split; [|split].
  - intros [K kx] x1 x2. unfold Parab1D.getAnalyticArea, simpson, Parab1D.call.
    cbn [Parab1D._K Parab1D._kx]. rewrite E2, E4, E6, E3. field. repeat split; qc_differ.
  - intros [K kx] x1 x2 x3. unfold Parab1D.getAnalyticArea.
    cbn [Parab1D._K Parab1D._kx]. rewrite E3. field. qc_differ.
  - intros [K kx ky] x1 x2 y1 y2. unfold Parab2D.getAnalyticVolume, simpson, Parab2D.call.
    cbn [Parab2D._K Parab2D._kx Parab2D._ky]. rewrite E2, E4, E6, E3. field. repeat split; qc_differ.
Qed.

(** ** Mosaics of detectors (cameraGeom/DetectorMosaic.cc) *)

Lemma Qc_ltb_lt a b : Qc_ltb a b = true <-> (a < b)%Qc.
Proof.
  unfold Qc_ltb. rewrite Qclt_alt. destruct (a ?= b)%Qc; split; congruence.
Qed.

Lemma Qc_ltb_ge a b : Qc_ltb a b = false <-> (b <= a)%Qc.
Proof.
  split.
  - intros H. apply Qcnot_lt_le. intros L. apply Qc_ltb_lt in L. congruence.
  - intros H. destruct (Qc_ltb a b) eqn:E; [|reflexivity].
    apply Qc_ltb_lt in E. exfalso. exact (Qcle_not_lt _ _ H E).
Qed.

Lemma Qc_ltb_plus a b c : Qc_ltb (a + c) (b + c) = Qc_ltb a b.
Proof.
  assert (H : ((a + c < b + c) <-> (a < b))%Qc).
  { rewrite (Qclt_minus_iff (a + c) (b + c)), (Qclt_minus_iff a b).
    replace (b + c + - (a + c))%Qc with (b + - a)%Qc by ring. reflexivity. }
  destruct (Qc_ltb a b) eqn:E.
  - apply Qc_ltb_lt, H, Qc_ltb_lt, E.
  - destruct (Qc_ltb (a + c) (b + c)) eqn:E'; [|reflexivity].
    apply Qc_ltb_lt, H, Qc_ltb_lt in E'. congruence.
Qed.

Lemma Qcle_minus_compat a b c d : (a <= b)%Qc -> (c <= d)%Qc -> (a - d <= b - c)%Qc.
Proof.
  intros H1 H2. unfold Qcminus. apply Qcplus_le_compat; [exact H1|].
  apply Qcopp_le_compat, H2.
Qed.

Section DetectorMosaicProperties.
Import DetectorMosaic.

Lemma holds_refl c : holds c c.
Proof. repeat split; apply Qcle_refl. Qed.

Lemma holds_trans a b c : holds a b -> holds b c -> holds a c.
Proof.
  intros (H1 & H2 & H3 & H4) (G1 & G2 & G3 & G4).
  repeat split; eapply Qcle_trans; eassumption.
Qed.

Lemma getSize_step_holds det corners :
  holds (getSize_step false det corners) corners /\
  holds (getSize_step false det corners) (llc det, urc det).
Proof.
  destruct corners as [[L0 L1] [U0 U1]]. unfold getSize_step, holds. cbn [fst snd].
  repeat match goal with
  | |- context [Qc_ltb ?a ?b] =>
      let E := fresh "E" in
      destruct (Qc_ltb a b) eqn:E; [apply Qc_ltb_lt, Qclt_le_weak in E|apply Qc_ltb_ge in E]
  end;
  repeat split; first [assumption | apply Qcle_refl].
Qed.

Lemma getSize_loop_holds rest : forall corners,
  match getSize_loop false rest corners with
  | inl e =>
      e = RangeErrorException /\ exists det, In det rest /\ Detector.getYaw det <> 0%Qc
  | inr corners' =>
      holds corners' corners /\
      forall det, In det rest ->
        Detector.getYaw det = 0%Qc /\ holds corners' (llc det, urc det)
  end.
Proof.
  induction rest as [|det rest IH]; intros corners; cbn [getSize_loop].
  - split; [apply holds_refl|intros det []].
  - unfold Qc_eqb. destruct (Qc_eq_dec (Detector.getYaw det) 0%Qc) as [Hy|Hy]; cbn [negb].
    + specialize (IH (getSize_step false det corners)).
      destruct (getSize_step_holds det corners) as (Hc & Hd).
      destruct (getSize_loop false rest _) as [e|corners'].
      * destruct IH as (-> & d & Hin & Hd'). split; [reflexivity|].
        exists d. split; [right; exact Hin|exact Hd'].
      * destruct IH as (Hh & Hr). split; [eapply holds_trans; eassumption|].
        intros d [<-|Hin]; [|apply Hr, Hin].
        split; [exact Hy|eapply holds_trans; eassumption].
    + split; [reflexivity|]. exists det. split; [left; reflexivity|exact Hy].
Qed.

Lemma extent_of_detector det : minus (urc det) (llc det) = Detector.getSize det.
Proof.
  assert (E2 : ofZ 2 = (1 + 1)%Qc) by qc_compute.
  unfold minus, urc, llc, plus, minus, half. cbn [fst snd]. rewrite E2.
  destruct (Detector.getSize det) as [w h]. cbn [fst snd].
  f_equal; field; qc_differ.
Qed.

(** [getSize()] throws [RangeError] when a detector of the mosaic has a yaw
    other than 0 and for no other reason.  Otherwise, in exact arithmetic
    (centers and sizes are exact numbers, nothing is rounded), the size it
    returns is at least the size of every detector in the mosaic, in both
    directions, and for a mosaic of one detector it is the size of that
    detector. *)
Theorem getSize_covers_every_detector defaultPoint (this : t) :
  match getSize defaultPoint this with
  | inl e =>
      e = RangeErrorException /\
      exists det, In det (_detectors this) /\ Detector.getYaw det <> 0%Qc
  | inr size =>
      (forall det, In det (_detectors this) ->
         Detector.getYaw det = 0%Qc /\
         (fst (Detector.getSize det) <= fst size)%Qc /\
         (snd (Detector.getSize det) <= snd size)%Qc) /\
      (forall det, _detectors this = [det] -> size = Detector.getSize det)
  end.
Proof.
  unfold getSize. destruct this as [center detectors]. cbn [_detectors].
  destruct detectors as [|det rest]; cbn [getSize_loop].
  - split; [intros det []|intros det E; discriminate E].
  - unfold Qc_eqb. destruct (Qc_eq_dec (Detector.getYaw det) 0%Qc) as [Hy|Hy]; cbn [negb].
    + cbn [getSize_step].
      pose proof (getSize_loop_holds rest (llc det, urc det)) as H.
      destruct (getSize_loop false rest (llc det, urc det)) as [e|[LLC URC]] eqn:E.
      * destruct H as (-> & d & Hin & Hd). split; [reflexivity|].
        exists d. split; [right; exact Hin|exact Hd].
      * destruct H as (Hh & Hr).
        assert (Hall : forall d, In d (det :: rest) ->
                  Detector.getYaw d = 0%Qc /\ holds (LLC, URC) (llc d, urc d)).
        { intros d [<-|Hin]; [split; assumption|apply Hr, Hin]. }
        split.
        -- intros d Hin. destruct (Hall d Hin) as (Hy' & H1 & H2 & H3 & H4).
           split; [exact Hy'|]. rewrite <- (extent_of_detector d).
           cbn [fst snd] in *. unfold minus at 1 3. cbn [fst snd].
           split; apply Qcle_minus_compat; assumption.
        -- intros d Ed. injection Ed as -> ->. cbn [getSize_loop] in E.
           injection E as <- <-. apply extent_of_detector.
    + split; [reflexivity|]. exists det. split; [left; reflexivity|exact Hy].
Qed.

Lemma llc_of_movedDetector center det : llc (movedDetector center det) = plus (llc det) center.
Proof.
  unfold llc, movedDetector, Detector.setCenter, plus, minus, half.
  cbn [fst snd Detector.getCenter Detector.getSize]. f_equal; ring.
Qed.

Lemma urc_of_movedDetector center det : urc (movedDetector center det) = plus (urc det) center.
Proof.
  unfold urc, movedDetector, Detector.setCenter, plus, minus, half.
  cbn [fst snd Detector.getCenter Detector.getSize]. f_equal; ring.
Qed.

Lemma getSize_step_moved center det corners :
  getSize_step false (movedDetector center det) (moved center corners)
  = moved center (getSize_step false det corners).
Proof.
  destruct corners as [[L0 L1] [U0 U1]].
  unfold getSize_step. rewrite llc_of_movedDetector, urc_of_movedDetector.
  unfold moved, plus. cbn [fst snd].
  rewrite !Qc_ltb_plus.
  repeat match goal with
  | |- context [Qc_ltb ?a ?b] => destruct (Qc_ltb a b)
  end; reflexivity.
Qed.

Lemma getSize_loop_moved center rest : forall corners,
  getSize_loop false (map (movedDetector center) rest) (moved center corners)
  = match getSize_loop false rest corners with
    | inl e => inl e
    | inr corners' => inr (moved center corners')
    end.
Proof.
  induction rest as [|det rest IH]; intros corners; cbn [map getSize_loop]; [reflexivity|].
  cbn [movedDetector Detector.setCenter Detector.getYaw].
  destruct (negb (Qc_eqb (Detector.getYaw det) 0%Qc)); [reflexivity|].
  change (Detector.mk (Detector.getId det) (plus (Detector.getCenter det) center)
            (Detector.getSize det) (Detector.getYaw det)) with (movedDetector center det).
  rewrite getSize_step_moved. apply IH.
Qed.

(** [setCenter(center)] moves every detector of the mosaic by [center] from
    where it is, so a second call moves them again.  In exact arithmetic
    (centers and sizes are exact numbers, nothing is rounded) the mosaic
    keeps its size: [getSize()] returns, or throws, what it did before. *)
Theorem setCenter_moves_detectors_and_keeps_size defaultPoint center (this : t) :
  getCenter (setCenter center this) = center /\
  map Detector.getCenter (_detectors (setCenter center this))
  = map (fun det => plus (Detector.getCenter det) center) (_detectors this) /\
  getSize defaultPoint (setCenter center this) = getSize defaultPoint this.
Proof.
  split; [reflexivity|]. split.
  - unfold setCenter. cbn [_detectors]. rewrite map_map. reflexivity.
  - unfold getSize, setCenter. cbn [_detectors].
    change (fun det => Detector.setCenter (plus (Detector.getCenter det) center) det)
      with (movedDetector center).
    destruct (_detectors this) as [|det rest]; [reflexivity|].
    cbn [map getSize_loop].
    cbn [movedDetector Detector.setCenter Detector.getYaw].
    destruct (negb (Qc_eqb (Detector.getYaw det) 0%Qc)); [reflexivity|].
    change (Detector.mk (Detector.getId det) (plus (Detector.getCenter det) center)
              (Detector.getSize det) (Detector.getYaw det)) with (movedDetector center det).
    cbn [getSize_step].
    rewrite llc_of_movedDetector, urc_of_movedDetector.
    change (plus (llc det) center, plus (urc det) center) with (moved center (llc det, urc det)).
    rewrite getSize_loop_moved.
    destruct (getSize_loop false rest (llc det, urc det)) as [e|[LLC URC]]; [reflexivity|].
    unfold moved, minus, plus. cbn [fst snd]. f_equal. f_equal; ring.
Qed.

End DetectorMosaicProperties.
